(** * ProcessScheduler: main.go

    A shallow embedding of the four scheduling policies [FCFSSchedule],
    [SJFSchedule], [SJFPrioritySchedule] and [RRSchedule], of the way [main]
    chains them, of the loader ([loadProcesses], [mustStrToInt]) and of the
    output helpers [outputTitle] and [outputGantt], followed by the
    properties of what they compute and print.

    Conventions of the embedding.
    - [int64] values are integers of [Z]; every addition and subtraction of
      the source goes through [add64] / [sub64], which wrap around modulo
      2^64 as Go does.
    - [float64] values (the statistics, the quantum) are IEEE binary64
      numbers (primitive floats); [float64_of_int] is Go's conversion
      [float64(x)], rounding to nearest even, and [int64_of_float] is
      [int64(f)].
    - A slice is a list.  A policy sorts and overwrites the slice it is
      handed in place, and Go slices share their backing array with the
      caller, so every policy returns, next to what it prints, the contents
      the caller's slice has afterwards ([backing]).
    - The rows [[]string{...}] handed to the table writer are kept as the
      seven integers that [fmt.Sprint] formats; a row of the table that was
      never written is [None].
    - A Go string is a [string] (a sequence of bytes).  A writer is the
      text written to it so far; the source ignores its errors.
    - [sort.Slice], [math.Min], [fmt.Sprint], [fmt.Fprint], [fmt.Fprintln],
      [strings.Repeat] and [strconv.ParseInt] belong to the Go standard
      library; they are taken through their documented behaviour
      ([sort.Slice] through its contract, class [SliceSorter]).  What
      [csv.NewReader(r).ReadAll()] returned is an argument of
      [loadProcesses].
    - A call that can panic, exit or run for ever returns an outcome type
      that says which ([Outcome], [Loading], [Printing]).
    - [outputSchedule] (the table writer of a third-party package) and
      [openProcessingFile] (the file system) are outside the embedding. *)

From Stdlib Require Import ZArith List Lia Permutation Sorted.
From Stdlib Require Import Floats.PrimFloat Floats.FloatOps Floats.SpecFloat.
From Stdlib Require Import Ascii.
From stdpp Require Import base option list strings pretty.

Local Open Scope Z_scope.

(** ** Machine integers and floats *)

Definition int64_max : Z := 2 ^ 63 - 1.
Definition int64_min : Z := - 2 ^ 63.

Definition wrap64 (z : Z) : Z := (z + 2 ^ 63) mod 2 ^ 64 - 2 ^ 63.
Definition add64 (a b : Z) : Z := wrap64 (a + b).
Definition sub64 (a b : Z) : Z := wrap64 (a - b).

Definition in_int64 (z : Z) : Prop := int64_min <= z <= int64_max.

(** [float64(x)] for an integer [x]. *)
Definition float64_of_int (z : Z) : float :=
  SF2Prim (binary_normalize prec emax z 0 false).

(** ** Data model (main.go, lines 64-76) *)

Record Process := {
  ProcessID : Z;
  ArrivalTime : Z;
  BurstDuration : Z;
  Priority : Z
}.

Record TimeSlice := {
  PID : Z;
  Start : Z;
  Stop : Z
}.

(** One row of the schedule table, in the column order of [outputSchedule]:
    ID, Priority, Burst, Arrival, Wait, Turnaround, Exit. *)
Record Row := {
  rowID : Z;
  rowPriority : Z;
  rowBurst : Z;
  rowArrival : Z;
  rowWait : Z;
  rowTurnaround : Z;
  rowExit : Z
}.

(** Go's zero value of [Process]. *)
#[global] Instance Process_inhabited : Inhabited Process :=
  populate {| ProcessID := 0; ArrivalTime := 0; BurstDuration := 0; Priority := 0 |}.

(** What a policy hands to [outputGantt] and [outputSchedule]. *)
Record Report := {
  chart : list TimeSlice;
  table : list (option Row);
  aveWait : float;
  aveTurnaround : float;
  aveThroughput : float
}.

(** A finished policy call: the report, and the caller's slice afterwards. *)
Record Run := {
  printed : Report;
  backing : list Process
}.

(** ** sort.Slice *)

(** [sort.Slice(x, less)] leaves [x] a permutation of itself in which no
    element is [less] than an earlier one.  Its documentation adds that the
    sort is not guaranteed to be stable.  The policies call it with a
    comparison of one integer field, which is how the second law is
    stated. *)
Class SliceSorter := {
  sortSlice : (Process -> Process -> bool) -> list Process -> list Process;
  sortSlice_perm : forall less l, Permutation (sortSlice less l) l;
  sortSlice_sorted : forall (key : Process -> Z) l,
    StronglySorted (fun a b => key a <= key b)
                   (sortSlice (fun a b => key a <? key b) l)
}.

Definition byBurst (a b : Process) : bool := BurstDuration a <? BurstDuration b.
Definition byArrival (a b : Process) : bool := ArrivalTime a <? ArrivalTime b.

(** An insertion sort, for the runs on concrete lists.
    [insertBefore stop x l] puts [x] in front of the first [y] of [l] with
    [stop x y]. *)
Fixpoint insertBefore (stop : Process -> Process -> bool) (x : Process)
    (l : list Process) : list Process :=
  match l with
  | [] => [x]
  | y :: l' => if stop x y then x :: y :: l' else y :: insertBefore stop x l'
  end.

Definition insertionSort (stop : Process -> Process -> bool) (l : list Process)
    : list Process :=
  foldr (insertBefore stop) [] l.

(** Keeps equal elements in their input order. *)
Definition stableSort (less : Process -> Process -> bool) : list Process -> list Process :=
  insertionSort (fun x y => negb (less y x)).

(** ** The accounting shared by FCFS, SJF and the priority policy *)

(** The [var (...)] block the three policies open with. *)
Record Tally := {
  serviceTime : Z;
  totalWait : float;
  totalTurnaround : float;
  lastCompletion : float;
  waitingTime : Z;
  schedule : list (option Row);
  gantt : list TimeSlice
}.

(** [schedule = make([][]string, len(processes))], [gantt = make([]TimeSlice, 0)],
    everything else zero. *)
Definition newTally (n : nat) : Tally :=
  {| serviceTime := 0; totalWait := 0; totalTurnaround := 0;
     lastCompletion := 0; waitingTime := 0;
     schedule := replicate n None; gantt := [] |}.

(** The body that lines 95-123 (FCFS), 151-179 (SJF) and 232-260 (priority)
    repeat word for word: account for process [p], writing its row at index
    [i] of the table.  [i] is always inside the table there. *)
Definition serve (i : nat) (p : Process) (t : Tally) : Tally :=
  let waitingTime' :=
    if 0 <? ArrivalTime p then sub64 (serviceTime t) (ArrivalTime p)
    else waitingTime t in
  let start := add64 waitingTime' (ArrivalTime p) in
  let turnaround := add64 (BurstDuration p) waitingTime' in
  let completion := add64 (add64 (BurstDuration p) (ArrivalTime p)) waitingTime' in
  let serviceTime' := add64 (serviceTime t) (BurstDuration p) in
  {| serviceTime := serviceTime';
     totalWait := totalWait t + float64_of_int waitingTime';
     totalTurnaround := totalTurnaround t + float64_of_int turnaround;
     lastCompletion := float64_of_int completion;
     waitingTime := waitingTime';
     schedule :=
       <[ i := Some {| rowID := ProcessID p; rowPriority := Priority p;
                       rowBurst := BurstDuration p; rowArrival := ArrivalTime p;
                       rowWait := waitingTime'; rowTurnaround := turnaround;
                       rowExit := completion |} ]> (schedule t);
     gantt := gantt t ++ [ {| PID := ProcessID p; Start := start; Stop := serviceTime' |} ] |}.

(** The averages computed after the loop (lines 126-129). *)
Definition report (n : nat) (t : Tally) : Report :=
  let count := float64_of_int (Z.of_nat n) in
  {| chart := gantt t; table := schedule t;
     aveWait := totalWait t / count;
     aveTurnaround := totalTurnaround t / count;
     aveThroughput := count / lastCompletion t |}.

(** [for i := range processes { ... }], entered at index [i]. *)
Fixpoint serveAll (i : nat) (processes : list Process) (t : Tally) : Tally :=
  match processes with
  | [] => t
  | p :: rest => serveAll (S i) rest (serve i p t)
  end.

(** ** FCFSSchedule (lines 84-134) *)

Definition FCFSSchedule (processes : list Process) : Run :=
  let n := length processes in
  {| printed := report n (serveAll 0 processes (newTally n));
     backing := processes |}.

(** ** SJFSchedule (lines 136-190) *)

Definition SJFSchedule `{SliceSorter} (processes : list Process) : Run :=
  let n := length processes in
  let processes := sortSlice byBurst processes in
  {| printed := report n (serveAll 0 processes (newTally n));
     backing := processes |}.

(** ** SJFPrioritySchedule (lines 192-276) *)

(** The slice being consumed, the boundary [lastExecuted], and the tally. *)
Record PrioState := {
  procs : list Process;
  lastExecuted : nat;
  tally : Tally
}.

(** The scan of lines 214-223, entered at index [i] with [pending] the
    elements [processes[i:]]: it keeps the index of the smallest burst among
    the arrived entries and stops at the first entry that has not arrived.
    [None] is the source's [-1]. *)
Fixpoint findNext (processes : list Process) (now : Z) (i : nat)
    (pending : list Process) (nextProcess : option nat) : option nat :=
  match pending with
  | [] => nextProcess
  | p :: rest =>
      if ArrivalTime p <=? now then
        findNext processes now (S i) rest
          (match nextProcess with
           | None => Some i
           | Some n =>
               if BurstDuration p <? BurstDuration (processes !!! n)
               then Some i else Some n
           end)
      else nextProcess
  end.

Definition nextProcessOf (st : PrioState) : option nat :=
  findNext (procs st) (serviceTime (tally st)) (lastExecuted st)
           (drop (lastExecuted st) (procs st)) None.

Definition setServiceTime (now : Z) (t : Tally) : Tally :=
  {| serviceTime := now; totalWait := totalWait t;
     totalTurnaround := totalTurnaround t; lastCompletion := lastCompletion t;
     waitingTime := waitingTime t; schedule := schedule t; gantt := gantt t |}.

(** One turn of the loop of line 212 (its body, lines 213-265). *)
Definition prioStep (st : PrioState) : PrioState :=
  match nextProcessOf st with
  | None =>
      {| procs := procs st; lastExecuted := lastExecuted st;
         tally := setServiceTime (ArrivalTime (procs st !!! lastExecuted st)) (tally st) |}
  | Some nextProcess =>
      let p := procs st !!! nextProcess in
      {| procs := <[ nextProcess := procs st !!! lastExecuted st ]> (procs st);
         lastExecuted := S (lastExecuted st);
         tally := serve nextProcess p (tally st) |}
  end.

(** [for len(processes) > lastExecuted { ... }]. *)
Fixpoint prioLoop (fuel : nat) (st : PrioState) : option PrioState :=
  if (lastExecuted st <? length (procs st))%nat then
    match fuel with
    | O => None
    | S fuel' => prioLoop fuel' (prioStep st)
    end
  else Some st.

Definition prioInit (processes : list Process) : PrioState :=
  {| procs := processes; lastExecuted := 0%nat;
     tally := newTally (length processes) |}.

(** Lines 192-271: the schedule the policy computes, before it prints it
    (the prints of lines 273-275 are [printChart] and outputSchedule).
    The loop takes at most two turns per process (an idle skip is followed
    by a dispatch), which is the fuel it is given; [None] would mean the
    bound was wrong, and [SJFPrioritySchedule_returns] shows it is not. *)
Definition SJFPrioritySchedule `{SliceSorter} (processes : list Process) : option Run :=
  let n := length processes in
  let processes := sortSlice byArrival processes in
  match prioLoop (2 * n) (prioInit processes) with
  | None => None
  | Some st => Some {| printed := report n (tally st); backing := procs st |}
  end.

(** ** RRSchedule (lines 278-368) *)

Variant Panic :=
  | QueueIndexOutOfRange      (* queue[0], line 307 *)
  | ProcessesIndexOutOfRange  (* processes[0], line 303 *)
  | ScheduleIndexOutOfRange   (* schedule[process.ProcessID-1], line 348 *)
  | GanttIndexOutOfRange.     (* gantt[len(gantt)-1], line 363 *)

Variant Outcome (A : Type) :=
  | Returned (a : A)
  | Panicked (e : Panic)
  | OutOfFuel.
Arguments Returned {A} a.
Arguments Panicked {A} e.
Arguments OutOfFuel {A}.

Definition andThen {A B} (o : Outcome A) (k : A -> Outcome B) : Outcome B :=
  match o with
  | Returned a => k a
  | Panicked e => Panicked e
  | OutOfFuel => OutOfFuel
  end.

#[global] Instance Outcome_bind : MBind Outcome := fun A B k o => andThen o k.

Module RR.

(** The variables of lines 279-286 together with the shrinking slice
    [processes]. *)
Record State := {
  currentTime : Z;
  totalWait : float;
  totalTurnaround : float;
  queue : list Process;
  processes : list Process;
  schedule : list (option Row);
  gantt : list TimeSlice
}.

(** The variables of lines 311-316 that change during a dispatch. *)
Record Slot := {
  completion : Z;
  burstLeft : Z;
  timeElapsed : Z
}.

End RR.

(** Lines 296-299 and 335-338: move the arrived head of [processes] to the
    back of the queue, one process at a time. *)
Fixpoint admit_arrivals (now : Z) (processes queue : list Process)
    : list Process * list Process :=
  match processes with
  | p :: rest =>
      if ArrivalTime p <=? now then admit_arrivals now rest (queue ++ [p])
      else (processes, queue)
  | [] => (processes, queue)
  end.

Definition admitInto (st : RR.State) : RR.State :=
  let '(processes, queue) :=
    admit_arrivals (RR.currentTime st) (RR.processes st) (RR.queue st) in
  {| RR.currentTime := RR.currentTime st; RR.totalWait := RR.totalWait st;
     RR.totalTurnaround := RR.totalTurnaround st;
     RR.queue := queue; RR.processes := processes;
     RR.schedule := RR.schedule st; RR.gantt := RR.gantt st |}.

(** [math.Min(x, y)] of the Go standard library, by its documented cases:
    -Inf when an argument is -Inf, NaN when an argument is NaN, -0 for two
    zeros one of which is negative, and otherwise the smaller argument. *)
Definition math_Min (x y : float) : float :=
  if (x =? neg_infinity)%float || (y =? neg_infinity)%float then neg_infinity
  else if is_nan x || is_nan y then nan
  else if is_zero x && is_zero y then (if get_sign x then x else y)
  else if (x <? y)%float then x else y.

(** [int64(f)]: the fraction is discarded.  For a NaN, an infinity or a
    value outside [int64] the Go specification leaves the result to the
    implementation; amd64 gives the smallest [int64]. *)
Definition int64_of_float (f : float) : Z :=
  match Prim2SF f with
  | S754_zero _ => 0
  | S754_finite sign m e =>
      let magnitude :=
        if 0 <=? e then Z.pos m * 2 ^ e else Z.pos m / 2 ^ (- e) in
      let value := if sign then - magnitude else magnitude in
      if (int64_min <=? value) && (value <=? int64_max) then value
      else int64_min
  | S754_infinity _ | S754_nan => int64_min
  end.

(** [for burstLeft > 0 { ... }], lines 317-339. *)
Fixpoint runSlices (fuel : nat) (timeSlice : float) (process : Process) (start : Z)
    (slot : RR.Slot) (st : RR.State) : option (RR.Slot * RR.State) :=
  if 0 <? RR.burstLeft slot then
    match fuel with
    | O => None
    | S fuel' =>
        let timeSpent := math_Min (float64_of_int (RR.burstLeft slot)) timeSlice in
        let completion :=
          int64_of_float (float64_of_int (RR.currentTime st) + timeSpent) in
        let slot' :=
          {| RR.completion := completion;
             RR.burstLeft := sub64 (RR.burstLeft slot) (int64_of_float timeSpent);
             RR.timeElapsed := add64 (RR.timeElapsed slot) (int64_of_float timeSpent) |} in
        let st' :=
          admitInto
            {| RR.currentTime := completion; RR.totalWait := RR.totalWait st;
               RR.totalTurnaround := RR.totalTurnaround st;
               RR.queue := RR.queue st; RR.processes := RR.processes st;
               RR.schedule := RR.schedule st;
               RR.gantt := RR.gantt st ++
                 [ {| PID := ProcessID process; Start := start; Stop := completion |} ] |} in
        runSlices fuel' timeSlice process start slot' st'
    end
  else Some (slot, st).

(** Lines 341-356: the row of a finished process, stored at index
    [ProcessID - 1]. *)
Definition recordRow (process : Process) (slot : RR.Slot) (st : RR.State)
    : Outcome RR.State :=
  let waitingTime :=
    sub64 (sub64 (RR.currentTime st) (ArrivalTime process)) (BurstDuration process) in
  let turnaround :=
    add64 (add64 waitingTime (BurstDuration process)) (RR.timeElapsed slot) in
  let index := sub64 (ProcessID process) 1 in
  if (0 <=? index) && (index <? Z.of_nat (length (RR.schedule st))) then
    Returned
      {| RR.currentTime := RR.currentTime st;
         RR.totalWait := RR.totalWait st + float64_of_int waitingTime;
         RR.totalTurnaround := RR.totalTurnaround st + float64_of_int turnaround;
         RR.queue := RR.queue st; RR.processes := RR.processes st;
         RR.schedule :=
           <[ Z.to_nat index :=
                Some {| rowID := ProcessID process; rowPriority := Priority process;
                        rowBurst := BurstDuration process;
                        rowArrival := ArrivalTime process;
                        rowWait := waitingTime; rowTurnaround := turnaround;
                        rowExit := RR.completion slot |} ]> (RR.schedule st);
         RR.gantt := RR.gantt st |}
  else Panicked ScheduleIndexOutOfRange.

Definition setCurrentTime (now : Z) (st : RR.State) : RR.State :=
  {| RR.currentTime := now; RR.totalWait := RR.totalWait st;
     RR.totalTurnaround := RR.totalTurnaround st;
     RR.queue := RR.queue st; RR.processes := RR.processes st;
     RR.schedule := RR.schedule st; RR.gantt := RR.gantt st |}.

Definition setQueue (queue : list Process) (st : RR.State) : RR.State :=
  {| RR.currentTime := RR.currentTime st; RR.totalWait := RR.totalWait st;
     RR.totalTurnaround := RR.totalTurnaround st;
     RR.queue := queue; RR.processes := RR.processes st;
     RR.schedule := RR.schedule st; RR.gantt := RR.gantt st |}.

(** Lines 301-304. *)
Definition skipIdle (st : RR.State) : Outcome RR.State :=
  match RR.queue st with
  | [] =>
      match RR.processes st with
      | p :: _ => Returned (setCurrentTime (ArrivalTime p) st)
      | [] => Panicked ProcessesIndexOutOfRange
      end
  | _ :: _ => Returned st
  end.

(** One turn of the loop of line 294 (its body, lines 295-356). *)
Definition rrTurn (fuel : nat) (timeSlice : float) (st : RR.State) : Outcome RR.State :=
  st1 ← skipIdle (admitInto st);
  match RR.queue st1 with
  | [] => Panicked QueueIndexOutOfRange
  | process :: queue' =>
      let start := RR.currentTime st1 in
      let slot :=
        {| RR.completion := 0; RR.burstLeft := BurstDuration process;
           RR.timeElapsed := 0 |} in
      match runSlices fuel timeSlice process start slot (setQueue queue' st1) with
      | None => OutOfFuel
      | Some (slot', st2) => recordRow process slot' st2
      end
  end.

(** [for len(queue) > 0 || len(processes) > 0 { ... }]. *)
Fixpoint rrLoop (fuel : nat) (timeSlice : float) (st : RR.State) : Outcome RR.State :=
  match RR.queue st, RR.processes st with
  | [], [] => Returned st
  | _, _ =>
      match fuel with
      | O => OutOfFuel
      | S fuel' => st' ← rrTurn fuel' timeSlice st; rrLoop fuel' timeSlice st'
      end
  end.

Definition rrInit (n : nat) (processes : list Process) : RR.State :=
  {| RR.currentTime := 0; RR.totalWait := 0; RR.totalTurnaround := 0;
     RR.queue := []; RR.processes := processes;
     RR.schedule := replicate n None; RR.gantt := [] |}.

(** Lines 359-363. *)
Definition rrReport (st : RR.State) : Outcome Report :=
  let count := float64_of_int (Z.of_nat (length (RR.schedule st))) in
  match last (RR.gantt st) with
  | None => Panicked GanttIndexOutOfRange
  | Some final =>
      Returned
        {| chart := RR.gantt st; table := RR.schedule st;
           aveWait := RR.totalWait st / count;
           aveTurnaround := RR.totalTurnaround st / count;
           aveThroughput := count / float64_of_int (Stop final) |}
  end.

(** [fuel] bounds the turns of the outer loop and, within a turn, the
    slices of the inner one. *)
Definition RRSchedule `{SliceSorter} (fuel : nat) (processes : list Process)
    (timeSlice : float) : Outcome Run :=
  let n := length processes in
  let processes := sortSlice byArrival processes in
  st ← rrLoop fuel timeSlice (rrInit n processes);
  r ← rrReport st;
  Returned {| printed := r; backing := processes |}.

(** ** main (lines 32-43) *)

(** The four calls receive the same slice [processes]: each sees the
    backing array as the call before it left it. *)
Definition main `{SliceSorter} (fuel : nat) (processes : list Process)
    : Outcome (list Report) :=
  let fcfs := FCFSSchedule processes in
  let sjf := SJFSchedule (backing fcfs) in
  match SJFPrioritySchedule (backing sjf) with
  | None => OutOfFuel
  | Some prio =>
      rr ← RRSchedule fuel (backing prio) 1;
      Returned [printed fcfs; printed sjf; printed prio; printed rr]
  end.

(** The slice [RRSchedule] is called on when [main] runs on [processes]. *)
Definition sliceGivenToRR `{SliceSorter} (processes : list Process)
    : option (list Process) :=
  backing <$> SJFPrioritySchedule (backing (SJFSchedule (backing (FCFSSchedule processes)))).

(** ** Text: fmt, strings and strconv *)

(** Go strings are byte sequences; [len] is [String.length]. *)
Definition newline : string := String "010"%char "".
Definition tab : string := String "009"%char "".

(** [fmt.Sprint(x)] for an [int64]: the decimal digits of [x], after a
    minus sign when [x] is negative. *)
Definition fmt_Sprint (x : Z) : string := pretty x.

Fixpoint repeated (s : string) (count : nat) : string :=
  match count with
  | O => ""
  | S n => s +:+ repeated s n
  end.

(** [strings.Repeat(s, count)]; it panics when [count] is negative. *)
Definition strings_Repeat (s : string) (count : Z) : option string :=
  if count <? 0 then None else Some (repeated s (Z.to_nat count)).

Definition digit (c : ascii) : option Z := Z.of_nat <$> Ascii.is_nat c.

(** The number written by the decimal digits [s], continuing [n]. *)
Fixpoint decimal (s : string) (n : Z) : option Z :=
  match s with
  | "" => Some n
  | String c rest => d ← digit c; decimal rest (10 * n + d)
  end.

(** [strconv.ParseInt(s, 10, 64)] of the Go standard library, by its
    documented cases: an optional sign, then one decimal digit or more and
    nothing else (no space, no underscore), for a number that [int64]
    holds.  [None] stands for a returned error. *)
Definition strconv_ParseInt (s : string) : option Z :=
  match s with
  | "" => None
  | String c rest =>
      let neg := bool_decide (c = "-"%char) in
      let digits :=
        if bool_decide (c = "+"%char) || neg then rest else s in
      match digits with
      | "" => None
      | _ =>
          un ← decimal digits 0;
          let i := if neg then - un else un in
          if (int64_min <=? i) && (i <=? int64_max) then Some i else None
      end
  end.

(** ** Loading processes (lines 415-442) *)

(** How a call made while loading ends: it returns, or the program stops in
    [os.Exit], or an index expression panics. *)
Variant Loading (A : Type) :=
  | Got (a : A)
  | OsExit (status : Z)       (* os.Exit(1), line 438 *)
  | FieldIndexOutOfRange.     (* rows[i][k], lines 423-427 *)
Arguments Got {A} a.
Arguments OsExit {A} status.
Arguments FieldIndexOutOfRange {A}.

#[global] Instance Loading_bind : MBind Loading := fun A B k o =>
  match o with
  | Got a => k a
  | OsExit status => OsExit status
  | FieldIndexOutOfRange => FieldIndexOutOfRange
  end.

(** Lines 434-442; the message of the error goes to the standard error
    stream. *)
Definition mustStrToInt (s : string) : Loading Z :=
  match strconv_ParseInt s with
  | Some i => Got i
  | None => OsExit 1
  end.

(** [rows[i][k]]. *)
Definition field (row : list string) (k : nat) : Loading string :=
  match row !! k with
  | Some s => Got s
  | None => FieldIndexOutOfRange
  end.

(** The body of the loop of line 422, for the record [row]. *)
Definition loadRow (row : list string) : Loading Process :=
  id ← field row 0 ≫= mustStrToInt;
  burst ← field row 1 ≫= mustStrToInt;
  arrival ← field row 2 ≫= mustStrToInt;
  priority ← (if decide (length row = 4%nat) then field row 3 ≫= mustStrToInt
              else Got 0);
  Got {| ProcessID := id; ArrivalTime := arrival; BurstDuration := burst;
         Priority := priority |}.

Fixpoint loadRows (rows : list (list string)) : Loading (list Process) :=
  match rows with
  | [] => Got []
  | row :: rest => p ← loadRow row; ps ← loadRows rest; Got (p :: ps)
  end.

(** [read] is what [csv.NewReader(r).ReadAll()] returned: [None] for an
    error, otherwise the records.  The result is [None] when loadProcesses
    returns that error (wrapped), otherwise the processes. *)
Definition loadProcesses (read : option (list (list string)))
    : Loading (option (list Process)) :=
  match read with
  | None => Got None
  | Some rows => ps ← loadRows rows; Got (Some ps)
  end.

(** ** Output helpers (lines 374-396) *)

(** The text handed to the writer so far, and whether the helper returned
    or panicked in [strings.Repeat].  The source discards the errors of the
    writer ([_, _ =]). *)
Variant Printing :=
  | Written (w : string)
  | RepeatCountNegative (w : string).

Definition thenPrint (p : Printing) (k : string -> Printing) : Printing :=
  match p with
  | Written w => k w
  | RepeatCountNegative w => RepeatCountNegative w
  end.

(** [fmt.Fprint] and [fmt.Fprintln] on string operands: [Fprint] puts
    nothing between strings, [Fprintln] puts a space between operands and a
    newline at the end. *)
Definition fmt_Fprint (w : string) (operands : list string) : string :=
  w +:+ String.concat "" operands.

Definition fmt_Fprintln (w : string) (operands : list string) : string :=
  w +:+ String.concat " " operands +:+ newline.

(** [strings.Repeat(s, count)] followed by the rest of the helper. *)
Definition repeatThen (w : string) (s : string) (count : Z)
    (k : string -> Printing) : Printing :=
  match strings_Repeat s count with
  | Some r => k r
  | None => RepeatCountNegative w
  end.

(** Lines 374-378.  [len(title)/2] is Go's division, which truncates. *)
Definition outputTitle (w : string) (title : string) : Printing :=
  let n := Z.of_nat (String.length title) in
  repeatThen w "-" (n * 2) (fun rule =>
    let w := fmt_Fprintln w [rule] in
    repeatThen w " " (n ÷ 2) (fun indent =>
      let w := fmt_Fprintln w [indent; title] in
      repeatThen w "-" (n * 2) (fun rule =>
        Written (fmt_Fprintln w [rule])))).

(** The loop of lines 383-387. *)
Fixpoint ganttCells (gantt : list TimeSlice) (w : string) : Printing :=
  match gantt with
  | [] => Written w
  | s :: rest =>
      let pid := fmt_Sprint (PID s) in
      repeatThen w " " ((8 - Z.of_nat (String.length pid)) ÷ 2) (fun padding =>
        ganttCells rest (fmt_Fprint w [padding; pid; padding; "|"]))
  end.

(** The loop of lines 389-394, entered at index [i]; [n] is [len(gantt)]. *)
Fixpoint ganttTimes (n : nat) (i : nat) (gantt : list TimeSlice) (w : string)
    : string :=
  match gantt with
  | [] => w
  | s :: rest =>
      let w := fmt_Fprint w [fmt_Sprint (Start s); tab] in
      let w :=
        if Z.of_nat n - 1 =? Z.of_nat i then fmt_Fprint w [fmt_Sprint (Stop s)]
        else w in
      ganttTimes n (S i) rest w
  end.

(** Lines 380-396. *)
Definition outputGantt (w : string) (gantt : list TimeSlice) : Printing :=
  let w := fmt_Fprintln w ["Gantt schedule"] in
  let w := fmt_Fprint w ["|"] in
  thenPrint (ganttCells gantt w) (fun w =>
    let w := fmt_Fprintln w [] in
    let w := ganttTimes (length gantt) 0 gantt w in
    Written (w +:+ newline +:+ newline)).

(** What a policy has written when it reaches [outputSchedule]
    (lines 131-132, 187-188, 273-274 and 365-366). *)
Definition printChart (w : string) (title : string) (r : Report) : Printing :=
  thenPrint (outputTitle w title) (fun w => outputGantt w (chart r)).

(** * The vocabulary of the properties *)

(** ** What sort.Slice returns when equal keys mean equal processes *)

#[global] Instance Process_eq_dec : EqDecision Process.
Proof. solve_decision. Defined.

Definition keyDecides (key : Process -> Z) (l : list Process) : Prop :=
  Forall (fun x => Forall (fun y => key x = key y -> x = y) l) l.

#[global] Instance keyDecides_dec key l : Decision (keyDecides key l).
Proof. unfold keyDecides. apply _. Defined.

Ltac keys_decide := apply (bool_decide_unpack _); vm_compute; exact I.

(** ** Concrete runs *)

(** A process as a line of the input file gives it:
    ProcessID, BurstDuration, ArrivalTime, Priority. *)
Definition csv (id burst arrival priority : Z) : Process :=
  {| ProcessID := id; ArrivalTime := arrival; BurstDuration := burst;
     Priority := priority |}.

(** ** The shared accounting: what [serve] and [serveAll] do to a tally *)

(** The row [serve] writes for [p]. *)
Definition servedRow (p : Process) (t : Tally) : Row :=
  let waitingTime' :=
    if 0 <? ArrivalTime p then sub64 (serviceTime t) (ArrivalTime p)
    else waitingTime t in
  {| rowID := ProcessID p; rowPriority := Priority p;
     rowBurst := BurstDuration p; rowArrival := ArrivalTime p;
     rowWait := waitingTime';
     rowTurnaround := add64 (BurstDuration p) waitingTime';
     rowExit := add64 (add64 (BurstDuration p) (ArrivalTime p)) waitingTime' |}.

(** The interval [serve] appends for [p]. *)
Definition servedSlice (p : Process) (t : Tally) : TimeSlice :=
  {| PID := ProcessID p;
     Start := add64 (rowWait (servedRow p t)) (ArrivalTime p);
     Stop := add64 (serviceTime t) (BurstDuration p) |}.

(** ** Empty input *)

Definition zeroSummary (r : Report) : Prop :=
  aveWait r = 0%float /\ aveTurnaround r = 0%float /\ aveThroughput r = 0%float.

Definition nanSummary (r : Report) : Prop :=
  is_nan (aveWait r) = true /\ is_nan (aveTurnaround r) = true /\
  is_nan (aveThroughput r) = true.

Definition nothingScheduled (r : Report) : Prop := chart r = [] /\ table r = [].

(** ** The order of service *)

(** The process ids in the order of the intervals of the chart. *)
Definition serviceOrder (r : Report) : list Z := PID <$> chart r.

(** ** The latched waiting time of FCFSSchedule and SJFSchedule *)

(** The service time when the process at position [i] of the service order
    [order] is reached: the bursts before it, added up as the loop does. *)
Definition serviceBefore (order : list Process) (i : nat) : Z :=
  foldl add64 0 (BurstDuration <$> take i order).

(** The waiting time in force when position [i] is reached: 0 at the first
    position, otherwise the waiting time of the row written just before. *)
Definition carriedWait (rows : list (option Row)) (i : nat) : option Z :=
  match i with
  | O => Some 0
  | S j => rowWait <$> (rows !! j ≫= id)
  end.

(** Position by position: the row of the process served at [i] is at index
    [i]; its waiting time is [serviceTime - arrivalTime] when the arrival
    time is positive, and the carried value otherwise. *)
Definition latched (order : list Process) (rows : list (option Row)) : Prop :=
  forall i p, order !! i = Some p ->
    exists r, rows !! i = Some (Some r) /\ rowID r = ProcessID p /\
      Some (rowWait r) =
        if 0 <? ArrivalTime p
        then Some (sub64 (serviceBefore order i) (ArrivalTime p))
        else carriedWait rows i.

(** ** Rows: turnaround and completion *)

(** The two identities of a result row, in the 64-bit arithmetic the rows
    are computed in. *)
Definition rowConsistent (r : Row) : Prop :=
  rowTurnaround r = add64 (rowWait r) (rowBurst r) /\
  rowExit r = add64 (add64 (rowArrival r) (rowWait r)) (rowBurst r).

Definition rowsConsistent (rows : list (option Row)) : Prop :=
  forall i r, rows !! i = Some (Some r) -> rowConsistent r.

(** ** Waiting times below zero *)

Definition waitsNonNegative (rows : list (option Row)) : Prop :=
  forall i r, rows !! i = Some (Some r) -> 0 <= rowWait r.

(** The total burst and the latest arrival of a list of processes. *)
Definition load (l : list Process) : Z := foldr Z.add 0 (BurstDuration <$> l).
Definition latest (l : list Process) : Z := foldr Z.max 0 (ArrivalTime <$> l).
Arguments load : simpl never.
Arguments latest : simpl never.

(** A process list as the data model has it (arrival >= 0, burst > 0) whose
    simulated times stay inside [int64]. *)
Definition wellFormed (l : list Process) : Prop :=
  Forall (fun p => 0 <= ArrivalTime p /\ 0 < BurstDuration p) l /\
  latest l + load l <= int64_max.

#[global] Instance wellFormed_dec l : Decision (wellFormed l).
Proof. unfold wellFormed. apply _. Defined.

(** ** SJFPrioritySchedule: the scan *)

(** [n] is the first index of smallest burst among the indices [k .. e-1]. *)
Definition firstShortest (processes : list Process) (k e n : nat) : Prop :=
  (k <= n < e)%nat /\
  forall m, (k <= m < e)%nat ->
    BurstDuration (processes !!! n) <= BurstDuration (processes !!! m) /\
    ((m < n)%nat -> BurstDuration (processes !!! n) < BurstDuration (processes !!! m)).

(** The indices [k .. e-1] hold arrived processes and the scan stopped at
    [e]: the end of the slice or a process that has not arrived. *)
Definition arrivedRun (processes : list Process) (now : Z) (k e : nat) : Prop :=
  (e <= length processes)%nat /\
  (forall m, (k <= m < e)%nat -> ArrivalTime (processes !!! m) <= now) /\
  (forall p, processes !! e = Some p -> now < ArrivalTime p).

(** ** SJFPrioritySchedule returns *)

(** Turns still needed: two per pending process, one fewer when the first
    pending process has arrived. *)
Definition turnsLeft (st : PrioState) : nat :=
  if (lastExecuted st <? length (procs st))%nat then
    2 * (length (procs st) - lastExecuted st)
    - (if ArrivalTime (procs st !!! lastExecuted st) <=? serviceTime (tally st)
       then 1 else 0)
  else 0.

(** ** SJFPrioritySchedule: what holds at every turn *)

Record PrioInv (ps : list Process) (st : PrioState) : Prop := {
  inv_boundary : (lastExecuted st <= length (procs st))%nat;
  inv_table : length (schedule (tally st)) = length (procs st);
  inv_members : Forall (fun p => p ∈ ps) (drop (lastExecuted st) (procs st));
  inv_shape : forall i j p q, (lastExecuted st <= i < j)%nat ->
    procs st !! i = Some p -> procs st !! j = Some q ->
    ArrivalTime p <= ArrivalTime q \/ ArrivalTime p <= serviceTime (tally st);
  inv_clock : 0 <= serviceTime (tally st);
  inv_budget :
    serviceTime (tally st) + load (drop (lastExecuted st) (procs st))
    <= latest ps + load ps;
  inv_load : load (drop (lastExecuted st) (procs st)) <= load ps;
  inv_wait : 0 <= waitingTime (tally st);
  inv_rows : waitsNonNegative (schedule (tally st))
}.

(** ** SJFPrioritySchedule: the decision rule *)

(** The turns of the loop of line 212 from the state [st] on:
    [turnsFrom st points final] lists in [points] the states in which the
    loop stands at the start of each of its turns (its decision points) and
    gives in [final] the state in which its condition
    [len(processes) > lastExecuted] fails. *)
Inductive turnsFrom : PrioState -> list PrioState -> PrioState -> Prop :=
  | turns_done st :
      (length (procs st) <= lastExecuted st)%nat ->
      turnsFrom st [] st
  | turns_step st points final :
      (lastExecuted st < length (procs st))%nat ->
      turnsFrom (prioStep st) points final ->
      turnsFrom st (st :: points) final.

(** The process at index [m] has not been executed yet. *)
Definition pendingAt (st : PrioState) (m : nat) (q : Process) : Prop :=
  (lastExecuted st <= m)%nat /\ procs st !! m = Some q.

Definition eligible (st : PrioState) (q : Process) : Prop :=
  ArrivalTime q <= serviceTime (tally st).

(** The not-yet-executed part of the slice. *)
Definition pending (st : PrioState) : list Process :=
  drop (lastExecuted st) (procs st).

(** What one turn taken in state [st] does. *)
Definition decisionRule (st : PrioState) : Prop :=
  let st' := prioStep st in
  (* some pending process has arrived: the first one of smallest burst among
     the arrived pending processes is selected and run to completion *)
  ((exists m q, pendingAt st m q /\ eligible st q) ->
   exists n p,
     nextProcessOf st = Some n /\ pendingAt st n p /\ eligible st p /\
     (forall m q, pendingAt st m q -> eligible st q ->
        BurstDuration p <= BurstDuration q /\
        ((m < n)%nat -> BurstDuration p < BurstDuration q)) /\
     (exists start,
        gantt (tally st') = gantt (tally st) ++
          [ {| PID := ProcessID p; Start := start;
               Stop := serviceTime (tally st) + BurstDuration p |} ]) /\
     serviceTime (tally st') = serviceTime (tally st) + BurstDuration p /\
     Permutation (p :: pending st') (pending st)) /\
  (* no pending process has arrived: the clock moves to the earliest arrival
     among the pending processes, and nothing is emitted *)
  ((forall m q, pendingAt st m q -> ~ eligible st q) ->
   nextProcessOf st = None /\
   gantt (tally st') = gantt (tally st) /\
   pending st' = pending st /\
   (exists m q, pendingAt st m q /\ serviceTime (tally st') = ArrivalTime q) /\
   (forall m q, pendingAt st m q -> serviceTime (tally st') <= ArrivalTime q)) /\
  (* hence no selected process is beaten on both arrival and burst by an
     arrived pending process *)
  (forall n p, nextProcessOf st = Some n -> procs st !! n = Some p ->
     ~ exists m q, pendingAt st m q /\ eligible st q /\
         ArrivalTime q < ArrivalTime p /\ BurstDuration q < BurstDuration p).

(** A list on which one turn has to choose by burst among three arrived
    processes, two of them of equal burst, and on which the processor is
    idle from 15 to 30. *)
Definition busyThenIdle : list Process :=
  [csv 1 5 0 1; csv 2 4 1 1; csv 3 3 2 2; csv 4 3 3 3; csv 5 1 30 1].

(** A list of the data model whose first burst takes the service time to
    the largest [int64]; the burst served next wraps it. *)
Definition wrappingBurst : list Process :=
  [csv 1 (2 ^ 63 - 1) 0 1; csv 2 5 1 1; csv 3 7 2 1; csv 4 1 3 1].

(** ** RRSchedule: the structure of a turn *)

(** The processes not dispatched yet: the ready queue, then the slice. *)
Definition waiting (st : RR.State) : list Process := RR.queue st ++ RR.processes st.

(** ** RRSchedule: rows are stored by process id *)

Definition denseIds (ps : list Process) : Prop :=
  Permutation (ProcessID <$> ps) (Z.of_nat <$> seq 1 (length ps)).

Definition idsFit (n : nat) (l : list Process) : Prop :=
  Forall (fun p => 1 <= ProcessID p <= Z.of_nat n) l.

(** The row at index [i] is the row of process id [i + 1]. *)
Definition rowsByIndex (rows : list (option Row)) : Prop :=
  forall i r, rows !! i = Some (Some r) -> rowID r = Z.of_nat i + 1.

Definition hasRow (rows : list (option Row)) (p : Process) : Prop :=
  exists r, rows !! Z.to_nat (ProcessID p - 1) = Some (Some r) /\ rowID r = ProcessID p.

Record RowsInv (ps : list Process) (st : RR.State) : Prop := {
  rows_length : length (RR.schedule st) = length ps;
  rows_fit : idsFit (length ps) (waiting st);
  rows_index : rowsByIndex (RR.schedule st);
  rows_stored : forall p, p ∈ ps -> p ∈ waiting st \/ hasRow (RR.schedule st) p
}.

(** The row [recordRow] stores. *)
Definition recordedRow (process : Process) (slot : RR.Slot) (st : RR.State) : Row :=
  let waitingTime :=
    sub64 (sub64 (RR.currentTime st) (ArrivalTime process)) (BurstDuration process) in
  {| rowID := ProcessID process; rowPriority := Priority process;
     rowBurst := BurstDuration process; rowArrival := ArrivalTime process;
     rowWait := waitingTime;
     rowTurnaround :=
       add64 (add64 waitingTime (BurstDuration process)) (RR.timeElapsed slot);
     rowExit := RR.completion slot |}.

(** Every process of [ps] has its row at index [ProcessID - 1]. *)
Definition everyRowStored (ps : list Process) (rows : list (option Row)) : Prop :=
  forall p, p ∈ ps -> hasRow rows p.

(** ** RRSchedule: the clock *)

(** [int64(timeSpent)] and [int64(float64(currentTime) + timeSpent)] of
    lines 319-325, as functions of the remaining burst and the clock. *)
Definition sliceSpent (timeSlice : float) (burstLeft : Z) : Z :=
  int64_of_float (math_Min (float64_of_int burstLeft) timeSlice).

Definition sliceStop (timeSlice : float) (currentTime burstLeft : Z) : Z :=
  int64_of_float
    (float64_of_int currentTime + math_Min (float64_of_int burstLeft) timeSlice).

(** The float arithmetic of a slice is exact for the integral quantum [q]
    on times up to [bound]: it computes [min(burstLeft, q)] and adds it to
    the clock.  float64 represents every integer of magnitude up to 2^53,
    so this is what an integral [timeSlice] gives on such times; for given
    [timeSlice], [q] and [bound] it is checked by evaluation
    ([quantumExact_checked]). *)
Definition quantumExact (timeSlice : float) (q bound : Z) : Prop :=
  forall b ct, 0 < b -> 0 <= ct -> ct + b <= bound ->
    sliceSpent timeSlice b = Z.min b q /\
    sliceStop timeSlice ct b = ct + Z.min b q.

Definition quantumExactOn (timeSlice : float) (q bound : Z) : Prop :=
  Forall (fun b =>
    Forall (fun ct =>
      sliceSpent timeSlice b = Z.min b q /\
      sliceStop timeSlice ct b = ct + Z.min b q) (seqZ 0 bound))
    (seqZ 1 bound).

#[global] Instance quantumExactOn_dec timeSlice q bound :
  Decision (quantumExactOn timeSlice q bound).
Proof. unfold quantumExactOn. apply _. Defined.

Record ClockInv (ps : list Process) (st : RR.State) : Prop := {
  clock_nonneg : 0 <= RR.currentTime st;
  clock_budget : RR.currentTime st + load (waiting st) <= load ps;
  clock_queue : Forall (fun p => ArrivalTime p <= RR.currentTime st) (RR.queue st);
  clock_members : Forall (fun p => p ∈ ps) (waiting st);
  clock_rows : waitsNonNegative (RR.schedule st)
}.

(** ** FCFSSchedule and SJFSchedule: processes that are served after they arrive *)

(** Every process has arrived when its turn comes. *)
Definition arrivedByService (order : list Process) : Prop :=
  forall i p, order !! i = Some p -> ArrivalTime p <= serviceBefore order i.

(** The three processes of the scenario of the specification, re-timed so
    that each has arrived when its turn comes in every policy. *)
Definition steadyArrivals : list Process :=
  [csv 1 1 0 1; csv 2 3 1 2; csv 3 5 2 3].

(** ** Charts: intervals in sequence *)

Definition duration (s : TimeSlice) : Z := Stop s - Start s.

(** The time the intervals of [g] give to process id [pid]. *)
Definition busy (pid : Z) (g : list TimeSlice) : Z :=
  foldr Z.add 0 (duration <$> filter (fun s => PID s = pid) g).

Definition properIntervals (g : list TimeSlice) : Prop :=
  Forall (fun s => Start s < Stop s) g.

Definition nonOverlapping (g : list TimeSlice) : Prop :=
  forall i j a b, i <> j -> g !! i = Some a -> g !! j = Some b ->
    Stop a <= Start b \/ Stop b <= Start a.

Definition startOrdered (g : list TimeSlice) : Prop :=
  forall i j a b, (i < j)%nat -> g !! i = Some a -> g !! j = Some b ->
    Start a <= Start b.

(** The four properties of a chart for the process list [ps]. *)
Definition chartClaim (ps : list Process) (g : list TimeSlice) : Prop :=
  properIntervals g /\ nonOverlapping g /\ startOrdered g /\
  forall p, p ∈ ps -> busy (ProcessID p) g = BurstDuration p.

(** Every interval ends before the next one starts. *)
Definition inSequence (g : list TimeSlice) : Prop :=
  forall i j a b, (i < j)%nat -> g !! i = Some a -> g !! j = Some b ->
    Stop a <= Start b.

(** The interval [s] is the one service of process [p]. *)
Definition charges (s : TimeSlice) (p : Process) : Prop :=
  PID s = ProcessID p /\ duration s = BurstDuration p.

(** The total burst of the processes of [l] whose id is [pid]. *)
Definition demand (pid : Z) (l : list Process) : Z :=
  foldr Z.add 0 (BurstDuration <$> filter (fun p => ProcessID p = pid) l).

(** ** Charts of the shared accounting *)

(** Process [p] is served from the service time on: either its waiting
    time is recomputed, or the carried waiting time happens to fit. *)
Definition onTime (p : Process) (t : Tally) : Prop :=
  0 < ArrivalTime p \/ add64 (waitingTime t) (ArrivalTime p) = serviceTime t.

(** The chart of [t] holds one interval per process of [served], in order
    and in sequence, and nothing reaches past the service time. *)
Record ChartInv (served : list Process) (t : Tally) : Prop := {
  chart_charges : Forall2 charges (gantt t) served;
  chart_proper : properIntervals (gantt t);
  chart_sequence : inSequence (gantt t);
  chart_past : Forall (fun s => Stop s <= serviceTime t) (gantt t);
  chart_clock : 0 <= serviceTime t
}.

(** Every process after the first one served arrives after time 0. *)
Definition laterArrivalsPositive (order : list Process) : Prop :=
  Forall (fun p => 0 < ArrivalTime p) (tail order).

(** ** The chart of SJFPrioritySchedule *)

Definition atMostOneAtZero (ps : list Process) : Prop :=
  (length (filter (fun p => ArrivalTime p = 0%Z) ps) <= 1)%nat.

#[global] Instance atMostOneAtZero_dec ps : Decision (atMostOneAtZero ps).
Proof. unfold atMostOneAtZero. apply _. Defined.

Record PrioChart (ps : list Process) (st : PrioState) : Prop := {
  pc_served :
    exists served,
      Permutation (served ++ pending st) ps /\ ChartInv served (tally st);
  pc_positive :
    Forall (fun p => 0 < ArrivalTime p) (pending st) \/
    (serviceTime (tally st) = 0 /\ waitingTime (tally st) = 0 /\
     laterArrivalsPositive (pending st))
}.

(** ** Further properties of the policies *)

(** One column of a table. *)
Definition column (f : Row -> Z) (rows : list (option Row)) : list (option Z) :=
  (fun o : option Row => f <$> o) <$> rows.

(** ** Loading *)

(** The record of the input file for process [p]:
    ProcessID, Burst Duration, Arrival Time, Priority. *)
Definition line (p : Process) : list string :=
  [fmt_Sprint (ProcessID p); fmt_Sprint (BurstDuration p);
   fmt_Sprint (ArrivalTime p); fmt_Sprint (Priority p)].

Definition fieldsInRange (p : Process) : Prop :=
  in_int64 (ProcessID p) /\ in_int64 (BurstDuration p) /\
  in_int64 (ArrivalTime p) /\ in_int64 (Priority p).

(** The string [s] is read as a number by [mustStrToInt]. *)
Definition numeric (s : string) : Prop := is_Some (strconv_ParseInt s).

(** A record loadProcesses gets through: at least three fields, the first
    three numeric, and the fourth one too when there are exactly four. *)
Definition loadable (row : list string) : Prop :=
  exists a b c rest, row = a :: b :: c :: rest /\
    numeric a /\ numeric b /\ numeric c /\
    forall d, rest = [d] -> numeric d.

(** The record lists [csv.NewReader(r).ReadAll()] returns without an error:
    its FieldsPerRecord is left at 0, so every record has the number of
    fields of the first one, and a record has at least one field. *)
Definition records (n : nat) (rows : list (list string)) : Prop :=
  (0 < n)%nat /\ Forall (fun row => length row = n) rows.

(** ** Printing *)

Definition panicked (p : Printing) : Prop :=
  match p with
  | Written _ => False
  | RepeatCountNegative _ => True
  end.

(** The integers whose decimal form takes ten characters or more. *)
Definition tenCharacters (x : Z) : Prop := x <= - 10 ^ 8 \/ 10 ^ 9 <= x.

Definition hasLongId (ps : list Process) : Prop :=
  Exists (fun p => ProcessID p <= - 10 ^ 8 \/ 10 ^ 9 <= ProcessID p) ps.

(** ** SJFPrioritySchedule: every process is served once *)

(** The pids of the chart so far and the ids still pending make up the ids
    of the input. *)
Definition servedOnce (ps : list Process) (st : PrioState) : Prop :=
  (lastExecuted st <= length (procs st))%nat /\
  Permutation ((PID <$> gantt (tally st)) ++ (ProcessID <$> pending st))
              (ProcessID <$> ps).

(** ** SJFPrioritySchedule: rows that are never written *)

(** The table holds a row at every index below [k] and none from [k] on. *)
Definition rowsBelow (k : nat) (rows : list (option Row)) : Prop :=
  forall i, (i < length rows)%nat ->
    if decide (i < k)%nat then exists r, rows !! i = Some (Some r)
    else rows !! i = Some None.

(** Every turn so far has selected the front of the pending part. *)
Definition servedInOrder (sorted : list Process) (st : PrioState) : Prop :=
  procs st = sorted /\
  PID <$> gantt (tally st) = ProcessID <$> take (lastExecuted st) sorted /\
  rowsBelow (lastExecuted st) (schedule (tally st)).

(** Some turn selected another index: the index it passed over is still
    empty, the chart departs from the order of the slice, and the process
    selected then has been overwritten in the slice. *)
Definition rowSkipped (sorted : list Process) (st : PrioState) : Prop :=
  (exists e, (e < lastExecuted st)%nat /\ schedule (tally st) !! e = Some None) /\
  (exists j pid, (PID <$> gantt (tally st)) !! j = Some pid /\
                 (ProcessID <$> sorted) !! j <> Some pid) /\
  (exists pid, pid ∈ ProcessID <$> sorted /\ pid ∉ ProcessID <$> procs st).

Definition tableTrack (sorted : list Process) (st : PrioState) : Prop :=
  (lastExecuted st <= length (procs st))%nat /\
  length (procs st) = length sorted /\
  length (schedule (tally st)) = length sorted /\
  (servedInOrder sorted st \/ rowSkipped sorted st).

(** ** RRSchedule: dispatch by dispatch *)

(** Every process of [rest] has arrived when its turn comes, for a
    processor that is free at [now] and serves [rest] in order, each
    process to completion. *)
Definition arrivedFrom (now : Z) (rest : list Process) : Prop :=
  forall i p, rest !! i = Some p -> ArrivalTime p <= now + load (take i rest).

(** The row RRSchedule stores for a process dispatched at [start]. *)
Definition dispatchedRow (start : Z) (p : Process) : Row :=
  {| rowID := ProcessID p; rowPriority := Priority p;
     rowBurst := BurstDuration p; rowArrival := ArrivalTime p;
     rowWait := start - ArrivalTime p;
     rowTurnaround := add64 (start - ArrivalTime p + BurstDuration p) (BurstDuration p);
     rowExit := start + BurstDuration p |}.

(** An interval of the process [p] dispatched at [start]. *)
Definition dispatchedSlice (start : Z) (p : Process) (s : TimeSlice) : Prop :=
  PID s = ProcessID p /\ Start s = start /\ start < Stop s <= start + BurstDuration p.

(** The chart [g] serves the processes of a list one after the other from
    time [now] on: for each process a group of intervals that all start
    when the process is dispatched, the last of which stops when its burst
    is over, which is when the next process is dispatched. *)
Inductive servedInTurn : Z -> list Process -> list TimeSlice -> Prop :=
  | served_nil now : servedInTurn now [] []
  | served_cons now p rest group g :
      Forall (dispatchedSlice now p) group ->
      Stop <$> last group = Some (now + BurstDuration p) ->
      servedInTurn (now + BurstDuration p) rest g ->
      servedInTurn now (p :: rest) (group ++ g).

(** The index of the row of [p]. *)
Definition rowIndex (p : Process) : nat := Z.to_nat (ProcessID p - 1).

(** ** RRSchedule: slices of no length *)

(** With the quantum [timeSlice], a slice given at time 0 to a process of
    remaining burst [b] has length 0 and leaves the clock at 0:
    [int64(math.Min(float64(b), timeSlice)) = 0] and
    [int64(float64(0) + math.Min(float64(b), timeSlice)) = 0]. *)
Definition emptySlices (timeSlice : float) (b : Z) : Prop :=
  sliceSpent timeSlice b = 0 /\ sliceStop timeSlice 0 b = 0.

(** ** SJFPrioritySchedule when every process is there from the start *)

(** The processes served so far were served shortest first: the chart
    lists them in non-decreasing burst order, and none of them is longer
    than a pending process. *)
Definition shortestFirst (ps : list Process) (st : PrioState) : Prop :=
  PrioInv ps st /\
  exists served,
    PID <$> gantt (tally st) = ProcessID <$> served /\
    Permutation (served ++ pending st) ps /\
    StronglySorted (fun a b => BurstDuration a <= BurstDuration b) served /\
    Forall (fun a => Forall (fun b => BurstDuration a <= BurstDuration b) (pending st))
           served.

(** * Lemmas and theorems *)

(** ** The insertion sort meets the contract of sort.Slice *)

Lemma insertBefore_perm stop x l : Permutation (insertBefore stop x l) (x :: l).
Proof.
  induction l as [|y l IH]; simpl; [reflexivity|].
  destruct (stop x y); [reflexivity|].
  rewrite IH. apply perm_swap.
Qed.

Lemma insertionSort_perm stop l : Permutation (insertionSort stop l) l.
Proof.
  induction l as [|x l IH]; simpl; [reflexivity|].
  rewrite insertBefore_perm. by constructor.
Qed.

Section InsertionSorted.
Variable key : Process -> Z.
Variable stop : Process -> Process -> bool.
Hypothesis stop_le : forall x y, stop x y = true -> key x <= key y.
Hypothesis pass_ge : forall x y, stop x y = false -> key y <= key x.

Let ordered := StronglySorted (fun a b => key a <= key b).

Lemma insertBefore_sorted x l : ordered l -> ordered (insertBefore stop x l).
Proof.
  induction 1 as [|y l Hl IH Hy]; simpl.
  - repeat constructor.
  - destruct (stop x y) eqn:E.
    + apply stop_le in E. constructor; [by constructor|].
      constructor; [done|]. eapply Forall_impl; [exact Hy|]. simpl. lia.
    + apply pass_ge in E. constructor; [done|].
      rewrite (insertBefore_perm stop x l). by constructor.
Qed.

Lemma insertionSort_sorted l : ordered (insertionSort stop l).
Proof.
  induction l as [|x l IH]; simpl; [constructor|].
  by apply insertBefore_sorted.
Qed.
End InsertionSorted.

Definition stableSorter : SliceSorter.
Proof.
  refine {| sortSlice := stableSort |}.
  - intros. apply insertionSort_perm.
  - intros key l. apply insertionSort_sorted; intros x y E.
    + apply negb_true_iff, Z.ltb_ge in E. lia.
    + apply negb_false_iff, Z.ltb_lt in E. lia.
Defined.

(** ** Wrap-around arithmetic *)

Lemma wrap64_id z : in_int64 z -> wrap64 z = z.
Proof.
  unfold in_int64, int64_min, int64_max, wrap64. intros Hz.
  rewrite Z.mod_small; lia.
Qed.

Lemma wrap64_range z : in_int64 (wrap64 z).
Proof.
  unfold in_int64, int64_min, int64_max, wrap64.
  pose proof (Z.mod_pos_bound (z + 2 ^ 63) (2 ^ 64)). lia.
Qed.

Lemma wrap64_add_l x c : wrap64 (wrap64 x + c) = wrap64 (x + c).
Proof.
  unfold wrap64. f_equal.
  replace ((x + 2 ^ 63) mod 2 ^ 64 - 2 ^ 63 + c + 2 ^ 63)
    with ((x + 2 ^ 63) mod 2 ^ 64 + c) by lia.
  rewrite Zplus_mod_idemp_l. f_equal. lia.
Qed.

Lemma add64_comm a b : add64 a b = add64 b a.
Proof. unfold add64. f_equal. lia. Qed.

Lemma add64_exact a b : in_int64 (a + b) -> add64 a b = a + b.
Proof. apply wrap64_id. Qed.

Lemma sub64_exact a b : in_int64 (a - b) -> sub64 a b = a - b.
Proof. apply wrap64_id. Qed.

(** The start of a slice whose waiting time was just recomputed is the
    service time, whatever wrapped on the way. *)
Lemma add64_sub64_cancel s a : in_int64 s -> add64 (sub64 s a) a = s.
Proof.
  intros Hs. unfold add64, sub64. rewrite wrap64_add_l.
  replace (s - a + a) with s by lia. by apply wrap64_id.
Qed.

(** ** What sort.Slice returns when equal keys mean equal processes *)

Lemma sorted_perm_unique (key : Process -> Z) (l1 l2 : list Process) :
  (forall x y, x ∈ l1 -> y ∈ l1 -> key x = key y -> x = y) ->
  Permutation l1 l2 ->
  StronglySorted (fun a b => key a <= key b) l1 ->
  StronglySorted (fun a b => key a <= key b) l2 ->
  l1 = l2.
Proof.
  revert l2. induction l1 as [|x l1 IH]; intros l2 Hinj Hp H1 H2.
  - by apply Permutation_nil in Hp.
  - destruct l2 as [|y l2].
    { symmetry in Hp. by apply Permutation_nil in Hp. }
    apply StronglySorted_inv in H1 as [H1 Hx1].
    apply StronglySorted_inv in H2 as [H2 Hy2].
    rewrite Forall_forall in Hx1, Hy2.
    assert (y ∈ x :: l1) as Hy by (rewrite Hp; left).
    assert (x ∈ y :: l2) as Hx by (rewrite <- Hp; left).
    assert (x = y) as <-.
    { apply Hinj; [left|done|].
      apply elem_of_cons in Hy as [->|Hy]; [done|].
      apply elem_of_cons in Hx as [->|Hx]; [done|].
      specialize (Hx1 _ Hy). specialize (Hy2 _ Hx). simpl in *. lia. }
    f_equal. apply IH; [|by apply Permutation_cons_inv in Hp|done|done].
    intros a b Ha Hb. apply Hinj; by right.
Qed.

Lemma sortSlice_decided `{SliceSorter} (key : Process -> Z) l :
  keyDecides key l ->
  sortSlice (fun a b => key a <? key b) l = stableSort (fun a b => key a <? key b) l.
Proof.
  intros Hk.
  assert (Permutation (sortSlice (fun a b => key a <? key b) l) l) as Hp
    by apply sortSlice_perm.
  apply (sorted_perm_unique key).
  - intros x y Hx Hy. rewrite Hp in Hx, Hy.
    unfold keyDecides in Hk. rewrite Forall_forall in Hk.
    specialize (Hk x Hx). rewrite Forall_forall in Hk. by apply Hk.
  - rewrite Hp. symmetry. apply insertionSort_perm.
  - apply sortSlice_sorted.
  - apply (@sortSlice_sorted stableSorter).
Qed.

Lemma sortSlice_nil `{SliceSorter} less : sortSlice less [] = [].
Proof. apply Permutation_nil. symmetry. apply sortSlice_perm. Qed.

Lemma sortSlice_length `{SliceSorter} less l : length (sortSlice less l) = length l.
Proof. apply Permutation_length, sortSlice_perm. Qed.

Lemma sortSlice_byArrival_decided `{SliceSorter} l :
  keyDecides ArrivalTime l -> sortSlice byArrival l = stableSort byArrival l.
Proof. apply (sortSlice_decided ArrivalTime). Qed.

Lemma sortSlice_byBurst_decided `{SliceSorter} l :
  keyDecides BurstDuration l -> sortSlice byBurst l = stableSort byBurst l.
Proof. apply (sortSlice_decided BurstDuration). Qed.

(** ** Concrete runs *)

(** C1 (the code departs from the claim): with quantum 1, process 1 (burst 2,
    arrival 0) is dispatched at time 0 and is not preempted after one unit:
    it keeps the processor until it is finished, process 2 (arrived at 1)
    waits until 2, and the second interval emitted for process 1 is [0, 2],
    of duration 2. *)
Theorem RRSchedule_runs_dispatched_process_to_completion `{SliceSorter} :
  exists run,
    RRSchedule 8 [csv 1 2 0 1; csv 2 1 1 1] 1 = Returned run /\
    chart (printed run) =
      [ {| PID := 1; Start := 0; Stop := 1 |};
        {| PID := 1; Start := 0; Stop := 2 |};
        {| PID := 2; Start := 2; Stop := 3 |} ].
Proof.
  unfold RRSchedule.
  rewrite sortSlice_byArrival_decided by keys_decide.
  eexists. split; vm_compute; reflexivity.
Qed.

(** C2 (the code departs from the claim): the row RRSchedule stores for a
    single process of burst 2 arriving at 0 has waiting time 0 and
    turnaround 4, not 0 + 2: line 343 adds the elapsed time to
    waiting + burst. *)
Theorem RRSchedule_turnaround_counts_burst_twice `{SliceSorter} :
  exists run,
    RRSchedule 8 [csv 1 2 0 1] 1 = Returned run /\
    table (printed run) =
      [ Some {| rowID := 1; rowPriority := 1; rowBurst := 2; rowArrival := 0;
                rowWait := 0; rowTurnaround := 4; rowExit := 2 |} ].
Proof.
  unfold RRSchedule.
  rewrite sortSlice_byArrival_decided by keys_decide.
  eexists. split; vm_compute; reflexivity.
Qed.

(** C8 (the code departs from the claim): on the three processes of the
    scenario of the specification, SJFSchedule leaves the caller's slice
    sorted by burst, and SJFPrioritySchedule leaves it with process 2 twice
    and process 3 gone; that is the slice RRSchedule is then called on, so
    the chart it prints inside [main] serves process 2 twice and process 3
    never, unlike the chart it prints for the loaded list. *)
Theorem main_shares_one_slice `{SliceSorter} :
  let loaded := [csv 1 5 0 1; csv 2 3 2 2; csv 3 1 4 3] in
  backing (FCFSSchedule loaded) = loaded /\
  backing (SJFSchedule loaded) = [csv 3 1 4 3; csv 2 3 2 2; csv 1 5 0 1] /\
  sliceGivenToRR loaded = Some [csv 1 5 0 1; csv 2 3 2 2; csv 2 3 2 2] /\
  exists alone reports inMain,
    RRSchedule 20 loaded 1 = Returned alone /\
    main 20 loaded = Returned reports /\
    reports !! 3%nat = Some inMain /\
    PID <$> chart (printed alone) = [1; 1; 1; 1; 1; 2; 2; 2; 3] /\
    PID <$> chart inMain = [1; 1; 1; 1; 1; 2; 2; 2; 2; 2; 2].
Proof.
  intros loaded. split; [reflexivity|].
  assert (SJFSchedule loaded = @SJFSchedule stableSorter loaded) as E2.
  { unfold SJFSchedule, loaded.
    rewrite sortSlice_byBurst_decided by keys_decide. reflexivity. }
  assert (backing (SJFSchedule loaded) = [csv 3 1 4 3; csv 2 3 2 2; csv 1 5 0 1]) as E
    by (rewrite E2; reflexivity).
  assert (SJFPrioritySchedule [csv 3 1 4 3; csv 2 3 2 2; csv 1 5 0 1] =
          @SJFPrioritySchedule stableSorter [csv 3 1 4 3; csv 2 3 2 2; csv 1 5 0 1]) as E3.
  { unfold SJFPrioritySchedule.
    rewrite sortSlice_byArrival_decided by keys_decide. reflexivity. }
  assert (forall l, keyDecides ArrivalTime l ->
            RRSchedule 20 l 1 = @RRSchedule stableSorter 20 l 1) as E4.
  { intros l Hl. unfold RRSchedule.
    by rewrite sortSlice_byArrival_decided. }
  split; [exact E|]. split.
  { unfold sliceGivenToRR.
    change (backing (FCFSSchedule loaded)) with loaded.
    rewrite E, E3. reflexivity. }
  unfold main. change (backing (FCFSSchedule loaded)) with loaded.
  rewrite E, E3, E2.
  destruct (@SJFPrioritySchedule stableSorter _) as [prio|] eqn:E5;
    vm_compute in E5; [|discriminate E5].
  injection E5 as <-. cbn [backing].
  rewrite !E4 by keys_decide.
  eexists _, _, _.
  split; [vm_compute; reflexivity|].
  split; [vm_compute; reflexivity|].
  split; [reflexivity|].
  split; vm_compute; reflexivity.
Qed.

(** ** The shared accounting: what [serve] and [serveAll] do to a tally *)

Lemma schedule_serve i p t :
  schedule (serve i p t) = <[ i := Some (servedRow p t) ]> (schedule t).
Proof. reflexivity. Qed.

Lemma gantt_serve i p t : gantt (serve i p t) = gantt t ++ [servedSlice p t].
Proof. reflexivity. Qed.

Lemma serviceTime_serve i p t :
  serviceTime (serve i p t) = add64 (serviceTime t) (BurstDuration p).
Proof. reflexivity. Qed.

Lemma waitingTime_serve i p t :
  waitingTime (serve i p t) = rowWait (servedRow p t).
Proof. reflexivity. Qed.

Lemma serveAll_app i l1 l2 t :
  serveAll i (l1 ++ l2) t = serveAll (i + length l1) l2 (serveAll i l1 t).
Proof.
  revert i t. induction l1 as [|p l1 IH]; intros i t; simpl.
  - by rewrite Nat.add_0_r.
  - rewrite IH. f_equal. lia.
Qed.

Lemma length_schedule_serveAll l i t :
  length (schedule (serveAll i l t)) = length (schedule t).
Proof.
  revert i t. induction l as [|p l IH]; intros i t; simpl; [done|].
  by rewrite IH, schedule_serve, length_insert.
Qed.

Lemma schedule_serveAll_before l i t j :
  (j < i)%nat -> schedule (serveAll i l t) !! j = schedule t !! j.
Proof.
  revert i t. induction l as [|p l IH]; intros i t Hj; simpl; [done|].
  rewrite IH by lia. rewrite schedule_serve.
  apply list_lookup_insert_ne. lia.
Qed.

(** The row of the [k]-th process served sits at the [k]-th index after the
    entry index, and is the row computed from the tally that the processes
    before it left. *)
Lemma serveAll_row l i t k p :
  l !! k = Some p ->
  (i + length l <= length (schedule t))%nat ->
  schedule (serveAll i l t) !! (i + k)%nat
  = Some (Some (servedRow p (serveAll i (take k l) t))).
Proof.
  revert i t k. induction l as [|p0 l IH]; intros i t k Hk Hlen; [done|].
  simpl in Hlen. destruct k as [|k]; simpl in Hk.
  - injection Hk as ->. simpl. rewrite Nat.add_0_r.
    rewrite schedule_serveAll_before by lia.
    rewrite schedule_serve. apply list_lookup_insert_eq. lia.
  - simpl. replace (i + S k)%nat with (S i + k)%nat by lia.
    apply IH; [done|]. rewrite schedule_serve, length_insert. lia.
Qed.

Lemma serviceTime_serveAll l i t :
  serviceTime (serveAll i l t) = foldl add64 (serviceTime t) (BurstDuration <$> l).
Proof.
  revert i t. induction l as [|p l IH]; intros i t; simpl; [done|].
  by rewrite IH.
Qed.

Lemma gantt_serveAll_PID l i t :
  PID <$> gantt (serveAll i l t) = (PID <$> gantt t) ++ (ProcessID <$> l).
Proof.
  revert i t. induction l as [|p l IH]; intros i t; simpl.
  - by rewrite app_nil_r.
  - rewrite IH, gantt_serve, fmap_app. simpl. by rewrite <- app_assoc.
Qed.

(** ** Empty input *)

Lemma nanSummary_not_zero r : nanSummary r -> ~ zeroSummary r.
Proof.
  intros [Hnan _] [Hzero _]. rewrite Hzero in Hnan. vm_compute in Hnan. discriminate.
Qed.

Lemma FCFSSchedule_empty : 
  nothingScheduled (printed (FCFSSchedule [])) /\ nanSummary (printed (FCFSSchedule [])).
Proof. by vm_compute. Qed.

(** C6, counterexample: the summary FCFSSchedule computes for the empty list
    is not the zero summary; its three statistics are 0/0. *)
Lemma FCFSSchedule_empty_summary_is_not_zero :
  ~ zeroSummary (printed (FCFSSchedule [])).
Proof. apply nanSummary_not_zero, FCFSSchedule_empty. Qed.

(** RRSchedule does not return on the empty list: no interval was emitted
    when line 363 reads the last one. *)
Lemma RRSchedule_empty_panics `{SliceSorter} fuel timeSlice :
  RRSchedule fuel [] timeSlice = Panicked GanttIndexOutOfRange.
Proof.
  unfold RRSchedule. rewrite sortSlice_nil. by destruct fuel.
Qed.

(** C6, amended: on the empty list FCFSSchedule, SJFSchedule and
    SJFPrioritySchedule return, with no interval and no row, and their
    average wait, average turnaround and throughput are 0/0, that is NaN. *)
Theorem empty_input_gives_nan_summary `{SliceSorter} :
  (nothingScheduled (printed (FCFSSchedule [])) /\
   nanSummary (printed (FCFSSchedule []))) /\
  (nothingScheduled (printed (SJFSchedule [])) /\
   nanSummary (printed (SJFSchedule []))) /\
  (exists run, SJFPrioritySchedule [] = Some run /\
     nothingScheduled (printed run) /\ nanSummary (printed run)).
Proof.
  split; [apply FCFSSchedule_empty|]. split.
  - unfold SJFSchedule. rewrite sortSlice_nil. by vm_compute.
  - unfold SJFPrioritySchedule. rewrite sortSlice_nil.
    eexists. split; [reflexivity|]. by vm_compute.
Qed.

(** ** The latched waiting time of FCFSSchedule and SJFSchedule *)

Lemma serveAll_latched (l : list Process) :
  latched l (schedule (serveAll 0 l (newTally (length l)))).
Proof.
  set (t0 := newTally (length l)).
  assert (0 + length l <= length (schedule t0))%nat as Hlen
    by (simpl; rewrite length_replicate; lia).
  intros i p Hi.
  pose proof (serveAll_row l 0%nat t0 i p Hi Hlen) as Hrow. simpl in Hrow.
  eexists. split; [exact Hrow|]. split; [done|].
  unfold servedRow at 1. cbn [rowWait].
  destruct (0 <? ArrivalTime p) eqn:Ha.
  - by rewrite serviceTime_serveAll.
  - destruct i as [|j]; [done|].
    assert (is_Some (l !! j)) as [pj Hj].
    { apply lookup_lt_is_Some. apply lookup_lt_Some in Hi. lia. }
    pose proof (serveAll_row l 0%nat t0 j pj Hj Hlen) as Hrowj. simpl in Hrowj.
    simpl. rewrite Hrowj. simpl.
    rewrite (take_S_r l j pj Hj), serveAll_app. reflexivity.
Qed.

(** C4: in FCFSSchedule (service order: the input) and in SJFSchedule
    (service order: the slice after sort.Slice, which holds the processes
    of the input, each as often as the input has it, and has one row per
    process), the waiting time of a process is recomputed as
    serviceTime - arrivalTime exactly when its arrival time is positive;
    otherwise it is the waiting time of the process served just before it,
    and 0 for the first one.  Hence every process of the input has a row
    with the waiting time so assigned, in both policies. *)
Theorem waiting_time_is_latched `{SliceSorter} (processes : list Process) :
  latched processes (table (printed (FCFSSchedule processes))) /\
  length (table (printed (FCFSSchedule processes))) = length processes /\
  Permutation (backing (SJFSchedule processes)) processes /\
  length (table (printed (SJFSchedule processes))) = length processes /\
  latched (backing (SJFSchedule processes))
          (table (printed (SJFSchedule processes))) /\
  (forall p, p ∈ processes ->
     exists i r,
       backing (SJFSchedule processes) !! i = Some p /\
       table (printed (SJFSchedule processes)) !! i = Some (Some r) /\
       rowID r = ProcessID p /\
       Some (rowWait r) =
         if 0 <? ArrivalTime p
         then Some (sub64 (serviceBefore (backing (SJFSchedule processes)) i)
                          (ArrivalTime p))
         else carriedWait (table (printed (SJFSchedule processes))) i).
Proof.
  assert (latched (backing (SJFSchedule processes))
                  (table (printed (SJFSchedule processes)))) as Hsjf.
  { simpl. rewrite <- (sortSlice_length byBurst processes).
    apply serveAll_latched. }
  split; [apply serveAll_latched|].
  split.
  { simpl. rewrite length_schedule_serveAll. simpl. by rewrite length_replicate. }
  split; [apply sortSlice_perm|].
  split.
  { simpl. rewrite length_schedule_serveAll. simpl. by rewrite length_replicate. }
  split; [exact Hsjf|].
  intros p Hp.
  assert (p ∈ backing (SJFSchedule processes)) as Hin.
  { simpl. by rewrite (sortSlice_perm byBurst processes). }
  apply list_elem_of_lookup in Hin as [i Hi].
  destruct (Hsjf i p Hi) as (r & Hr & Hid & Hw).
  by exists i, r.
Qed.

(** ** Rows: turnaround and completion *)

Lemma add64_rotate a b c : add64 (add64 b a) c = add64 (add64 a c) b.
Proof.
  unfold add64. rewrite !wrap64_add_l. f_equal. lia.
Qed.

Lemma servedRow_consistent p t : rowConsistent (servedRow p t).
Proof.
  split; simpl; [apply add64_comm | apply add64_rotate].
Qed.

Lemma rowsConsistent_replicate n : rowsConsistent (replicate n None).
Proof.
  intros i r Hi. apply lookup_replicate in Hi as [? _]. discriminate.
Qed.

Lemma rowsConsistent_insert rows i r :
  rowsConsistent rows -> rowConsistent r -> rowsConsistent (<[ i := Some r ]> rows).
Proof.
  intros Hrows Hr j r' Hj.
  destruct (decide (i = j)) as [->|Hne].
  - destruct (decide (j < length rows)%nat).
    + rewrite list_lookup_insert_eq in Hj by done. by simplify_eq.
    + rewrite list_insert_ge in Hj by lia. by eapply Hrows.
  - rewrite list_lookup_insert_ne in Hj by done. by eapply Hrows.
Qed.

Lemma rowsConsistent_serve i p t :
  rowsConsistent (schedule t) -> rowsConsistent (schedule (serve i p t)).
Proof.
  intros. rewrite schedule_serve.
  apply rowsConsistent_insert; [done | apply servedRow_consistent].
Qed.

Lemma rowsConsistent_serveAll l i t :
  rowsConsistent (schedule t) -> rowsConsistent (schedule (serveAll i l t)).
Proof.
  revert i t. induction l as [|p l IH]; intros i t Ht; simpl; [done|].
  by apply IH, rowsConsistent_serve.
Qed.

(** ** Waiting times below zero *)


(** ** SJFPrioritySchedule: the scan *)

Lemma drop_cons_inv {A} (l : list A) i x rest :
  drop i l = x :: rest -> l !! i = Some x /\ drop (S i) l = rest.
Proof.
  intros E. split.
  - rewrite <- (Nat.add_0_r i), <- lookup_drop, E. done.
  - replace (S i) with (i + 1)%nat by lia. by rewrite <- drop_drop, E.
Qed.

Lemma findNext_spec processes now k pending :
  forall i acc,
    drop i processes = pending -> (k <= i <= length processes)%nat ->
    (forall m, (k <= m < i)%nat -> ArrivalTime (processes !!! m) <= now) ->
    match acc with
    | None => i = k
    | Some n => firstShortest processes k i n
    end ->
    match findNext processes now i pending acc with
    | None => acc = None /\ forall p, processes !! k = Some p -> now < ArrivalTime p
    | Some n => exists e, (i <= e)%nat /\ firstShortest processes k e n /\
                          arrivedRun processes now k e
    end.
Proof.
  induction pending as [|p rest IH]; intros i acc Hdrop Hi Harr Hacc; simpl.
  - assert (length processes <= i)%nat as Hlen.
    { apply (f_equal length) in Hdrop. rewrite length_drop in Hdrop. simpl in Hdrop. lia. }
    destruct acc as [n|].
    + exists i. split; [done|]. split; [done|].
      split; [lia|]. split; [done|].
      intros q Hq. apply lookup_lt_Some in Hq. lia.
    + split; [done|]. subst i. intros q Hq. apply lookup_lt_Some in Hq. lia.
  - apply drop_cons_inv in Hdrop as [Hp Hrest].
    pose proof (lookup_lt_Some _ _ _ Hp) as Hlt.
    pose proof (list_lookup_total_correct _ _ _ Hp) as Hpt.
    destruct (ArrivalTime p <=? now) eqn:Ea.
    + apply Z.leb_le in Ea.
      match goal with |- match findNext _ _ _ _ ?a with _ => _ end =>
        specialize (IH (S i) a Hrest) end.
      lapply IH; [clear IH; intros IH|lia].
      lapply IH; [clear IH; intros IH|].
      2:{ intros m Hm. destruct (decide (m = i)) as [->|]; [by rewrite Hpt|].
          apply Harr. lia. }
      lapply IH; [clear IH; intros IH|].
      2:{ destruct acc as [n|].
          - destruct Hacc as [Hn Hbest].
            destruct (BurstDuration p <? BurstDuration (processes !!! n)) eqn:Eb.
            + apply Z.ltb_lt in Eb. split; [lia|]. intros m Hm.
              rewrite Hpt. destruct (decide (m = i)) as [->|].
              * rewrite Hpt. lia.
              * destruct (Hbest m) as [? ?]; [lia|]. lia.
            + apply Z.ltb_ge in Eb. split; [lia|]. intros m Hm.
              destruct (decide (m = i)) as [->|].
              * rewrite Hpt. lia.
              * apply Hbest. lia.
          - subst i. split; [lia|]. intros m Hm.
            assert (m = k) as -> by lia. lia. }
      destruct (findNext _ _ _ _ _) as [n|].
      * destruct IH as (e & He & ? & ?). exists e. split; [lia|done].
      * destruct IH as [IH _].
        destruct acc as [n|]; [destruct (_ <? _) in IH|]; discriminate.
    + apply Z.leb_gt in Ea. destruct acc as [n|].
      * exists i. split; [done|]. split; [done|].
        split; [lia|]. split; [done|].
        intros q Hq. by simplify_eq.
      * split; [done|]. subst i. intros q Hq. by simplify_eq.
Qed.

(** What the scan of a turn returns. *)
Lemma nextProcessOf_spec (st : PrioState) :
  (lastExecuted st <= length (procs st))%nat ->
  match nextProcessOf st with
  | None =>
      forall p, procs st !! lastExecuted st = Some p ->
        serviceTime (tally st) < ArrivalTime p
  | Some n =>
      exists e,
        firstShortest (procs st) (lastExecuted st) e n /\
        arrivedRun (procs st) (serviceTime (tally st)) (lastExecuted st) e
  end.
Proof.
  intros Hk. unfold nextProcessOf.
  pose proof (findNext_spec (procs st) (serviceTime (tally st)) (lastExecuted st)
                (drop (lastExecuted st) (procs st)) (lastExecuted st) None eq_refl) as Hs.
  lapply Hs; [clear Hs; intros Hs|lia].
  lapply Hs; [clear Hs; intros Hs|intros; lia].
  specialize (Hs eq_refl).
  destruct (findNext _ _ _ _ _) as [n|].
  - destruct Hs as (e & _ & ? & ?). by exists e.
  - by destruct Hs.
Qed.

(** ** SJFPrioritySchedule returns *)

Lemma length_procs_prioStep st : length (procs (prioStep st)) = length (procs st).
Proof.
  unfold prioStep. destruct (nextProcessOf st); simpl; [|done].
  by rewrite length_insert.
Qed.

Lemma prioLoop_returns fuel st :
  (lastExecuted st <= length (procs st))%nat ->
  (turnsLeft st <= fuel)%nat ->
  is_Some (prioLoop fuel st).
Proof.
  revert st. induction fuel as [|fuel IH]; intros st Hk Hfuel; simpl.
  - unfold turnsLeft in Hfuel.
    destruct (lastExecuted st <? length (procs st))%nat eqn:E; [|done].
    apply Nat.ltb_lt in E. destruct (_ <=? _); lia.
  - destruct (lastExecuted st <? length (procs st))%nat eqn:E; [|done].
    apply Nat.ltb_lt in E.
    pose proof (nextProcessOf_spec st Hk) as Hs.
    pose proof (length_procs_prioStep st) as Hlen.
    destruct (lookup_lt_is_Some_2 _ _ E) as [pk Hpk].
    pose proof (list_lookup_total_correct _ _ _ Hpk) as Hpkt.
    apply IH.
    + unfold prioStep in *. destruct (nextProcessOf st); simpl in *; lia.
    + unfold turnsLeft in Hfuel. rewrite (proj2 (Nat.ltb_lt _ _) E) in Hfuel.
      unfold turnsLeft. rewrite Hlen.
      unfold prioStep. destruct (nextProcessOf st) as [n|]; simpl.
      * destruct (S (lastExecuted st) <? length (procs st))%nat; [|lia].
        destruct Hs as (e & [Hn _] & _ & Harr & _).
        rewrite (proj2 (Z.leb_le _ _)) in Hfuel by (apply Harr; lia).
        destruct (_ <=? _); lia.
      * rewrite (proj2 (Nat.ltb_lt _ _) E).
        rewrite Z.leb_refl.
        specialize (Hs _ Hpk). rewrite Hpkt in Hfuel.
        rewrite (proj2 (Z.leb_gt _ _)) in Hfuel by done. lia.
Qed.

(** The loop of SJFPrioritySchedule ends on every input. *)
Lemma SJFPrioritySchedule_returns `{SliceSorter} (processes : list Process) :
  is_Some (SJFPrioritySchedule processes).
Proof.
  unfold SJFPrioritySchedule.
  destruct (prioLoop_returns (2 * length processes)
              (prioInit (sortSlice byArrival processes))) as [st Hst].
  - simpl. lia.
  - unfold turnsLeft. simpl. rewrite sortSlice_length.
    destruct (_ <? _)%nat; [|lia]. destruct (_ <=? _); lia.
  - by rewrite Hst.
Qed.

(** ** Loads, arrivals and the swap that removes a served process *)

Lemma StronglySorted_lookup {A} (R : A -> A -> Prop) (l : list A) i j x y :
  StronglySorted R l -> (i < j)%nat -> l !! i = Some x -> l !! j = Some y -> R x y.
Proof.
  intros Hs. revert i j. induction Hs as [|a l Hs IH Ha]; intros i j Hij Hi Hj; [done|].
  destruct j as [|j]; [lia|]. destruct i as [|i]; simpl in *.
  - injection Hi as <-. rewrite Forall_forall in Ha.
    apply Ha. by eapply list_elem_of_lookup_2.
  - eapply IH; [|done..]. lia.
Qed.

Lemma load_cons p l : load (p :: l) = BurstDuration p + load l.
Proof. reflexivity. Qed.

Lemma load_perm l1 l2 : Permutation l1 l2 -> load l1 = load l2.
Proof.
  induction 1 as [|x l1 l2 _ IH|x y l|l1 l2 l3 _ IH1 _ IH2];
    rewrite ?load_cons in *; lia.
Qed.

Lemma load_nonneg l : Forall (fun p => 0 < BurstDuration p) l -> 0 <= load l.
Proof. induction 1; rewrite ?load_cons; [done|lia]. Qed.

Lemma latest_nonneg l : 0 <= latest l.
Proof.
  induction l as [|p l IH]; [done|].
  unfold latest in *. rewrite fmap_cons. cbn [foldr]. lia.
Qed.

Lemma latest_elem p l : p ∈ l -> ArrivalTime p <= latest l.
Proof.
  induction 1 as [p l|p q l _ IH]; unfold latest in *;
    rewrite fmap_cons; cbn [foldr]; lia.
Qed.

Lemma insert_perm {A} (l : list A) m x y :
  l !! m = Some x -> Permutation (x :: <[ m := y ]> l) (y :: l).
Proof.
  revert m. induction l as [|z l IH]; intros m Hm; [done|].
  destruct m as [|m]; simpl in *.
  - injection Hm as ->. apply perm_swap.
  - rewrite perm_swap, (IH m Hm). apply perm_swap.
Qed.

(** [processes[n] = processes[k]] followed by [k++] takes [processes[n]] out
    of the pending part [processes[k:]] and keeps everything else. *)
Lemma swap_remove_perm {A} (l : list A) k n xk xn :
  l !! k = Some xk -> l !! n = Some xn -> (k <= n)%nat ->
  Permutation (xn :: drop (S k) (<[ n := xk ]> l)) (drop k l).
Proof.
  intros Hk Hn Hkn. rewrite (drop_S l xk k Hk).
  destruct (decide (n = k)) as [->|Hne].
  - rewrite list_insert_id by done. by simplify_eq.
  - rewrite drop_insert_ge by lia. apply insert_perm.
    rewrite lookup_drop. rewrite <- Hn. f_equal. lia.
Qed.

(** ** SJFPrioritySchedule: what holds at every turn *)

Lemma waitsNonNegative_replicate n : waitsNonNegative (replicate n None).
Proof.
  intros i r Hi. apply lookup_replicate in Hi as [? _]. discriminate.
Qed.

Lemma waitsNonNegative_insert rows i r :
  waitsNonNegative rows -> 0 <= rowWait r -> waitsNonNegative (<[ i := Some r ]> rows).
Proof.
  intros Hrows Hr j r' Hj.
  destruct (decide (i = j)) as [->|Hne].
  - destruct (decide (j < length rows)%nat).
    + rewrite list_lookup_insert_eq in Hj by done. by simplify_eq.
    + rewrite list_insert_ge in Hj by lia. by eapply Hrows.
  - rewrite list_lookup_insert_ne in Hj by done. by eapply Hrows.
Qed.

Lemma wellFormed_elem ps p :
  wellFormed ps -> p ∈ ps ->
  0 <= ArrivalTime p <= latest ps /\ 0 < BurstDuration p.
Proof.
  intros [Hall _] Hp. rewrite Forall_forall in Hall.
  destruct (Hall p Hp). pose proof (latest_elem p ps Hp). lia.
Qed.

Lemma prioInit_inv `{SliceSorter} ps :
  wellFormed ps -> PrioInv ps (prioInit (sortSlice byArrival ps)).
Proof.
  intros Hwf.
  pose proof (sortSlice_perm byArrival ps) as Hp.
  split; simpl; rewrite ?drop_0.
  - lia.
  - by rewrite length_replicate.
  - rewrite Hp. apply Forall_forall. auto.
  - intros i j p q Hij Hi Hj. left.
    apply (StronglySorted_lookup _ _ i j p q (sortSlice_sorted ArrivalTime ps)); [lia|done..].
  - done.
  - rewrite (load_perm _ _ Hp). pose proof (latest_nonneg ps). lia.
  - by rewrite (load_perm _ _ Hp).
  - done.
  - apply waitsNonNegative_replicate.
Qed.

Lemma prioStep_inv ps st :
  wellFormed ps -> PrioInv ps st ->
  (lastExecuted st < length (procs st))%nat ->
  PrioInv ps (prioStep st).
Proof.
  intros Hwf [Hb Htab Hmem Hshape Hclock Hbudget Hload Hwait Hrows] Hk.
  pose proof (nextProcessOf_spec st Hb) as Hs.
  destruct (lookup_lt_is_Some_2 _ _ Hk) as [pk Hpk].
  pose proof (list_lookup_total_correct _ _ _ Hpk) as Hpkt.
  assert (pk ∈ ps) as Hpk_in.
  { rewrite Forall_forall in Hmem. apply Hmem.
    apply list_elem_of_lookup. exists 0%nat. by rewrite lookup_drop, Nat.add_0_r. }
  destruct Hwf as [Hall Hspan]. 
  assert (wellFormed ps) as Hwf by done.
  unfold prioStep. destruct (nextProcessOf st) as [n|].
  - destruct Hs as (e & [Hn Hbest] & He & Harr & Hstop).
    assert (n < length (procs st))%nat as Hnlt by lia.
    destruct (lookup_lt_is_Some_2 _ _ Hnlt) as [pn Hpn].
    pose proof (list_lookup_total_correct _ _ _ Hpn) as Hpnt.
    rewrite Hpkt, Hpnt.
    pose proof (swap_remove_perm (procs st) (lastExecuted st) n pk pn Hpk Hpn) as Hperm.
    lapply Hperm; [clear Hperm; intros Hperm|lia].
    assert (Forall (fun p => p ∈ ps) (pn :: drop (S (lastExecuted st)) (<[n:=pk]> (procs st))))
      as Hmem' by (by rewrite Hperm).
    apply Forall_cons in Hmem' as [Hpn_in Hmem'].
    destruct (wellFormed_elem ps pn Hwf Hpn_in) as [Han Hbn].
    assert (ArrivalTime pn <= serviceTime (tally st)) as Hpn_arr.
    { rewrite <- Hpnt. apply Harr. lia. }
    assert (load (drop (lastExecuted st) (procs st))
            = BurstDuration pn + load (drop (S (lastExecuted st)) (<[n:=pk]> (procs st))))
      as Hl by (by rewrite <- (load_perm _ _ Hperm)).
    assert (0 <= load (drop (S (lastExecuted st)) (<[n:=pk]> (procs st)))) as Hl0.
    { apply load_nonneg. eapply Forall_impl; [exact Hmem'|].
      intros x Hx. by apply (wellFormed_elem ps x Hwf). }
    pose proof (latest_nonneg ps) as Hlat.
    assert (add64 (serviceTime (tally st)) (BurstDuration pn)
            = serviceTime (tally st) + BurstDuration pn) as HT.
    { apply add64_exact. unfold in_int64, int64_min, int64_max in *. lia. }
    assert (0 <= rowWait (servedRow pn (tally st))) as Hw'.
    { simpl. destruct (0 <? ArrivalTime pn); [|done].
      rewrite sub64_exact; [lia|].
      unfold in_int64, int64_min, int64_max in *. lia. }
    split; simpl.
    + rewrite length_insert. lia.
    + by rewrite !length_insert.
    + done.
    + intros i j p q Hij Hi Hj. rewrite HT.
      destruct (decide (i <= n)%nat) as [Hin|Hin].
      * right. assert (ArrivalTime p <= serviceTime (tally st)); [|lia].
        destruct (decide (n = i)) as [->|Hne].
        -- rewrite list_lookup_insert_eq in Hi by done. injection Hi as <-.
           rewrite <- Hpkt. apply Harr. lia.
        -- rewrite list_lookup_insert_ne in Hi by done.
           rewrite <- (list_lookup_total_correct _ _ _ Hi). apply Harr. lia.
      * rewrite list_lookup_insert_ne in Hi by lia.
        rewrite list_lookup_insert_ne in Hj by lia.
        destruct (Hshape i j p q) as [?|?]; [lia|done|done|by left|right; lia].
    + rewrite HT. lia.
    + rewrite HT. lia.
    + lia.
    + done.
    + by apply waitsNonNegative_insert.
  - specialize (Hs _ Hpk). rewrite Hpkt.
    destruct (wellFormed_elem ps pk Hwf Hpk_in) as [Hak Hbk].
    split; simpl; try done.
    + intros i j p q Hij Hi Hj.
      destruct (Hshape i j p q) as [?|?]; [done..|by left|right; lia].
    + lia.
    + lia.
Qed.

(** What holds at the start and survives a turn holds when the loop ends. *)
Lemma prioLoop_inv (P : PrioState -> Prop) fuel st st' :
  (forall s, P s -> (lastExecuted s < length (procs s))%nat -> P (prioStep s)) ->
  P st -> prioLoop fuel st = Some st' ->
  P st' /\ (length (procs st') <= lastExecuted st')%nat.
Proof.
  intros Hstep. revert st. induction fuel as [|fuel IH]; intros st HP Hrun; simpl in Hrun.
  - destruct (_ <? _)%nat eqn:E; [done|]. apply Nat.ltb_ge in E. by simplify_eq.
  - destruct (_ <? _)%nat eqn:E.
    + apply Nat.ltb_lt in E. apply (IH (prioStep st)); [|done]. by apply Hstep.
    + apply Nat.ltb_ge in E. by simplify_eq.
Qed.

(** ** SJFPrioritySchedule: the decision rule *)

Lemma load_lookup l i p :
  Forall (fun p => 0 < BurstDuration p) l -> l !! i = Some p ->
  BurstDuration p <= load l.
Proof.
  intros Hl. revert i. induction Hl as [|x l Hx Hl IH]; intros i Hi; [done|].
  rewrite load_cons. pose proof (load_nonneg l Hl).
  destruct i as [|i]; simpl in Hi.
  - injection Hi as ->. lia.
  - specialize (IH i Hi). lia.
Qed.

(** Under the invariant, dispatching a pending process does not wrap. *)
Lemma PrioInv_dispatch_exact ps st n p :
  wellFormed ps -> PrioInv ps st -> pendingAt st n p ->
  add64 (serviceTime (tally st)) (BurstDuration p)
  = serviceTime (tally st) + BurstDuration p.
Proof.
  intros Hwf Hinv [Hn Hp].
  assert (Forall (fun p => 0 < BurstDuration p) (drop (lastExecuted st) (procs st))) as Hpos.
  { eapply Forall_impl; [apply (inv_members _ _ Hinv)|].
    intros x Hx. by apply (wellFormed_elem ps x Hwf). }
  assert (BurstDuration p <= load (drop (lastExecuted st) (procs st))) as Hb.
  { apply (load_lookup _ (n - lastExecuted st) p Hpos).
    rewrite lookup_drop. rewrite <- Hp. f_equal. lia. }
  assert (0 < BurstDuration p).
  { rewrite Forall_forall in Hpos. apply Hpos.
    apply list_elem_of_lookup. exists (n - lastExecuted st)%nat.
    rewrite lookup_drop. rewrite <- Hp. f_equal. lia. }
  pose proof (inv_clock _ _ Hinv). pose proof (inv_budget _ _ Hinv).
  destruct Hwf as [_ Hspan].
  apply add64_exact. unfold in_int64, int64_min, int64_max in *. lia.
Qed.

(** Under the invariant the arrived pending processes are exactly those the
    scan ran over. *)
Lemma eligible_in_run ps st e m q :
  PrioInv ps st -> (lastExecuted st <= e)%nat ->
  arrivedRun (procs st) (serviceTime (tally st)) (lastExecuted st) e ->
  pendingAt st m q -> eligible st q -> (m < e)%nat.
Proof.
  intros Hinv Hke (He & Harr & Hstop) [Hm Hq] Hel. unfold eligible in Hel.
  destruct (decide (m < e)%nat) as [|Hge]; [done|]. exfalso.
  pose proof (lookup_lt_Some _ _ _ Hq) as Hlt.
  destruct (lookup_lt_is_Some_2 (procs st) e) as [pe Hpe]; [lia|].
  specialize (Hstop _ Hpe).
  destruct (decide (m = e)) as [->|Hne]; [simplify_eq; lia|].
  destruct (inv_shape _ _ Hinv e m pe q) as [?|?]; [|done|done|lia|lia].
  lia.
Qed.

Lemma prioStep_decisionRule ps st :
  wellFormed ps -> PrioInv ps st ->
  (lastExecuted st < length (procs st))%nat ->
  decisionRule st.
Proof.
  intros Hwf Hinv Hk.
  pose proof (nextProcessOf_spec st (inv_boundary _ _ Hinv)) as Hs.
  destruct (lookup_lt_is_Some_2 _ _ Hk) as [pk Hpk].
  pose proof (list_lookup_total_correct _ _ _ Hpk) as Hpkt.
  (* the selected process, when there is one *)
  assert (forall n, nextProcessOf st = Some n ->
            exists p, pendingAt st n p /\ eligible st p /\
              forall m q, pendingAt st m q -> eligible st q ->
                BurstDuration p <= BurstDuration q /\
                ((m < n)%nat -> BurstDuration p < BurstDuration q)) as Hsel.
  { intros n En. rewrite En in Hs.
    destruct Hs as (e & [Hn Hbest] & Hrun).
    pose proof Hrun as (He & Harr & Hstop).
    destruct (lookup_lt_is_Some_2 (procs st) n) as [p Hp]; [lia|].
    pose proof (list_lookup_total_correct _ _ _ Hp) as Hpt.
    exists p. split; [split; [lia|done]|].
    split; [unfold eligible; rewrite <- Hpt; apply Harr; lia|].
    intros m q Hmq Hel.
    assert (lastExecuted st <= e)%nat as Hke by lia.
    pose proof (eligible_in_run ps st e m q Hinv Hke Hrun Hmq Hel) as Hme.
    destruct Hmq as [Hm Hq].
    rewrite <- Hpt, <- (list_lookup_total_correct _ _ _ Hq).
    apply Hbest. lia. }
  (* nobody has arrived when the scan finds nothing *)
  assert (nextProcessOf st = None ->
            forall m q, pendingAt st m q ->
              serviceTime (tally st) < ArrivalTime pk /\ ArrivalTime pk <= ArrivalTime q)
    as Hidle.
  { intros En m q [Hm Hq]. rewrite En in Hs. specialize (Hs _ Hpk).
    split; [done|].
    destruct (decide (m = lastExecuted st)) as [->|Hne]; [simplify_eq; lia|].
    destruct (inv_shape _ _ Hinv (lastExecuted st) m pk q) as [?|?]; [lia|done|done|lia|lia]. }
  unfold decisionRule. cbv zeta. split; [|split].
  - intros (m0 & q0 & Hmq0 & Hel0).
    destruct (nextProcessOf st) as [n|] eqn:En.
    2:{ destruct (Hidle eq_refl m0 q0 Hmq0). unfold eligible in Hel0. lia. }
    destruct (Hsel n eq_refl) as (p & Hnp & Hel & Hmin).
    exists n, p. split; [done|]. split; [done|]. split; [done|]. split; [done|].
    pose proof (PrioInv_dispatch_exact ps st n p Hwf Hinv Hnp) as HT.
    destruct Hnp as [Hn Hp].
    pose proof (list_lookup_total_correct _ _ _ Hp) as Hpt.
    unfold prioStep, pending. rewrite En. cbn [tally procs lastExecuted].
    rewrite Hpt, Hpkt, gantt_serve, serviceTime_serve, HT.
    split; [|split; [done|]].
    + eexists. unfold servedSlice. by rewrite HT.
    + by apply swap_remove_perm.
  - intros Hnone.
    destruct (nextProcessOf st) as [n|] eqn:En.
    { destruct (Hsel n eq_refl) as (p & Hnp & Hel & _). by destruct (Hnone n p). }
    split; [done|].
    unfold prioStep, pending. rewrite En. cbn [tally procs lastExecuted].
    rewrite Hpkt. cbn [setServiceTime gantt serviceTime].
    split; [done|]. split; [done|]. split.
    + exists (lastExecuted st), pk. by split.
    + intros m q Hmq. by destruct (Hidle eq_refl m q Hmq).
  - intros n p En Hp (m & q & Hmq & Hel & Ha & Hb).
    destruct (Hsel n En) as (p' & [_ Hp'] & _ & Hmin).
    assert (p' = p) as -> by congruence.
    destruct (Hmin m q Hmq Hel). lia.
Qed.

(** Every turn the loop takes from a state that meets the invariant follows
    the rule. *)
Lemma prioLoop_turns ps fuel st final :
  wellFormed ps -> PrioInv ps st ->
  prioLoop fuel st = Some final ->
  exists points, turnsFrom st points final /\ Forall decisionRule points.
Proof.
  intros Hwf. revert st.
  induction fuel as [|fuel IH]; intros st Hinv Hrun; simpl in Hrun.
  - destruct (_ <? _)%nat eqn:E; [done|]. apply Nat.ltb_ge in E. simplify_eq.
    exists []. split; [by constructor|constructor].
  - destruct (_ <? _)%nat eqn:E.
    + apply Nat.ltb_lt in E.
      destruct (IH (prioStep st)) as (points & Hturns & Hrule);
        [by apply prioStep_inv|done|].
      exists (st :: points). split; [by constructor|].
      constructor; [|done]. by apply (prioStep_decisionRule ps).
    + apply Nat.ltb_ge in E. simplify_eq.
      exists []. split; [by constructor|constructor].
Qed.

(** C5, counterexample: [wrappingBurst] has arrival times >= 0 and bursts
    > 0.  Its first turn serves process 1 and leaves the service time at
    2^63 - 1; the second turn selects process 4 (burst 1) among the arrived
    processes 2, 3 and 4, the service time wraps to -2^63, and the slice
    becomes 1, 2, 3, 2 with two processes executed.  At the third decision
    point nobody has arrived, the pending processes are 3 (arrival 2) and 2
    (arrival 1), and the turn sets the service time to 2, the arrival of the
    first pending process, not to 1, the earliest arrival among them. *)
Lemma SJFPrioritySchedule_skips_past_an_arrival_after_wrap :
  Forall (fun p => 0 <= ArrivalTime p /\ 0 < BurstDuration p) wrappingBurst /\
  (forall sorter : SliceSorter,
     exists points final st,
       turnsFrom (prioInit (sortSlice byArrival wrappingBurst)) points final /\
       points !! 2%nat = Some st /\ ~ decisionRule st).
Proof.
  split; [apply (bool_decide_unpack _); vm_compute; exact I|].
  intros sorter.
  rewrite sortSlice_byArrival_decided by keys_decide.
  change (stableSort byArrival wrappingBurst) with wrappingBurst.
  do 2 eexists. exists (prioStep (prioStep (prioInit wrappingBurst))).
  split; [|split].
  - do 5 (apply turns_step; [vm_compute; lia|]).
    apply turns_done. vm_compute. lia.
  - reflexivity.
  - intros (_ & Hidle & _).
    destruct Hidle as (_ & _ & _ & _ & Hmin).
    + intros m q [Hm Hq]. unfold eligible.
      vm_compute in Hm.
      destruct m as [|[|[|[|m]]]]; try lia; vm_compute in Hq; simplify_eq;
        vm_compute; intros E; by apply E.
    + assert (pendingAt (prioStep (prioStep (prioInit wrappingBurst)))
                3%nat (csv 2 5 1 1)) as Hp
        by (split; [vm_compute; lia|reflexivity]).
      specialize (Hmin _ _ Hp). vm_compute in Hmin. by apply Hmin.
Qed.

(** C5, amended: on a list with arrival times >= 0, bursts > 0 and
    latest arrival + total burst <= 2^63 - 1, SJFPrioritySchedule returns
    the report and the slice of the state its loop ends in, and every turn
    of that loop, from the state after the sort on, follows the rule: if
    some not-yet-executed process has arrived, the one of smallest burst
    among the arrived not-yet-executed processes (the first such index of
    the slice on ties) is selected, one interval ending [burst] after the
    current service time is emitted for it, the service time advances by
    its burst and it leaves the pending part; if none has arrived, the
    service time moves to the earliest arrival among the pending processes
    and no interval is emitted; hence a selected process is never beaten on
    both arrival and burst by an arrived pending process. *)
Theorem SJFPrioritySchedule_decision_rule `{SliceSorter} (ps : list Process) :
  wellFormed ps ->
  exists run points final,
    SJFPrioritySchedule ps = Some run /\
    turnsFrom (prioInit (sortSlice byArrival ps)) points final /\
    printed run = report (length ps) (tally final) /\
    backing run = procs final /\
    Forall decisionRule points.
Proof.
  intros Hwf.
  destruct (SJFPrioritySchedule_returns ps) as [run Hrun].
  unfold SJFPrioritySchedule in *. cbv zeta in *.
  destruct (prioLoop _ _) as [final|] eqn:Eloop; [|done].
  clear Hrun.
  destruct (prioLoop_turns ps _ _ _ Hwf (prioInit_inv ps Hwf) Eloop)
    as (points & Hturns & Hrule).
  eexists _, points, final. split; [reflexivity|]. done.
Qed.

Lemma SJFPrioritySchedule_decision_rule_witness :
  wellFormed busyThenIdle /\
  exists run points final,
    @SJFPrioritySchedule stableSorter busyThenIdle = Some run /\
    turnsFrom (prioInit (@sortSlice stableSorter byArrival busyThenIdle))
              points final /\
    printed run = report (length busyThenIdle) (tally final) /\
    backing run = procs final /\
    Forall decisionRule points /\
    serviceOrder (printed run) = [1; 3; 4; 2; 5] /\
    Stop <$> chart (printed run) = [5; 8; 11; 15; 31].
Proof.
  assert (wellFormed busyThenIdle) as Hwf
    by (apply (bool_decide_unpack _); vm_compute; exact I).
  split; [exact Hwf|].
  destruct (@SJFPrioritySchedule_decision_rule stableSorter busyThenIdle Hwf)
    as (run & points & final & Hrun & Hturns & Hprinted & Hbacking & Hrule).
  exists run, points, final.
  repeat (split; [assumption|]).
  vm_compute in Hrun. injection Hrun as <-. split; reflexivity.
Defined.

(** ** RRSchedule: the structure of a turn *)

Lemma admit_arrivals_spec now processes queue :
  exists moved,
    processes = moved ++ (admit_arrivals now processes queue).1 /\
    (admit_arrivals now processes queue).2 = queue ++ moved /\
    Forall (fun p => ArrivalTime p <= now) moved.
Proof.
  revert queue. induction processes as [|p rest IH]; intros queue; simpl.
  - exists []. split; [done|]. split; [by rewrite app_nil_r|constructor].
  - destruct (ArrivalTime p <=? now) eqn:E.
    + apply Z.leb_le in E.
      destruct (IH (queue ++ [p])) as (moved & Hrest & Hq & Hall).
      exists (p :: moved). split; [by rewrite Hrest at 1|].
      split; [by rewrite Hq, <- app_assoc|]. by constructor.
    + exists []. split; [done|]. split; [by rewrite app_nil_r|constructor].
Qed.

Lemma admitInto_spec st :
  exists moved,
    RR.processes st = moved ++ RR.processes (admitInto st) /\
    RR.queue (admitInto st) = RR.queue st ++ moved /\
    Forall (fun p => ArrivalTime p <= RR.currentTime st) moved /\
    RR.currentTime (admitInto st) = RR.currentTime st /\
    RR.schedule (admitInto st) = RR.schedule st.
Proof.
  destruct (admit_arrivals_spec (RR.currentTime st) (RR.processes st) (RR.queue st))
    as (moved & H1 & H2 & H3).
  exists moved. unfold admitInto.
  destruct (admit_arrivals _ _ _) as [processes queue]. simpl in *. done.
Qed.

Lemma waiting_admitInto st : waiting (admitInto st) = waiting st.
Proof.
  destruct (admitInto_spec st) as (moved & H1 & H2 & _).
  unfold waiting. rewrite H2, <- app_assoc. by rewrite <- H1.
Qed.

Lemma runSlices_frame fuel timeSlice process start slot st slot' st' :
  runSlices fuel timeSlice process start slot st = Some (slot', st') ->
  RR.schedule st' = RR.schedule st /\ waiting st' = waiting st.
Proof.
  revert slot st. induction fuel as [|fuel IH]; intros slot st Hrun; simpl in Hrun.
  - destruct (0 <? RR.burstLeft slot); [done|]. by simplify_eq.
  - destruct (0 <? RR.burstLeft slot); [|by simplify_eq].
    apply IH in Hrun as [Hs Hw]. rewrite Hs, Hw.
    match goal with |- context [admitInto ?s] =>
      destruct (admitInto_spec s) as (_ & _ & _ & _ & _ & ->);
      rewrite (waiting_admitInto s) end.
    done.
Qed.

(** A turn that records a row, or fails to: the process it dispatched, and
    the state in which the row is recorded. *)
Lemma rrTurn_dispatch fuel timeSlice st o :
  rrTurn fuel timeSlice st = o ->
  (exists st', o = Returned st') \/ o = Panicked ScheduleIndexOutOfRange ->
  exists process queue' slot' st2,
    RR.queue (admitInto st) = process :: queue' /\
    runSlices fuel timeSlice process (RR.currentTime st)
      {| RR.completion := 0; RR.burstLeft := BurstDuration process; RR.timeElapsed := 0 |}
      (setQueue queue' (admitInto st)) = Some (slot', st2) /\
    o = recordRow process slot' st2.
Proof.
  intros <- Ho. unfold rrTurn in *.
  destruct (admitInto_spec st) as (_ & _ & _ & _ & Hct & _).
  unfold skipIdle in *.
  destruct (RR.queue (admitInto st)) as [|process queue'] eqn:Eq.
  - exfalso. destruct (RR.processes (admitInto st)); simpl in Ho.
    + destruct Ho as [[? ?]|?]; discriminate.
    + rewrite Eq in Ho. destruct Ho as [[? ?]|?]; discriminate.
  - simpl in *. rewrite Eq in *. rewrite Hct in *.
    destruct (runSlices _ _ _ _ _ _) as [[slot' st2]|] eqn:Erun.
    + by exists process, queue', slot', st2.
    + exfalso. destruct Ho as [[? ?]|?]; discriminate.
Qed.

Lemma waiting_dequeue st process queue' :
  RR.queue st = process :: queue' -> waiting st = process :: waiting (setQueue queue' st).
Proof. unfold waiting. simpl. by intros ->. Qed.

(** ** RRSchedule: rows are stored by process id *)

Lemma denseIds_fit ps : denseIds ps -> idsFit (length ps) ps.
Proof.
  unfold denseIds. intros Hd. apply Forall_forall. intros p Hp.
  assert (ProcessID p ∈ Z.of_nat <$> seq 1 (length ps)) as Hin.
  { rewrite <- Hd. by apply list_elem_of_fmap_2. }
  apply list_elem_of_fmap in Hin as (k & -> & Hk).
  apply elem_of_seq in Hk. lia.
Qed.

Lemma recordRow_in_bounds process slot st :
  1 <= ProcessID process <= Z.of_nat (length (RR.schedule st)) ->
  Z.of_nat (length (RR.schedule st)) <= int64_max ->
  exists st',
    recordRow process slot st = Returned st' /\
    waiting st' = waiting st /\
    RR.currentTime st' = RR.currentTime st /\
    RR.schedule st' =
      <[ Z.to_nat (ProcessID process - 1) := Some (recordedRow process slot st) ]>
        (RR.schedule st).
Proof.
  intros Hid Hn. unfold recordRow.
  rewrite (sub64_exact (ProcessID process) 1)
    by (unfold in_int64, int64_min, int64_max in *; lia).
  rewrite (proj2 (Z.leb_le _ _)) by lia.
  rewrite (proj2 (Z.ltb_lt _ _)) by lia.
  simpl. eexists. split; [done|]. by repeat split.
Qed.

Lemma rrTurn_rows ps fuel timeSlice st o :
  Z.of_nat (length ps) <= int64_max ->
  RowsInv ps st ->
  rrTurn fuel timeSlice st = o ->
  (exists st', o = Returned st') \/ o = Panicked ScheduleIndexOutOfRange ->
  exists st', o = Returned st' /\ RowsInv ps st'.
Proof.
  intros Hn [Hlen Hfit Hidx Hsto] Ho Hcase.
  destruct (rrTurn_dispatch _ _ _ _ Ho Hcase)
    as (process & queue' & slot' & st2 & Hq & Hrun & ->).
  apply runSlices_frame in Hrun as [Hs2 Hw2].
  pose proof (waiting_dequeue _ _ _ Hq) as Hw1.
  rewrite waiting_admitInto, <- Hw2 in Hw1.
  destruct (admitInto_spec st) as (_ & _ & _ & _ & _ & Hsched).
  assert (RR.schedule st2 = RR.schedule st) as Hs by (by rewrite Hs2).
  rewrite Hw1 in Hfit. apply Forall_cons in Hfit as [Hid Hfit].
  destruct (recordRow_in_bounds process slot' st2) as (st' & -> & Hw' & _ & Hs');
    [rewrite Hs, Hlen; lia..|].
  exists st'. split; [done|].
  assert (Z.to_nat (ProcessID process - 1) < length (RR.schedule st2))%nat as Hin
    by (rewrite Hs, Hlen; lia).
  split.
  - by rewrite Hs', length_insert, Hs.
  - by rewrite Hw'.
  - intros i r. rewrite Hs'.
    destruct (decide (Z.to_nat (ProcessID process - 1) = i)) as [<-|Hne].
    + rewrite list_lookup_insert_eq by done. intros E. injection E as <-. simpl. lia.
    + rewrite list_lookup_insert_ne by done. rewrite Hs. apply Hidx.
  - intros p Hp. rewrite Hw', Hs'.
    destruct (Hsto p Hp) as [Hpw|(r & Hr & Hrid)].
    + rewrite Hw1 in Hpw. apply elem_of_cons in Hpw as [->|?]; [|by left].
      right. eexists. split; [by apply list_lookup_insert_eq|done].
    + right. unfold hasRow.
      pose proof (Hidx _ _ Hr) as Hri.
      destruct (decide (Z.to_nat (ProcessID process - 1) = Z.to_nat (ProcessID p - 1)))
        as [E|Hne].
      * rewrite <- E. eexists. split; [by apply list_lookup_insert_eq|].
        simpl. lia.
      * exists r. by rewrite list_lookup_insert_ne, Hs by done.
Qed.

Lemma rrLoop_rows ps fuel timeSlice st o :
  Z.of_nat (length ps) <= int64_max ->
  RowsInv ps st ->
  rrLoop fuel timeSlice st = o ->
  (exists st', o = Returned st') \/ o = Panicked ScheduleIndexOutOfRange ->
  exists st', o = Returned st' /\ RowsInv ps st' /\ waiting st' = [].
Proof.
  intros Hn. revert st o. induction fuel as [|fuel IH]; intros st o Hinv Ho Hcase.
  - simpl in Ho. destruct (RR.queue st) eqn:Eq, (RR.processes st) eqn:Ep;
      subst o; try (destruct Hcase as [[? ?]|?]; discriminate).
    exists st. unfold waiting. by rewrite Eq, Ep.
  - simpl in Ho.
    assert (RR.queue st = [] /\ RR.processes st = [] \/
            o = (rrTurn fuel timeSlice st ≫= rrLoop fuel timeSlice)) as [[Eq Ep] | ->].
    { destruct (RR.queue st), (RR.processes st); auto. }
    + rewrite Eq, Ep in Ho. subst o. exists st. unfold waiting. by rewrite Eq, Ep.
    + clear Ho. unfold mbind, Outcome_bind, andThen in *.
      destruct (rrTurn fuel timeSlice st) as [st1| e |] eqn:Eturn.
      * destruct (rrTurn_rows ps _ _ _ _ Hn Hinv Eturn) as (st1' & E1 & Hinv1);
          [left; by eexists|].
        injection E1 as <-. by apply (IH st1).
      * destruct (rrTurn_rows ps _ _ _ _ Hn Hinv Eturn) as (? & ? & _); [|done].
        destruct Hcase as [[? ?]|?]; [done|]. right. done.
      * destruct Hcase as [[? ?]|?]; discriminate.
Qed.

Lemma rrInit_rows `{SliceSorter} ps :
  denseIds ps -> RowsInv ps (rrInit (length ps) (sortSlice byArrival ps)).
Proof.
  intros Hd. pose proof (sortSlice_perm byArrival ps) as Hp.
  split; simpl.
  - by rewrite length_replicate.
  - unfold waiting, idsFit. simpl. rewrite Hp. by apply denseIds_fit.
  - intros i r Hi. apply lookup_replicate in Hi as [? _]. discriminate.
  - intros p Hp'. left. unfold waiting. simpl. by rewrite Hp.
Qed.

Lemma RRSchedule_dense_ids `{SliceSorter} fuel ps timeSlice :
  denseIds ps -> Z.of_nat (length ps) <= int64_max ->
  RRSchedule fuel ps timeSlice <> Panicked ScheduleIndexOutOfRange /\
  forall run, RRSchedule fuel ps timeSlice = Returned run ->
    length (table (printed run)) = length ps /\
    rowsByIndex (table (printed run)) /\
    everyRowStored ps (table (printed run)).
Proof.
  intros Hd Hn. pose proof (rrInit_rows ps Hd) as Hinit.
  unfold RRSchedule, mbind, Outcome_bind, andThen.
  destruct (rrLoop fuel timeSlice _) as [st| e |] eqn:Eloop.
  - destruct (rrLoop_rows ps _ _ _ _ Hn Hinit Eloop) as (st' & E & Hinv & Hw);
      [left; by eexists|].
    injection E as <-. unfold rrReport.
    destruct (last (RR.gantt st)); [|split; [done|discriminate]].
    split; [done|]. intros run [= <-]. simpl.
    destruct Hinv as [Hlen _ Hidx Hsto].
    split; [done|]. split; [done|].
    intros p Hp. destruct (Hsto p Hp) as [Hin|?]; [|done].
    rewrite Hw in Hin. by apply elem_of_nil in Hin.
  - split; [|discriminate]. intros [= ->].
    destruct (rrLoop_rows ps _ _ _ _ Hn Hinit Eloop) as (? & ? & _); [by right|done].
  - split; discriminate.
Qed.

(** C10: RRSchedule stores the row of a process at index [ProcessID - 1] of
    a table whose length is the number of processes.  When the ids of the
    input are exactly 1..N, no store is out of bounds, and when the policy
    returns, the table has N rows, the row at index [i] is the row of id
    [i + 1], and every process has its row at index [id - 1].  For an input
    with an id outside 1..N (ids 1 and 3, N = 2) the store of line 348 is
    out of bounds. *)
Theorem RRSchedule_rows_indexed_by_id :
  (forall (sorter : SliceSorter) fuel ps timeSlice,
     denseIds ps -> Z.of_nat (length ps) <= int64_max ->
     RRSchedule fuel ps timeSlice <> Panicked ScheduleIndexOutOfRange /\
     forall run, RRSchedule fuel ps timeSlice = Returned run ->
       length (table (printed run)) = length ps /\
       rowsByIndex (table (printed run)) /\
       everyRowStored ps (table (printed run))) /\
  (exists ps,
     ~ idsFit (length ps) ps /\
     forall sorter : SliceSorter,
       RRSchedule 8 ps 1 = Panicked ScheduleIndexOutOfRange).
Proof.
  split.
  - intros sorter fuel ps timeSlice. apply RRSchedule_dense_ids.
  - exists [csv 1 1 0 1; csv 3 1 1 1]. split.
    + unfold idsFit. rewrite Forall_forall. intros Hfit.
      specialize (Hfit (csv 3 1 1 1)). simpl in Hfit.
      assert (csv 3 1 1 1 ∈ [csv 1 1 0 1; csv 3 1 1 1]) as Hin by (right; left).
      specialize (Hfit Hin). lia.
    + intros sorter. unfold RRSchedule.
      rewrite sortSlice_byArrival_decided by keys_decide.
      vm_compute. reflexivity.
Qed.

Lemma RRSchedule_rows_indexed_by_id_witness :
  exists run,
    @RRSchedule stableSorter 20 [csv 1 5 0 1; csv 2 3 2 2; csv 3 1 4 3] 1 = Returned run /\
    length (table (printed run)) = 3%nat /\
    rowsByIndex (table (printed run)) /\
    everyRowStored [csv 1 5 0 1; csv 2 3 2 2; csv 3 1 4 3] (table (printed run)).
Proof.
  destruct (proj1 RRSchedule_rows_indexed_by_id stableSorter 20%nat
              [csv 1 5 0 1; csv 2 3 2 2; csv 3 1 4 3] 1%float) as [_ Hrows].
  - unfold denseIds. simpl. reflexivity.
  - simpl. unfold int64_max. lia.
  - destruct (@RRSchedule stableSorter 20 [csv 1 5 0 1; csv 2 3 2 2; csv 3 1 4 3] 1)
      as [run| |] eqn:E; vm_compute in E; [|discriminate..].
    exists run. split; [reflexivity|].
    apply Hrows. rewrite <- E. vm_compute. reflexivity.
Defined.

(** ** RRSchedule: the clock *)

Lemma quantumExact_checked timeSlice q bound :
  quantumExactOn timeSlice q bound -> quantumExact timeSlice q bound.
Proof.
  unfold quantumExactOn. rewrite Forall_forall. intros Hall b ct Hb Hct Hsum.
  specialize (Hall b). rewrite Forall_forall in Hall.
  apply Hall; apply elem_of_seqZ; lia.
Qed.

Lemma runSlices_done fuel timeSlice process start slot st :
  RR.burstLeft slot <= 0 ->
  runSlices fuel timeSlice process start slot st = Some (slot, st).
Proof.
  intros Hb. destruct fuel; simpl; by rewrite (proj2 (Z.ltb_ge _ _)) by lia.
Qed.

(** With an exact quantum of at least 1, a dispatch that returns has
    advanced the clock by the whole remaining burst. *)
Lemma runSlices_timing fuel timeSlice q bound process start :
  0 < q -> quantumExact timeSlice q bound -> bound <= int64_max ->
  forall slot st slot' st',
    0 <= RR.burstLeft slot ->
    0 <= RR.currentTime st ->
    RR.currentTime st + RR.burstLeft slot <= bound ->
    0 <= RR.timeElapsed slot ->
    RR.timeElapsed slot + RR.burstLeft slot <= bound ->
    Forall (fun p => ArrivalTime p <= RR.currentTime st) (RR.queue st) ->
    runSlices fuel timeSlice process start slot st = Some (slot', st') ->
    RR.currentTime st' = RR.currentTime st + RR.burstLeft slot /\
    Forall (fun p => ArrivalTime p <= RR.currentTime st') (RR.queue st') /\
    RR.timeElapsed slot' = RR.timeElapsed slot + RR.burstLeft slot /\
    (0 < RR.burstLeft slot -> RR.completion slot' = RR.currentTime st').
Proof.
  intros Hq Hexact Hbound. induction fuel as [|fuel IH];
    intros slot st slot' st' Hb Hct Hmax Hte Htemax Hqueue Hrun; simpl in Hrun.
  - destruct (0 <? RR.burstLeft slot) eqn:E; [done|].
    apply Z.ltb_ge in E. injection Hrun as <- <-.
    repeat split; [lia|done|lia|lia].
  - destruct (0 <? RR.burstLeft slot) eqn:E.
    2:{ apply Z.ltb_ge in E. injection Hrun as <- <-.
        repeat split; [lia|done|lia|lia]. }
    apply Z.ltb_lt in E.
    destruct (Hexact (RR.burstLeft slot) (RR.currentTime st) E Hct Hmax)
      as [Hspent Hstop].
    unfold sliceSpent in Hspent. unfold sliceStop in Hstop.
    rewrite Hspent, Hstop in Hrun.
    set (timeSpent := Z.min (RR.burstLeft slot) q) in *.
    assert (0 < timeSpent <= RR.burstLeft slot) as Hts by (unfold timeSpent; lia).
    match type of Hrun with runSlices _ _ _ _ ?s1 (admitInto ?s) = _ =>
      set (slot1 := s1) in *; set (st0 := s) in * end.
    destruct (admitInto_spec st0) as (moved & _ & Hq1 & Hmoved & Hct1 & _).
    assert (RR.burstLeft slot1 = RR.burstLeft slot - timeSpent) as Hb1.
    { simpl. apply sub64_exact. unfold in_int64, int64_min, int64_max in *. lia. }
    assert (RR.timeElapsed slot1 = RR.timeElapsed slot + timeSpent) as Hte1.
    { simpl. apply add64_exact. unfold in_int64, int64_min, int64_max in *. lia. }
    assert (RR.currentTime (admitInto st0) = RR.currentTime st + timeSpent) as Hct1'
      by (by rewrite Hct1).
    assert (Forall (fun p => ArrivalTime p <= RR.currentTime (admitInto st0))
                   (RR.queue (admitInto st0))) as Hqueue1.
    { rewrite Hq1, Hct1'. apply Forall_app. split.
      - eapply Forall_impl; [exact Hqueue|]. simpl. intros; lia.
      - eapply Forall_impl; [exact Hmoved|]. simpl. intros; lia. }
    destruct (decide (0 < RR.burstLeft slot1)) as [Hpos|Hzero].
    + destruct (IH slot1 (admitInto st0) slot' st') as (H1 & H2 & H3 & H4);
        [lia|lia|lia|lia|lia|done|done|].
      repeat split; [lia|done|lia|]. intros _. by apply H4.
    + rewrite runSlices_done in Hrun by lia. injection Hrun as <- <-.
      repeat split; [lia|done|lia|]. intros _. simpl. lia.
Qed.

Lemma recordRow_Returned process slot st st' :
  recordRow process slot st = Returned st' ->
  waiting st' = waiting st /\
  RR.currentTime st' = RR.currentTime st /\
  RR.queue st' = RR.queue st /\
  exists i, RR.schedule st' = <[ i := Some (recordedRow process slot st) ]> (RR.schedule st).
Proof.
  unfold recordRow. destruct (_ && _); [|done].
  intros [= <-]. repeat split. by eexists.
Qed.

Lemma rrTurn_clock ps fuel timeSlice q st st' :
  wellFormed ps -> 0 < q -> quantumExact timeSlice q (load ps) ->
  ClockInv ps st ->
  rrTurn fuel timeSlice st = Returned st' ->
  ClockInv ps st'.
Proof.
  intros Hwf Hq Hexact [Hct Hbud Hqueue Hmem Hrows] Hturn.
  destruct (rrTurn_dispatch _ _ _ _ Hturn) as
    (process & queue' & slot' & st2 & Hq1 & Hrun & Hrec); [left; by eexists|].
  symmetry in Hrec.
  destruct (admitInto_spec st) as (moved & _ & Hqa & Hmoved & Hcta & Hscheda).
  pose proof (waiting_dequeue _ _ _ Hq1) as Hw1. rewrite waiting_admitInto in Hw1.
  pose proof (runSlices_frame _ _ _ _ _ _ _ _ Hrun) as [Hs2 Hw2].
  rewrite Hw1 in Hmem. apply Forall_cons in Hmem as [Hp_in Hmem].
  destruct (wellFormed_elem ps process Hwf Hp_in) as [Ha Hb].
  assert (0 <= load (waiting (setQueue queue' (admitInto st)))) as Hrest.
  { apply load_nonneg. eapply Forall_impl; [exact Hmem|].
    intros x Hx. by apply (wellFormed_elem ps x Hwf). }
  rewrite Hw1, load_cons in Hbud.
  assert (load ps <= int64_max) as Hmax.
  { destruct Hwf as [_ Hspan]. pose proof (latest_nonneg ps). lia. }
  assert (Forall (fun p => ArrivalTime p <= RR.currentTime st) (process :: queue')) as Hq1all.
  { rewrite <- Hq1, Hqa. apply Forall_app. by split. }
  apply Forall_cons in Hq1all as [Harrived Hqueue'].
  pose proof (fun a b c d e f =>
                runSlices_timing fuel timeSlice q (load ps) process
                  (RR.currentTime st) Hq Hexact Hmax
                  _ _ _ _ a b c d e f Hrun) as Ht.
  simpl in Ht. rewrite Hcta in Ht.
  destruct Ht as (Hct2 & Hqueue2 & _ & _); [lia|lia|lia|lia|lia|done|].
  destruct (recordRow_Returned _ _ _ _ Hrec) as (Hw' & Hct' & Hq' & i & Hs').
  split.
  - lia.
  - rewrite Hw', Hw2, Hct', Hct2. lia.
  - by rewrite Hq', Hct'.
  - by rewrite Hw', Hw2.
  - rewrite Hs'. apply waitsNonNegative_insert.
    + rewrite Hs2. simpl. by rewrite Hscheda.
    + simpl. rewrite Hct2.
      rewrite (sub64_exact (RR.currentTime st + BurstDuration process))
        by (unfold in_int64, int64_min, int64_max in *; lia).
      rewrite sub64_exact by (unfold in_int64, int64_min, int64_max in *; lia).
      lia.
Qed.

Lemma rrLoop_clock ps fuel timeSlice q st st' :
  wellFormed ps -> 0 < q -> quantumExact timeSlice q (load ps) ->
  ClockInv ps st ->
  rrLoop fuel timeSlice st = Returned st' ->
  ClockInv ps st'.
Proof.
  intros Hwf Hq Hexact. revert st.
  induction fuel as [|fuel IH]; intros st Hinv Hrun; simpl in Hrun.
  - destruct (RR.queue st), (RR.processes st); by simplify_eq.
  - assert (Returned st = Returned st' \/
            (rrTurn fuel timeSlice st ≫= rrLoop fuel timeSlice) = Returned st')
      as [E|E] by (destruct (RR.queue st), (RR.processes st); auto).
    + by injection E as <-.
    + unfold mbind, Outcome_bind, andThen in E.
      destruct (rrTurn fuel timeSlice st) as [st1| |] eqn:Eturn; [|done..].
      apply (IH st1); [|done]. by eapply rrTurn_clock.
Qed.

Lemma RRSchedule_waits `{SliceSorter} ps fuel timeSlice q run :
  wellFormed ps -> 0 < q -> quantumExact timeSlice q (load ps) ->
  RRSchedule fuel ps timeSlice = Returned run ->
  waitsNonNegative (table (printed run)).
Proof.
  intros Hwf Hq Hexact. unfold RRSchedule, mbind, Outcome_bind, andThen.
  pose proof (sortSlice_perm byArrival ps) as Hp.
  destruct (rrLoop fuel timeSlice _) as [st| |] eqn:Eloop; [|done..].
  apply rrLoop_clock with (ps := ps) (q := q) in Eloop; [|done|done|done|].
  - unfold rrReport. destruct (last (RR.gantt st)); [|done].
    intros [= <-]. simpl. apply (clock_rows _ _ Eloop).
  - split; simpl.
    + done.
    + unfold waiting. simpl. by rewrite (load_perm _ _ Hp).
    + constructor.
    + unfold waiting. simpl. rewrite Hp. apply Forall_forall. auto.
    + apply waitsNonNegative_replicate.
Qed.

(** ** FCFSSchedule and SJFSchedule: processes that are served after they arrive *)

Lemma foldl_add64_range xs s : in_int64 s -> in_int64 (foldl add64 s xs).
Proof.
  revert s. induction xs as [|x xs IH]; intros s Hs; simpl; [done|].
  apply IH, wrap64_range.
Qed.

Lemma serveAll_arrived_wait l i :
  arrivedByService l -> (i <= length l)%nat ->
  0 <= waitingTime (serveAll 0 (take i l) (newTally (length l))).
Proof.
  intros Harr. induction i as [|i IH]; intros Hi; [done|].
  destruct (lookup_lt_is_Some_2 l i) as [p Hp]; [lia|].
  rewrite (take_S_r l i p Hp), serveAll_app. cbn [serveAll].
  rewrite waitingTime_serve. unfold servedRow. cbn [rowWait].
  destruct (0 <? ArrivalTime p) eqn:Ea; [|apply IH; lia].
  apply Z.ltb_lt in Ea. rewrite serviceTime_serveAll. cbn [newTally serviceTime].
  specialize (Harr i p Hp). unfold serviceBefore in Harr.
  pose proof (foldl_add64_range (BurstDuration <$> take i l) 0) as Hr.
  lapply Hr; [clear Hr; intros Hr|by vm_compute].
  rewrite sub64_exact; [lia|].
  unfold in_int64, int64_min, int64_max in *. lia.
Qed.

Lemma serveAll_arrived l :
  arrivedByService l ->
  waitsNonNegative (schedule (serveAll 0 l (newTally (length l)))).
Proof.
  intros Harr i r Hi.
  assert (i < length l)%nat as Hlt.
  { apply lookup_lt_Some in Hi.
    rewrite length_schedule_serveAll in Hi. cbn [newTally schedule] in Hi.
    by rewrite length_replicate in Hi. }
  destruct (lookup_lt_is_Some_2 l i Hlt) as [p Hp].
  rewrite (serveAll_row l 0%nat _ i p Hp) in Hi
    by (simpl; rewrite length_replicate; lia).
  injection Hi as <-.
  pose proof (serveAll_arrived_wait l (S i) Harr ltac:(lia)) as Hw.
  by rewrite (take_S_r l i p Hp), serveAll_app in Hw.
Qed.

Lemma SJFPrioritySchedule_waits `{SliceSorter} ps :
  wellFormed ps ->
  exists run, SJFPrioritySchedule ps = Some run /\
    waitsNonNegative (table (printed run)).
Proof.
  intros Hwf. destruct (SJFPrioritySchedule_returns ps) as [run Hrun].
  exists run. split; [done|].
  unfold SJFPrioritySchedule in Hrun.
  destruct (prioLoop _ _) as [st|] eqn:Eloop; [|done].
  injection Hrun as <-. simpl.
  apply (prioLoop_inv (PrioInv ps)) in Eloop as [Hinv _].
  - apply (inv_rows _ _ Hinv).
  - intros s Hs Hk. by apply prioStep_inv.
  - by apply prioInit_inv.
Qed.

(** Where the float64 arithmetic of a slice is not exact, a row of
    RRSchedule can have a negative waiting time: float64(2^53 + 1) is 2^53,
    so the single process of burst 2^53 + 1 is given a first slice of
    2^53, a second one of 1 that leaves the clock at 2^53, and completes
    at 2^53, one unit before its burst is over. *)
Lemma RRSchedule_negative_wait_past_2_53 :
  wellFormed [csv 1 (2 ^ 53 + 1) 0 1] /\
  forall sorter : SliceSorter,
  exists run r,
    RRSchedule 10 [csv 1 (2 ^ 53 + 1) 0 1] 1e19 = Returned run /\
    table (printed run) = [Some r] /\ rowWait r = -1 /\ rowExit r = 2 ^ 53.
Proof.
  split; [apply (bool_decide_unpack _); vm_compute; exact I|].
  intros sorter. unfold RRSchedule.
  rewrite sortSlice_byArrival_decided by keys_decide.
  vm_compute. do 2 eexists. repeat split.
Qed.


Lemma steadyArrivals_arrived (order : list Process) :
  order = steadyArrivals -> arrivedByService order.
Proof.
  intros -> i p Hi.
  destruct i as [|[|[|i]]]; [| | |done]; injection Hi as <-; by vm_compute.
Qed.


(** ** Charts: intervals in sequence *)

Lemma inSequence_snoc g x :
  inSequence g -> Forall (fun s => Stop s <= Start x) g -> inSequence (g ++ [x]).
Proof.
  intros Hg Hx i j a b Hij Hi Hj.
  apply lookup_app_Some in Hj as [Hj|[Hlen Hj]].
  - pose proof (lookup_lt_Some _ _ _ Hj).
    rewrite lookup_app_l in Hi by lia. exact (Hg i j a b Hij Hi Hj).
  - apply list_lookup_singleton_Some in Hj as [Hj0 <-].
    rewrite lookup_app_l in Hi by lia.
    rewrite Forall_forall in Hx. apply Hx. by eapply list_elem_of_lookup_2.
Qed.

Lemma inSequence_claims g :
  properIntervals g -> inSequence g -> nonOverlapping g /\ startOrdered g.
Proof.
  intros Hp Hs. split.
  - intros i j a b Hij Hi Hj.
    destruct (decide (i < j)%nat).
    + left. exact (Hs i j a b ltac:(lia) Hi Hj).
    + right. exact (Hs j i b a ltac:(lia) Hj Hi).
  - intros i j a b Hij Hi Hj.
    pose proof (Hs i j a b Hij Hi Hj).
    unfold properIntervals in Hp. rewrite Forall_forall in Hp.
    assert (Start a < Stop a) by (apply Hp; by eapply list_elem_of_lookup_2). lia.
Qed.

Lemma busy_charges pid g served :
  Forall2 charges g served -> busy pid g = demand pid served.
Proof.
  unfold busy, demand.
  induction 1 as [|s p g served [Hid Hd] _ IH]; [done|].
  rewrite !filter_cons, <- Hid.
  destruct (decide (PID s = pid)); rewrite ?fmap_cons; cbn [foldr];
    rewrite ?Hd, IH; done.
Qed.

Lemma demand_perm pid l1 l2 : Permutation l1 l2 -> demand pid l1 = demand pid l2.
Proof.
  unfold demand.
  induction 1 as [|x l1 l2 _ IH|x y l|l1 l2 l3 _ IH1 _ IH2]; [done| | |congruence].
  - rewrite !filter_cons. destruct (decide _); rewrite ?fmap_cons; cbn [foldr];
      by rewrite IH.
  - rewrite !filter_cons. repeat destruct (decide _); rewrite ?fmap_cons;
      cbn [foldr]; lia.
Qed.

Lemma demand_absent pid l : pid ∉ ProcessID <$> l -> demand pid l = 0.
Proof.
  unfold demand. induction l as [|x l IH]; intros Hpid; [done|].
  rewrite fmap_cons in Hpid. apply not_elem_of_cons in Hpid as [Hne Hpid].
  rewrite filter_cons. destruct (decide _); [congruence|]. by apply IH.
Qed.

Lemma demand_unique l p :
  NoDup (ProcessID <$> l) -> p ∈ l -> demand (ProcessID p) l = BurstDuration p.
Proof.
  induction l as [|x l IH]; intros Hnd Hp; [by apply elem_of_nil in Hp|].
  rewrite fmap_cons in Hnd. apply NoDup_cons in Hnd as [Hx Hnd].
  unfold demand. rewrite filter_cons.
  apply elem_of_cons in Hp as [->|Hp].
  - destruct (decide _); [|done]. rewrite fmap_cons. cbn [foldr].
    pose proof (demand_absent _ _ Hx) as H0. unfold demand in H0. rewrite H0. lia.
  - destruct (decide _) as [E|_].
    + exfalso. apply Hx. rewrite E. by apply list_elem_of_fmap_2.
    + by apply IH.
Qed.

(** ** Charts of the shared accounting *)

Lemma servedSlice_onTime p t :
  onTime p t -> in_int64 (serviceTime t) ->
  Start (servedSlice p t) = serviceTime t.
Proof.
  intros Hon Hr. unfold servedSlice, servedRow. cbn [Start rowWait].
  destruct (0 <? ArrivalTime p) eqn:Ea.
  - by apply add64_sub64_cancel.
  - apply Z.ltb_ge in Ea. destruct Hon as [?|Hon]; [lia|done].
Qed.

Lemma serve_chart served i p t :
  ChartInv served t -> onTime p t -> 0 < BurstDuration p ->
  serviceTime t + BurstDuration p <= int64_max ->
  ChartInv (served ++ [p]) (serve i p t).
Proof.
  intros [Hch Hpr Hseq Hpast Hclock] Hon Hb Hmax.
  assert (in_int64 (serviceTime t)) as Hr
    by (unfold in_int64, int64_min, int64_max in *; lia).
  pose proof (servedSlice_onTime p t Hon Hr) as Hstart.
  assert (Stop (servedSlice p t) = serviceTime t + BurstDuration p) as Hstop.
  { simpl. apply add64_exact. unfold in_int64, int64_min, int64_max in *. lia. }
  split; rewrite ?gantt_serve, ?serviceTime_serve.
  - apply Forall2_app; [done|]. constructor; [|constructor].
    split; [done|]. unfold duration. lia.
  - apply Forall_app. split; [done|]. constructor; [lia|constructor].
  - apply inSequence_snoc; [done|]. by rewrite Hstart.
  - change (add64 (serviceTime t) (BurstDuration p)) with (Stop (servedSlice p t)).
    rewrite Hstop. apply Forall_app. split.
    + eapply Forall_impl; [exact Hpast|]. simpl. intros; lia.
    + constructor; [lia|constructor].
  - change (add64 (serviceTime t) (BurstDuration p)) with (Stop (servedSlice p t)).
    lia.
Qed.

Lemma serveAll_chart l :
  forall i t served,
    ChartInv served t ->
    Forall (fun p => 0 < ArrivalTime p /\ 0 < BurstDuration p) l ->
    serviceTime t + load l <= int64_max ->
    ChartInv (served ++ l) (serveAll i l t).
Proof.
  induction l as [|p l IH]; intros i t served Hinv Hl Hmax; simpl.
  - by rewrite app_nil_r.
  - apply Forall_cons in Hl as [[Ha Hb] Hl].
    rewrite load_cons in Hmax.
    assert (0 <= load l) as Hl0.
    { apply load_nonneg. eapply Forall_impl; [exact Hl|]. by intros ? [? ?]. }
    rewrite (cons_middle p served l), app_assoc.
    apply IH; [|done|].
    + apply serve_chart; [done|by left|done|lia].
    + rewrite serviceTime_serve, add64_exact; [lia|].
      pose proof (chart_clock _ _ Hinv).
      unfold in_int64, int64_min, int64_max in *. lia.
Qed.

Lemma newTally_chart n : ChartInv [] (newTally n).
Proof.
  split; simpl; [constructor|constructor| |constructor|done].
  by intros i j a b _ Hi.
Qed.

(** The whole service order of FCFSSchedule and SJFSchedule. *)
Lemma serveAll_chart_from_start l n :
  Forall (fun p => 0 <= ArrivalTime p /\ 0 < BurstDuration p) l ->
  load l <= int64_max ->
  laterArrivalsPositive l ->
  ChartInv l (serveAll 0 l (newTally n)).
Proof.
  intros Hl Hmax Hlater. destruct l as [|p l]; [apply newTally_chart|].
  apply Forall_cons in Hl as [[Ha Hb] Hl]. rewrite load_cons in Hmax.
  unfold laterArrivalsPositive in Hlater. simpl in Hlater.
  assert (0 <= load l) as Hl0.
  { apply load_nonneg. eapply Forall_impl; [exact Hl|]. by intros ? [? ?]. }
  cbn [serveAll].
  apply (serveAll_chart l 1%nat _ [p]).
  - apply (serve_chart [] 0%nat p (newTally n)); [apply newTally_chart| |done|simpl; lia].
    destruct (decide (0 < ArrivalTime p)); [by left|right].
    assert (ArrivalTime p = 0) as -> by lia. reflexivity.
  - rewrite Forall_forall in Hl, Hlater. apply Forall_forall.
    intros x Hx. split; [by apply Hlater|by apply Hl].
  - rewrite serviceTime_serve. cbn [newTally serviceTime].
    rewrite add64_exact; [lia|]. unfold in_int64, int64_min, int64_max in *. lia.
Qed.

Lemma ChartInv_claim ps served t :
  ChartInv served t -> Permutation served ps -> NoDup (ProcessID <$> ps) ->
  chartClaim ps (gantt t).
Proof.
  intros [Hch Hpr Hseq _ _] Hperm Hnd.
  destruct (inSequence_claims _ Hpr Hseq) as [Hno Hord].
  split; [done|]. split; [done|]. split; [done|].
  intros p Hp.
  rewrite (busy_charges _ _ _ Hch), (demand_perm _ _ _ Hperm).
  by apply demand_unique.
Qed.

Lemma wellFormed_load ps : wellFormed ps -> load ps <= int64_max.
Proof. intros [_ Hspan]. pose proof (latest_nonneg ps). lia. Qed.

Lemma FCFSSchedule_chart ps :
  wellFormed ps -> NoDup (ProcessID <$> ps) -> laterArrivalsPositive ps ->
  chartClaim ps (chart (printed (FCFSSchedule ps))).
Proof.
  intros Hwf Hnd Hlater. simpl.
  apply (ChartInv_claim ps ps); [|done|done].
  apply serveAll_chart_from_start; [apply Hwf|by apply wellFormed_load|done].
Qed.

Lemma SJFSchedule_chart `{SliceSorter} ps :
  wellFormed ps -> NoDup (ProcessID <$> ps) ->
  laterArrivalsPositive (backing (SJFSchedule ps)) ->
  chartClaim ps (chart (printed (SJFSchedule ps))).
Proof.
  intros Hwf Hnd Hlater. simpl in *.
  pose proof (sortSlice_perm byBurst ps) as Hp.
  apply (ChartInv_claim ps (sortSlice byBurst ps)); [|done|done].
  apply serveAll_chart_from_start; [|  |done].
  - rewrite Hp. apply Hwf.
  - rewrite (load_perm _ _ Hp). by apply wellFormed_load.
Qed.


(** ** The chart of SJFPrioritySchedule *)

Lemma sorted_later_positive `{SliceSorter} ps :
  wellFormed ps -> atMostOneAtZero ps ->
  laterArrivalsPositive (sortSlice byArrival ps).
Proof.
  intros Hwf Hone.
  pose proof (sortSlice_perm byArrival ps) as Hp.
  pose proof (sortSlice_sorted ArrivalTime ps) as Hs.
  change (fun a b => ArrivalTime a <? ArrivalTime b) with byArrival in Hs.
  unfold atMostOneAtZero in Hone. rewrite <- Hp in Hone.
  assert (Forall (fun p => 0 <= ArrivalTime p) (sortSlice byArrival ps)) as Hnn.
  { rewrite Hp. eapply Forall_impl; [apply Hwf|]. by intros ? [? ?]. }
  destruct (sortSlice byArrival ps) as [|x rest]; [constructor|].
  unfold laterArrivalsPositive. simpl.
  apply StronglySorted_inv in Hs as [_ Hx].
  apply Forall_cons in Hnn as [Hx0 Hrest0].
  rewrite Forall_forall in Hx, Hrest0. apply Forall_forall. intros y Hy.
  specialize (Hx y Hy). specialize (Hrest0 y Hy). simpl in Hx.
  destruct (decide (0 < ArrivalTime y)); [done|exfalso].
  assert (ArrivalTime y = 0) as Hy0 by lia.
  assert (ArrivalTime x = 0) as Hx0' by lia.
  rewrite filter_cons_True in Hone by done. simpl in Hone.
  assert (y ∈ filter (fun p => ArrivalTime p = 0) rest) as Hin
    by (by apply list_elem_of_filter).
  destruct (filter _ rest); [by apply elem_of_nil in Hin|]. simpl in Hone. lia.
Qed.

Lemma PrioInv_dispatch_bound ps st n p :
  wellFormed ps -> PrioInv ps st -> pendingAt st n p ->
  0 <= ArrivalTime p /\ 0 < BurstDuration p /\
  serviceTime (tally st) + BurstDuration p <= int64_max.
Proof.
  intros Hwf Hinv [Hn Hp].
  assert (p ∈ pending st) as Hin.
  { apply list_elem_of_lookup. exists (n - lastExecuted st)%nat.
    unfold pending. rewrite lookup_drop. rewrite <- Hp. f_equal. lia. }
  assert (Forall (fun p => 0 < BurstDuration p) (pending st)) as Hpos.
  { eapply Forall_impl; [apply (inv_members _ _ Hinv)|].
    intros x Hx. by apply (wellFormed_elem ps x Hwf). }
  assert (BurstDuration p <= load (pending st)) as Hb.
  { apply (load_lookup _ (n - lastExecuted st) p Hpos).
    unfold pending. rewrite lookup_drop. rewrite <- Hp. f_equal. lia. }
  pose proof (inv_members _ _ Hinv) as Hmem. rewrite Forall_forall in Hmem.
  destruct (wellFormed_elem ps p Hwf (Hmem p Hin)) as [Ha Hb0].
  pose proof (inv_budget _ _ Hinv) as Hbud. fold (pending st) in Hbud.
  destruct Hwf as [_ Hspan]. lia.
Qed.

Lemma setServiceTime_chart served now t :
  ChartInv served t -> serviceTime t <= now -> ChartInv served (setServiceTime now t).
Proof.
  intros [Hch Hpr Hseq Hpast Hclock] Hnow. split; simpl; try done.
  - eapply Forall_impl; [exact Hpast|]. simpl. intros; lia.
  - lia.
Qed.

Lemma prioInit_chart `{SliceSorter} ps :
  laterArrivalsPositive (sortSlice byArrival ps) ->
  PrioChart ps (prioInit (sortSlice byArrival ps)).
Proof.
  intros Hlater. split.
  - exists []. split; [apply sortSlice_perm|apply newTally_chart].
  - right. by repeat split.
Qed.

Lemma prioStep_chart ps st :
  wellFormed ps -> PrioInv ps st -> PrioChart ps st ->
  (lastExecuted st < length (procs st))%nat ->
  PrioChart ps (prioStep st).
Proof.
  intros Hwf Hinv [(served & Hperm & Hchart) Hpos] Hk.
  pose proof (nextProcessOf_spec st (inv_boundary _ _ Hinv)) as Hs.
  destruct (lookup_lt_is_Some_2 _ _ Hk) as [pk Hpk].
  pose proof (list_lookup_total_correct _ _ _ Hpk) as Hpkt.
  assert (pending st = pk :: drop (S (lastExecuted st)) (procs st)) as Hpend
    by (by apply drop_S).
  unfold prioStep. destruct (nextProcessOf st) as [n|].
  - destruct Hs as (e & [Hn Hbest] & He & Harr & Hstop).
    destruct (lookup_lt_is_Some_2 (procs st) n) as [pn Hpn]; [lia|].
    pose proof (list_lookup_total_correct _ _ _ Hpn) as Hpnt.
    rewrite Hpkt, Hpnt.
    assert (pendingAt st n pn) as Hat by (split; [lia|done]).
    destruct (PrioInv_dispatch_bound ps st n pn Hwf Hinv Hat) as (Ha & Hb & Hmax).
    assert (ArrivalTime pn <= serviceTime (tally st)) as Hel
      by (rewrite <- Hpnt; apply Harr; lia).
    pose proof (swap_remove_perm (procs st) (lastExecuted st) n pk pn Hpk Hpn
                  ltac:(lia)) as Hswap.
    fold (pending st) in Hswap.
    (* the pending part after the turn holds positive arrivals only *)
    assert (Forall (fun p => 0 < ArrivalTime p)
              (drop (S (lastExecuted st)) (<[n:=pk]> (procs st))) /\
            onTime pn (tally st)) as [Hpos' Hon].
    { destruct Hpos as [Hall|(HT & Hw & Hlater)].
      - rewrite <- Hswap in Hall. apply Forall_cons in Hall as [? ?].
        split; [done|by left].
      - unfold laterArrivalsPositive in Hlater. rewrite Hpend in Hlater.
        simpl in Hlater.
        destruct (decide (n = lastExecuted st)) as [->|Hne].
        + assert (pn = pk) as -> by congruence.
          rewrite list_insert_id by done. split; [done|].
          destruct (decide (0 < ArrivalTime pk)); [by left|right].
          rewrite Hw, HT. assert (ArrivalTime pk = 0) as -> by lia. reflexivity.
        + exfalso. rewrite Forall_forall in Hlater.
          assert (0 < ArrivalTime pn); [|lia].
          apply Hlater. apply list_elem_of_lookup.
          exists (n - S (lastExecuted st))%nat.
          rewrite lookup_drop. rewrite <- Hpn. f_equal. lia. }
    split; cbn [tally procs lastExecuted pending].
    + exists (served ++ [pn]). split.
      * unfold pending. cbn [procs lastExecuted].
        rewrite <- app_assoc. simpl. by rewrite Hswap.
      * by apply serve_chart.
    + left. done.
  - specialize (Hs _ Hpk). rewrite Hpkt.
    split; cbn [tally procs lastExecuted].
    + exists served. split; [done|].
      apply setServiceTime_chart; [done|lia].
    + left. unfold pending. cbn [procs lastExecuted]. fold (pending st).
      destruct Hpos as [?|(HT & _ & Hlater)]; [done|].
      unfold laterArrivalsPositive in Hlater. rewrite Hpend in *.
      simpl in Hlater. constructor; [lia|done].
Qed.

Lemma SJFPrioritySchedule_chart `{SliceSorter} ps :
  wellFormed ps -> NoDup (ProcessID <$> ps) -> atMostOneAtZero ps ->
  exists run, SJFPrioritySchedule ps = Some run /\
    chartClaim ps (chart (printed run)).
Proof.
  intros Hwf Hnd Hone.
  destruct (SJFPrioritySchedule_returns ps) as [run Hrun].
  exists run. split; [done|].
  unfold SJFPrioritySchedule in Hrun.
  destruct (prioLoop _ _) as [st|] eqn:Eloop; [|done].
  injection Hrun as <-. simpl.
  apply (prioLoop_inv (fun s => PrioInv ps s /\ PrioChart ps s)) in Eloop
    as [[Hinv [(served & Hperm & Hchart) _]] Hend].
  - apply (ChartInv_claim ps served); [done| |done].
    unfold pending in Hperm. rewrite drop_ge in Hperm by done.
    by rewrite app_nil_r in Hperm.
  - intros s [Hs Hc] Hk. split; [by apply prioStep_inv|by apply prioStep_chart].
  - split; [by apply prioInit_inv|].
    apply prioInit_chart. by apply sorted_later_positive.
Qed.



(** ** Further properties of the policies *)

Lemma rowsConsistent_prioStep st :
  rowsConsistent (schedule (tally st)) ->
  rowsConsistent (schedule (tally (prioStep st))).
Proof.
  intros Hrows. unfold prioStep. destruct (nextProcessOf st); simpl; [|done].
  by apply rowsConsistent_insert; [|apply servedRow_consistent].
Qed.

(** Every row that FCFSSchedule, SJFSchedule and SJFPrioritySchedule store
    satisfies turnaround = waiting + burst and
    completion = arrival + waiting + burst, in 64-bit arithmetic. *)
Theorem accounting_rows_consistent `{SliceSorter} (ps : list Process) :
  rowsConsistent (table (printed (FCFSSchedule ps))) /\
  rowsConsistent (table (printed (SJFSchedule ps))) /\
  (exists run, SJFPrioritySchedule ps = Some run /\
     rowsConsistent (table (printed run))).
Proof.
  split; [|split].
  - apply rowsConsistent_serveAll, rowsConsistent_replicate.
  - apply rowsConsistent_serveAll, rowsConsistent_replicate.
  - destruct (SJFPrioritySchedule_returns ps) as [run Hrun].
    exists run. split; [done|].
    unfold SJFPrioritySchedule in Hrun.
    destruct (prioLoop _ _) as [st|] eqn:Eloop; [|done].
    injection Hrun as <-. simpl.
    apply (prioLoop_inv (fun s => rowsConsistent (schedule (tally s)))) in Eloop
      as [Hrows _]; [done| |].
    + intros s Hs _. by apply rowsConsistent_prioStep.
    + apply rowsConsistent_replicate.
Qed.

(** The loop of SJFPrioritySchedule (line 212) ends on every input, within
    two turns per process: the schedule is computed whatever the list. *)
Theorem SJFPrioritySchedule_terminates `{SliceSorter} (ps : list Process) :
  exists run, SJFPrioritySchedule ps = Some run.
Proof. apply SJFPrioritySchedule_returns. Qed.



(** On the scenario of the specification SJFPrioritySchedule stores the row
    of process 3 at index 2 and then the row of process 2 over it: the
    table it prints has no row for process 3 and an empty row at index 1. *)
Theorem SJFPrioritySchedule_overwrites_a_row `{SliceSorter} :
  exists run,
    SJFPrioritySchedule [csv 1 5 0 1; csv 2 3 2 2; csv 3 1 4 3] = Some run /\
    serviceOrder (printed run) = [1; 3; 2] /\
    column rowID (table (printed run)) = [Some 1; None; Some 2].
Proof.
  unfold SJFPrioritySchedule.
  rewrite sortSlice_byArrival_decided by keys_decide.
  eexists. split; [vm_compute; reflexivity|]. split; vm_compute; reflexivity.
Qed.

(** The scenario of the specification under FCFSSchedule: completions 5, 8
    and 9, waiting times 0, 3 and 4, average wait 7/3. *)
Theorem FCFSSchedule_scenario :
  let r := printed (FCFSSchedule [csv 1 5 0 1; csv 2 3 2 2; csv 3 1 4 3]) in
  column rowExit (table r) = [Some 5; Some 8; Some 9] /\
  column rowWait (table r) = [Some 0; Some 3; Some 4] /\
  aveWait r = (7 / 3)%float.
Proof. by vm_compute. Qed.

(** The scenario of the specification under SJFSchedule: service order 3,
    2, 1; the rows have waiting times -4, -1 and -1 and completions 1, 4
    and 4. *)
Theorem SJFSchedule_scenario `{SliceSorter} :
  let r := printed (SJFSchedule [csv 1 5 0 1; csv 2 3 2 2; csv 3 1 4 3]) in
  serviceOrder r = [3; 2; 1] /\
  column rowWait (table r) = [Some (-4); Some (-1); Some (-1)] /\
  column rowExit (table r) = [Some 1; Some 4; Some 4].
Proof.
  unfold SJFSchedule.
  rewrite sortSlice_byBurst_decided by keys_decide. by vm_compute.
Qed.

(** ** Text: decimal numbers *)

Lemma append_cons (c : ascii) (a b : string) :
  String c a +:+ b = String c (a +:+ b).
Proof. reflexivity. Qed.

Lemma append_nil_l (b : string) : "" +:+ b = b.
Proof. reflexivity. Qed.

Lemma length_append (a b : string) :
  String.length (a +:+ b) = (String.length a + String.length b)%nat.
Proof.
  induction a as [|c a IH]; [done|].
  rewrite append_cons. simpl. by rewrite IH.
Qed.

Lemma append_assoc (a b c : string) : (a +:+ b) +:+ c = a +:+ (b +:+ c).
Proof.
  induction a as [|x a IH]; [done|]. rewrite !append_cons. by rewrite IH.
Qed.

Lemma append_nil_r (a : string) : a +:+ "" = a.
Proof.
  induction a as [|x a IH]; [done|]. rewrite append_cons. by rewrite IH.
Qed.

Lemma decimal_app (a b : string) n :
  decimal (a +:+ b) n = decimal a n ≫= decimal b.
Proof.
  revert n. induction a as [|c a IH]; intros n; [done|].
  rewrite append_cons. simpl.
  destruct (digit c) as [d|]; simpl; [apply IH|done].
Qed.

Lemma pretty_N_go_app (x : N) (s : string) :
  pretty_N_go x s = pretty_N_go x "" +:+ s.
Proof.
  revert s. induction (N.lt_wf_0 x) as [x _ IH]; intros s.
  destruct (decide (x = 0)%N) as [->|Hx]; [by rewrite !pretty_N_go_0|].
  rewrite (pretty_N_go_step x s), (pretty_N_go_step x "") by lia.
  assert (x `div` 10 < x)%N as Hlt by (apply N.div_lt; lia).
  rewrite (IH _ Hlt (String _ s)), (IH _ Hlt (String _ "")).
  by rewrite append_assoc.
Qed.

Lemma pretty_N_go_snoc (x : N) :
  (0 < x)%N ->
  pretty_N_go x "" =
    pretty_N_go (x `div` 10) "" +:+ String (pretty_N_char (x `mod` 10)) "".
Proof. intros Hx. rewrite pretty_N_go_step by done. apply pretty_N_go_app. Qed.

Lemma digit_pretty_N_char (d : N) :
  (d < 10)%N -> digit (pretty_N_char d) = Some (Z.of_N d).
Proof.
  intros Hd.
  assert (d = 0 ∨ d = 1 ∨ d = 2 ∨ d = 3 ∨ d = 4 ∨ d = 5 ∨ d = 6 ∨ d = 7 ∨ d = 8 ∨ d = 9)%N
    as Hcases by lia.
  repeat (destruct Hcases as [->|Hcases]; [reflexivity|]). by subst.
Qed.

Lemma decimal_pretty_N_go (x : N) :
  decimal (pretty_N_go x "") 0 = Some (Z.of_N x).
Proof.
  induction (N.lt_wf_0 x) as [x _ IH].
  destruct (decide (x = 0)%N) as [->|Hx]; [done|].
  rewrite pretty_N_go_snoc, decimal_app by lia.
  rewrite IH by (apply N.div_lt; lia). simpl.
  rewrite digit_pretty_N_char by (apply N.mod_lt; lia). simpl.
  f_equal. rewrite (N.div_mod x 10) at 3 by lia. lia.
Qed.

Lemma length_pretty_N_go (x : N) (k : nat) :
  (String.length (pretty_N_go x "") <= k)%nat <-> (x < 10 ^ N.of_nat k)%N.
Proof.
  revert k. induction (N.lt_wf_0 x) as [x _ IH]; intros k.
  destruct (decide (x = 0)%N) as [->|Hx].
  { rewrite pretty_N_go_0. simpl. split; [intros _|lia].
    apply N.neq_0_lt_0, N.pow_nonzero. lia. }
  rewrite pretty_N_go_snoc, length_append by lia. simpl.
  destruct k as [|k].
  - simpl. split; lia.
  - specialize (IH (x `div` 10)%N ltac:(apply N.div_lt; lia) k).
    replace (N.of_nat (S k)) with (N.succ (N.of_nat k)) by lia.
    rewrite N.pow_succ_r by lia.
    pose proof (N.div_mod x 10 ltac:(lia)) as Hdm.
    pose proof (N.mod_lt x 10 ltac:(lia)) as Hm.
    split.
    + intros Hlen. assert (x `div` 10 < 10 ^ N.of_nat k)%N as Hd by (apply IH; lia).
      lia.
    + intros Hlt. assert (x `div` 10 < 10 ^ N.of_nat k)%N as Hd.
      { clear IH. generalize dependent (x `div` 10)%N.
        generalize dependent (x `mod` 10)%N. intros; lia. }
      apply IH in Hd. lia.
Qed.

(** ** Loading processes *)

Lemma strconv_ParseInt_Sprint (z : Z) :
  in_int64 z -> strconv_ParseInt (fmt_Sprint z) = Some z.
Proof.
  intros Hz.
  assert (forall p : positive, exists c rest,
            pretty_N_go (Npos p) "" = String c rest /\
            decimal (String c rest) 0 = Some (Zpos p) /\
            c <> "+"%char /\ c <> "-"%char) as Hdigits.
  { intros p. pose proof (decimal_pretty_N_go (Npos p)) as Hd.
    destruct (pretty_N_go (N.pos p) "") as [|c rest]; [discriminate|].
    exists c, rest. split; [done|]. split; [done|].
    simpl in Hd. destruct (digit c) eqn:Ec; [|discriminate].
    split; intros ->; discriminate. }
  assert (forall p : positive, pretty (Npos p) = pretty_N_go (Npos p) "") as Hpretty.
  { intros p. unfold pretty, pretty_N. by destruct (decide _). }
  unfold in_int64 in Hz. destruct z as [|p|p].
  - reflexivity.
  - unfold fmt_Sprint, pretty, pretty_Z, pretty, pretty_positive.
    rewrite Hpretty. destruct (Hdigits p) as (c & rest & -> & Hd & Hplus & Hminus).
    unfold strconv_ParseInt.
    rewrite (bool_decide_eq_false_2 _ Hplus), (bool_decide_eq_false_2 _ Hminus).
    simpl orb. cbv iota. rewrite Hd. simpl.
    repeat match goal with
           | |- context [?a <=? ?b] => rewrite (proj2 (Z.leb_le a b)) by lia
           end.
    done.
  - unfold fmt_Sprint, pretty, pretty_Z, pretty, pretty_positive.
    rewrite Hpretty. destruct (Hdigits p) as (c & rest & -> & Hd & Hplus & Hminus).
    rewrite append_cons, append_nil_l.
    unfold strconv_ParseInt.
    rewrite (bool_decide_eq_true_2 ("-"%char = "-"%char)) by done.
    rewrite orb_true_r. cbv iota. rewrite Hd. simpl.
    repeat match goal with
           | |- context [?a <=? ?b] => rewrite (proj2 (Z.leb_le a b)) by lia
           end.
    done.
Qed.

Lemma mustStrToInt_Sprint (z : Z) :
  in_int64 z -> mustStrToInt (fmt_Sprint z) = Got z.
Proof. intros Hz. unfold mustStrToInt. by rewrite strconv_ParseInt_Sprint. Qed.

Lemma mustStrToInt_Got s : numeric s <-> exists z, mustStrToInt s = Got z.
Proof.
  unfold numeric, mustStrToInt. destruct (strconv_ParseInt s) as [z|].
  - split; [by exists z|by eexists].
  - split; [by intros [? ?]|by intros [? ?]].
Qed.

Lemma loadRow_line (p : Process) : fieldsInRange p -> loadRow (line p) = Got p.
Proof.
  intros (Hid & Hb & Ha & Hp). destruct p as [id a b pr]. simpl in *.
  unfold loadRow, line. simpl.
  rewrite (mustStrToInt_Sprint id) by done. simpl.
  rewrite (mustStrToInt_Sprint b) by done. simpl.
  rewrite (mustStrToInt_Sprint a) by done. simpl.
  rewrite (mustStrToInt_Sprint pr) by done. reflexivity.
Qed.

Lemma loadRow_loadable row : loadable row <-> exists p, loadRow row = Got p.
Proof.
  split.
  - intros (a & b & c & rest & -> & Ha & Hb & Hc & Hd).
    apply mustStrToInt_Got in Ha as [x Ha], Hb as [y Hb], Hc as [z Hc].
    unfold loadRow. simpl. rewrite Ha. simpl. rewrite Hb. simpl. rewrite Hc. simpl.
    destruct rest as [|d [|e rest]]; simpl; [by eexists| |by eexists].
    destruct (proj1 (mustStrToInt_Got d) (Hd d eq_refl)) as [u ->]. by eexists.
  - intros [p Hp]. unfold loadRow in Hp.
    destruct row as [|a [|b [|c rest]]]; simpl in Hp.
    + discriminate.
    + destruct (mustStrToInt a); discriminate.
    + destruct (mustStrToInt a); simpl in Hp; [|discriminate..].
      destruct (mustStrToInt b); discriminate.
    + exists a, b, c, rest. split; [done|].
      destruct (mustStrToInt a) eqn:Ea; simpl in Hp; [|discriminate..].
      destruct (mustStrToInt b) eqn:Eb; simpl in Hp; [|discriminate..].
      destruct (mustStrToInt c) eqn:Ec; simpl in Hp; [|discriminate..].
      repeat split; try (apply mustStrToInt_Got; by eexists).
      intros d ->. simpl in Hp. apply mustStrToInt_Got.
      destruct (mustStrToInt d); [by eexists|discriminate..].
Qed.

Lemma loadRow_priority row p :
  loadRow row = Got p -> length row <> 4%nat -> Priority p = 0.
Proof.
  unfold loadRow. intros Hp Hlen.
  destruct (field row 0 ≫= mustStrToInt); simpl in Hp; [|discriminate..].
  destruct (field row 1 ≫= mustStrToInt); simpl in Hp; [|discriminate..].
  destruct (field row 2 ≫= mustStrToInt); simpl in Hp; [|discriminate..].
  destruct (decide (length row = 4%nat)); [done|].
  simpl in Hp. by injection Hp as <-.
Qed.

Lemma loadRows_Got rows ps :
  loadRows rows = Got ps <-> Forall2 (fun row p => loadRow row = Got p) rows ps.
Proof.
  revert ps. induction rows as [|row rows IH]; intros ps; simpl.
  - split; [intros [= <-]; constructor|intros Hf; by inversion Hf].
  - split.
    + destruct (loadRow row) as [p| |] eqn:Erow; simpl; [|discriminate..].
      destruct (loadRows rows) as [ps'| |] eqn:Erows; simpl; [|discriminate..].
      intros [= <-]. constructor; [done|]. by apply IH.
    + intros Hf. inversion Hf as [|? p ? ps' Hrow Hrest]; subst.
      rewrite Hrow. simpl. apply IH in Hrest. rewrite Hrest. reflexivity.
Qed.

(** Reading back: the records that give the four fields of each process in
    decimal load as those processes. *)
Theorem loadProcesses_reads_back (ps : list Process) :
  Forall fieldsInRange ps ->
  loadProcesses (Some (line <$> ps)) = Got (Some ps).
Proof.
  intros Hall. unfold loadProcesses.
  assert (loadRows (line <$> ps) = Got ps) as ->; [|done].
  apply loadRows_Got. induction Hall as [|p ps Hp _ IH]; simpl; constructor.
  - by apply loadRow_line.
  - exact IH.
Qed.

Lemma loadProcesses_reads_back_witness :
  loadProcesses (Some (line <$> [csv 1 5 0 1; csv 2 3 2 2; csv (-3) 1 4 50])) =
    Got (Some [csv 1 5 0 1; csv 2 3 2 2; csv (-3) 1 4 50]).
Proof.
  apply loadProcesses_reads_back.
  repeat constructor; vm_compute; discriminate.
Defined.

(** What loadProcesses does with the records it was given: it never
    returns an error for them; it returns processes exactly when every
    record is loadable, one process per record; and the priority of a
    process is 0 unless its record has exactly four fields. *)
Theorem loadProcesses_outcomes (rows : list (list string)) :
  loadProcesses (Some rows) <> Got None /\
  ((exists ps, loadProcesses (Some rows) = Got (Some ps)) <-> Forall loadable rows) /\
  (forall ps, loadProcesses (Some rows) = Got (Some ps) ->
     length ps = length rows /\
     forall i row p, rows !! i = Some row -> ps !! i = Some p ->
       loadRow row = Got p /\ (length row <> 4%nat -> Priority p = 0)).
Proof.
  unfold loadProcesses. split; [|split].
  - destruct (loadRows rows); discriminate.
  - split.
    + intros [ps Hps].
      destruct (loadRows rows) as [ps'| |] eqn:E; simpl in Hps; [|discriminate..].
      apply loadRows_Got in E. clear Hps.
      induction E as [|row p rows ps'' Hrow _ IH]; constructor; [|done].
      apply loadRow_loadable. by exists p.
    + intros Hall.
      assert (exists ps, loadRows rows = Got ps) as [ps ->]; [|by exists ps].
      induction Hall as [|row rows Hrow _ [ps IH]]; simpl; [by eexists|].
      apply loadRow_loadable in Hrow as [p ->]. rewrite IH. by eexists.
  - intros ps Hps.
    destruct (loadRows rows) as [ps'| |] eqn:E; simpl in Hps; [|discriminate..].
    injection Hps as <-. apply loadRows_Got in E.
    split; [symmetry; by eapply Forall2_length|].
    intros i row p Hi Hp.
    pose proof (Forall2_lookup_lr _ _ _ _ _ _ E Hi Hp) as Hrow.
    split; [done|]. by apply loadRow_priority.
Qed.

Lemma loadRows_app good rest :
  loadRows (good ++ rest) =
    gs ← loadRows good; rs ← loadRows rest; Got (gs ++ rs).
Proof.
  induction good as [|row good IH]; simpl.
  - by destruct (loadRows rest).
  - destruct (loadRow row) as [p| |]; simpl; [|done..].
    rewrite IH. destruct (loadRows good) as [gs| |]; simpl; [|done..].
    by destruct (loadRows rest).
Qed.

Lemma loadRows_loadable good :
  Forall loadable good -> exists gs, loadRows good = Got gs.
Proof.
  induction 1 as [|row rows Hrow _ [ps IH]]; simpl; [by eexists|].
  apply loadRow_loadable in Hrow as [p ->]. rewrite IH. by eexists.
Qed.

Lemma loadRow_short row :
  (length row < 3)%nat -> Forall numeric row -> loadRow row = FieldIndexOutOfRange.
Proof.
  intros Hlen Hnum. unfold loadRow.
  destruct row as [|a [|b [|c rest]]]; simpl in *; [done| | |lia].
  - apply Forall_cons in Hnum as [Ha _].
    apply mustStrToInt_Got in Ha as [x ->]. done.
  - apply Forall_cons in Hnum as [Ha Hnum]. apply Forall_cons in Hnum as [Hb _].
    apply mustStrToInt_Got in Ha as [x ->]. apply mustStrToInt_Got in Hb as [y ->]. done.
Qed.

Lemma mustStrToInt_exit s : ~ numeric s -> mustStrToInt s = OsExit 1.
Proof.
  unfold numeric, mustStrToInt. destruct (strconv_ParseInt s); [|done].
  intros Hn. destruct Hn. by eexists.
Qed.

Lemma loadRow_exit row k s :
  row !! k = Some s -> ~ numeric s -> Forall numeric (take k row) ->
  (k < 3)%nat \/ (k = 3%nat /\ length row = 4%nat) ->
  loadRow row = OsExit 1.
Proof.
  intros Hk Hs Hbefore Hwhere. unfold loadRow.
  destruct k as [|[|[|[|k]]]].
  - destruct row as [|a row]; simpl in Hk; [done|]. injection Hk as ->.
    simpl. by rewrite mustStrToInt_exit.
  - destruct row as [|a [|b row]]; simpl in Hk; try done. injection Hk as ->.
    simpl in Hbefore. apply Forall_cons in Hbefore as [Ha _].
    apply mustStrToInt_Got in Ha as [x Ha].
    simpl. rewrite Ha. simpl. by rewrite mustStrToInt_exit.
  - destruct row as [|a [|b [|c row]]]; simpl in Hk; try done. injection Hk as ->.
    simpl in Hbefore. apply Forall_cons in Hbefore as [Ha Hbefore].
    apply Forall_cons in Hbefore as [Hb _].
    apply mustStrToInt_Got in Ha as [x Ha]. apply mustStrToInt_Got in Hb as [y Hb].
    simpl. rewrite Ha. simpl. rewrite Hb. simpl. by rewrite mustStrToInt_exit.
  - destruct Hwhere as [?|[_ Hlen]]; [lia|].
    destruct row as [|a [|b [|c [|d [|e row]]]]]; simpl in Hk, Hlen; try done; try lia.
    injection Hk as ->.
    simpl in Hbefore. apply Forall_cons in Hbefore as [Ha Hbefore].
    apply Forall_cons in Hbefore as [Hb Hbefore].
    apply Forall_cons in Hbefore as [Hc _].
    apply mustStrToInt_Got in Ha as [x Ha]. apply mustStrToInt_Got in Hb as [y Hb].
    apply mustStrToInt_Got in Hc as [z Hc].
    simpl. rewrite Ha. simpl. rewrite Hb. simpl. rewrite Hc. simpl.
    by rewrite mustStrToInt_exit.
  - destruct Hwhere as [?|[? _]]; lia.
Qed.

Lemma mustStrToInt_no_panic s : mustStrToInt s <> FieldIndexOutOfRange.
Proof. unfold mustStrToInt. by destruct (strconv_ParseInt s). Qed.

Lemma loadRow_no_panic row :
  (3 <= length row)%nat -> loadRow row <> FieldIndexOutOfRange.
Proof.
  intros Hlen. unfold loadRow.
  destruct row as [|a [|b [|c rest]]]; simpl in Hlen; try lia.
  simpl.
  pose proof (mustStrToInt_no_panic a).
  destruct (mustStrToInt a); simpl; [|done..].
  pose proof (mustStrToInt_no_panic b).
  destruct (mustStrToInt b); simpl; [|done..].
  pose proof (mustStrToInt_no_panic c).
  destruct (mustStrToInt c); simpl; [|done..].
  destruct (decide _) as [E|E]; [|done].
  destruct rest as [|d rest]; [done|]. simpl.
  pose proof (mustStrToInt_no_panic d).
  by destruct (mustStrToInt d).
Qed.

Lemma loadRows_no_panic rows :
  Forall (fun row => 3 <= length row)%nat rows ->
  loadRows rows <> FieldIndexOutOfRange.
Proof.
  induction 1 as [|row rows Hrow _ IH]; simpl; [done|].
  pose proof (loadRow_no_panic row Hrow).
  destruct (loadRow row); simpl; [|done..].
  by destruct (loadRows rows).
Qed.

(** On the records of a file of [n] fields per record.  With three fields
    or more no index expression panics.  With fewer than three, the index
    expression panics at the first record when its fields are numeric.
    The first record that cannot be loaded decides how loading ends,
    whatever follows it: the program exits with status 1 when one of the
    fields read (the first three, and the fourth when the records have
    exactly four) is not numeric and the fields before it are. *)
Theorem loadProcesses_stops_at_first_bad_record
    (n : nat) (rows : list (list string)) :
  records n rows ->
  ((3 <= n)%nat -> loadProcesses (Some rows) <> FieldIndexOutOfRange) /\
  ((n < 3)%nat -> forall row rest, rows = row :: rest -> Forall numeric row ->
     loadProcesses (Some rows) = FieldIndexOutOfRange) /\
  (forall good row rest k s,
     rows = good ++ row :: rest -> Forall loadable good ->
     row !! k = Some s -> ~ numeric s -> Forall numeric (take k row) ->
     (k < 3)%nat \/ (k = 3%nat /\ n = 4%nat) ->
     loadProcesses (Some rows) = OsExit 1).
Proof.
  intros [Hn Hrows]. split; [|split].
  - intros H3. unfold loadProcesses.
    assert (loadRows rows <> FieldIndexOutOfRange) as Hno.
    { apply loadRows_no_panic. eapply Forall_impl; [exact Hrows|].
      simpl. intros row ->. done. }
    by destruct (loadRows rows).
  - intros H3 row rest -> Hnum.
    apply Forall_cons in Hrows as [Hlen _].
    unfold loadProcesses. simpl. rewrite loadRow_short; [done|lia|done].
  - intros good row rest k s -> Hgood Hk Hs Hbefore Hwhere.
    destruct (loadRows_loadable good Hgood) as [gs Hgs].
    apply Forall_app in Hrows as [_ Hrows].
    apply Forall_cons in Hrows as [Hlen _].
    unfold loadProcesses. rewrite loadRows_app, Hgs. simpl.
    rewrite (loadRow_exit row k s); [done..|].
    destruct Hwhere as [?|[? ?]]; [by left|right; split; [done|congruence]].
Qed.

Lemma loadProcesses_stops_at_first_bad_record_witness :
  records 2 [["2"; "3"]; ["4"; "x"]] /\
  loadProcesses (Some [["2"; "3"]; ["4"; "x"]]) = FieldIndexOutOfRange /\
  records 4 [["1"; "5"; "0"; "1"]; ["2"; " 3"; "2"; "2"]; ["3"; "1"; "x"; "3"]] /\
  loadProcesses
    (Some [["1"; "5"; "0"; "1"]; ["2"; " 3"; "2"; "2"]; ["3"; "1"; "x"; "3"]]) =
    OsExit 1.
Proof.
  assert (records 2 [["2"; "3"]; ["4"; "x"]]) as Htwo
    by (split; [lia|repeat constructor]).
  assert (records 4 [["1"; "5"; "0"; "1"]; ["2"; " 3"; "2"; "2"];
                     ["3"; "1"; "x"; "3"]]) as Hfour
    by (split; [lia|repeat constructor]).
  split; [exact Htwo|]. split; [|split; [exact Hfour|]].
  - apply (proj1 (proj2 (loadProcesses_stops_at_first_bad_record _ _ Htwo))
             ltac:(lia) ["2"; "3"] [["4"; "x"]] eq_refl).
    repeat constructor; by eexists.
  - apply (proj2 (proj2 (loadProcesses_stops_at_first_bad_record _ _ Hfour))
             [["1"; "5"; "0"; "1"]] ["2"; " 3"; "2"; "2"] [["3"; "1"; "x"; "3"]]
             1%nat " 3" eq_refl).
    + constructor; [|constructor]. exists "1", "5", "0", ["1"].
      split; [done|]. repeat split; try (by eexists).
      intros d [= <-]. by eexists.
    + reflexivity.
    + intros [z Hz]. vm_compute in Hz. discriminate.
    + repeat constructor. by eexists.
    + left. lia.
Defined.

(** ** The output helpers *)

Lemma pretty_pos (p : positive) : pretty (N.pos p) = pretty_N_go (N.pos p) "".
Proof. unfold pretty, pretty_N. by destruct (decide _). Qed.

Lemma length_fmt_Sprint (x : Z) :
  (10 <= String.length (fmt_Sprint x))%nat <-> tenCharacters x.
Proof.
  unfold tenCharacters, fmt_Sprint, pretty, pretty_Z. destruct x as [|p|p].
  - simpl. split; [lia|intros [?|?]; lia].
  - unfold pretty, pretty_positive. rewrite pretty_pos.
    pose proof (length_pretty_N_go (N.pos p) 9) as Hlen.
    change (10 ^ N.of_nat 9)%N with 1000000000%N in Hlen.
    change (10 ^ 9) with 1000000000. change (- 10 ^ 8) with (- 100000000).
    split; [intros H; right; lia|intros [?|?]; lia].
  - unfold pretty, pretty_positive. rewrite pretty_pos, append_cons, append_nil_l.
    pose proof (length_pretty_N_go (N.pos p) 8) as Hlen.
    change (10 ^ N.of_nat 8)%N with 100000000%N in Hlen.
    change (10 ^ 9) with 1000000000. change (- 10 ^ 8) with (- 100000000).
    simpl String.length.
    split; [intros H; left; lia|intros [?|?]; lia].
Qed.

Lemma strings_Repeat_None s count : strings_Repeat s count = None <-> count < 0.
Proof.
  unfold strings_Repeat. destruct (Z.ltb_spec count 0); split; (done || lia).
Qed.

(** The padding of a cell cannot be built exactly for a pid of ten
    characters or more. *)
Lemma padding_None (x : Z) :
  strings_Repeat " " ((8 - Z.of_nat (String.length (fmt_Sprint x))) ÷ 2) = None
  <-> tenCharacters x.
Proof.
  rewrite strings_Repeat_None, <- length_fmt_Sprint.
  generalize (String.length (fmt_Sprint x)). intros n.
  assert (forall a, 0 <= a -> 0 <= a `div` 2 /\ (2 <= a <-> 0 < a `div` 2)) as Hdiv.
  { intros a Ha. pose proof (Z.div_mod a 2 ltac:(lia)) as Hdm.
    pose proof (Z.mod_pos_bound a 2 ltac:(lia)) as Hm.
    generalize dependent (a `div` 2). generalize dependent (a `mod` 2).
    intros; lia. }
  destruct (decide (n <= 8)%nat) as [Hn|Hn].
  - rewrite Z.quot_div_nonneg by lia.
    destruct (Hdiv (8 - Z.of_nat n)) as [H0 _]; [lia|]. split; intros H; lia.
  - replace (8 - Z.of_nat n) with (- (Z.of_nat n - 8)) by lia.
    rewrite Z.quot_opp_l, Z.quot_div_nonneg by lia.
    destruct (Hdiv (Z.of_nat n - 8)) as [H0 H2]; [lia|]. split; intros H; lia.
Qed.

Lemma ganttCells_panicked gantt w :
  panicked (ganttCells gantt w) <-> Exists (fun s => tenCharacters (PID s)) gantt.
Proof.
  revert w. induction gantt as [|s rest IH]; intros w; simpl.
  - split; [done|intros H; inversion H].
  - rewrite Exists_cons. unfold repeatThen.
    destruct (strings_Repeat _ _) as [padding|] eqn:E.
    + rewrite IH. split; [by right|]. intros [Hs|?]; [|done].
      apply padding_None in Hs. congruence.
    + apply padding_None in E. simpl. split; [by left|done].
Qed.

Lemma ganttCells_ext g g' w :
  PID <$> g = PID <$> g' -> ganttCells g w = ganttCells g' w.
Proof.
  revert g' w. induction g as [|s rest IH]; intros [|s' rest'] w Hpid;
    try discriminate; [done|].
  simpl in *. injection Hpid as -> Hrest. unfold repeatThen.
  destruct (strings_Repeat _ _); [|done]. by apply IH.
Qed.

Lemma last_cons_cons {A} (x y : A) l : last (x :: y :: l) = last (y :: l).
Proof. reflexivity. Qed.

Lemma ganttTimes_ext n i g g' w :
  n = (i + length g)%nat ->
  Start <$> g = Start <$> g' ->
  Stop <$> last g = Stop <$> last g' ->
  ganttTimes n i g w = ganttTimes n i g' w.
Proof.
  revert g' i w. induction g as [|s rest IH]; intros [|s' rest'] i w Hn Hstart Hstop;
    try discriminate; [done|].
  simpl in Hstart. injection Hstart as Hs Hrest.
  cbn [ganttTimes]. rewrite Hs.
  destruct rest as [|s2 rest], rest' as [|s2' rest']; try discriminate.
  - simpl in Hstop. injection Hstop as ->. reflexivity.
  - rewrite !last_cons_cons in Hstop. simpl in Hn.
    rewrite (proj2 (Z.eqb_neq _ _)) by lia.
    apply IH; [simpl; lia|done|done].
Qed.

Lemma outputTitle_written w title : exists w', outputTitle w title = Written w'.
Proof.
  unfold outputTitle, repeatThen, strings_Repeat.
  rewrite (proj2 (Z.ltb_ge _ _)) by lia.
  assert (0 <= Z.of_nat (String.length title) ÷ 2) as Hq by (apply Z.quot_pos; lia).
  rewrite (proj2 (Z.ltb_ge _ _)) by lia.
  by eexists.
Qed.

(** outputGantt panics, in [strings.Repeat], exactly when the chart holds
    a pid of ten characters or more: 1000000000 and above, -100000000 and
    below. *)
Theorem outputGantt_panics_on_long_pids (w : string) (gantt : list TimeSlice) :
  panicked (outputGantt w gantt) <->
  Exists (fun s => PID s <= - 10 ^ 8 \/ 10 ^ 9 <= PID s) gantt.
Proof.
  unfold outputGantt, thenPrint.
  rewrite <- (ganttCells_panicked gantt
    (fmt_Fprint (fmt_Fprintln w ["Gantt schedule"]) ["|"])).
  by destruct (ganttCells _ _).
Qed.

(** The text of outputGantt shows the pid and the start of every interval
    and the stop of the last one only: two charts that agree on these are
    printed alike. *)
Theorem outputGantt_shows_starts_and_last_stop (w : string) (g g' : list TimeSlice) :
  PID <$> g = PID <$> g' ->
  Start <$> g = Start <$> g' ->
  Stop <$> last g = Stop <$> last g' ->
  outputGantt w g = outputGantt w g'.
Proof.
  intros Hpid Hstart Hstop. unfold outputGantt.
  rewrite (ganttCells_ext g g') by done.
  assert (length g = length g') as Hlen.
  { by rewrite <- (length_fmap PID g), Hpid, length_fmap. }
  rewrite <- Hlen. unfold thenPrint.
  destruct (ganttCells g' _) as [w1|w1]; [|done].
  by rewrite (ganttTimes_ext (length g) 0 g g').
Qed.

Lemma outputGantt_shows_starts_and_last_stop_witness :
  outputGantt ""
    [ {| PID := 1; Start := 0; Stop := 1 |}; {| PID := 1; Start := 0; Stop := 2 |};
      {| PID := 2; Start := 2; Stop := 3 |} ] =
  outputGantt ""
    [ {| PID := 1; Start := 0; Stop := 0 |}; {| PID := 1; Start := 0; Stop := 0 |};
      {| PID := 2; Start := 2; Stop := 3 |} ].
Proof. by apply outputGantt_shows_starts_and_last_stop. Defined.

(** ** SJFPrioritySchedule: every process is served once *)

Lemma prioStep_servedOnce ps st :
  servedOnce ps st -> (lastExecuted st < length (procs st))%nat ->
  servedOnce ps (prioStep st).
Proof.
  intros [Hk Hperm] Hlt.
  pose proof (nextProcessOf_spec st Hk) as Hs.
  unfold prioStep, pending in *. destruct (nextProcessOf st) as [n|]; simpl.
  2:{ split; [done|]. exact Hperm. }
  destruct Hs as (e & [Hn _] & [He _]).
  destruct (lookup_lt_is_Some_2 (procs st) n ltac:(lia)) as [p Hp].
  destruct (lookup_lt_is_Some_2 (procs st) (lastExecuted st) Hlt) as [pk Hpk].
  rewrite (list_lookup_total_correct _ _ _ Hp).
  rewrite (list_lookup_total_correct _ _ _ Hpk).
  split; simpl; [rewrite length_insert; lia|].
  rewrite <- Hperm, fmap_app, <- app_assoc. apply Permutation_app_head.
  simpl.
  rewrite <- (swap_remove_perm (procs st) (lastExecuted st) n pk p Hpk Hp) by lia.
  reflexivity.
Qed.

Lemma prioInit_servedOnce `{SliceSorter} ps :
  servedOnce ps (prioInit (sortSlice byArrival ps)).
Proof.
  split; simpl; [lia|]. unfold pending. simpl. rewrite drop_0.
  by rewrite (sortSlice_perm byArrival ps).
Qed.

(** On every process list the loop of SJFPrioritySchedule ends, and the
    chart it has built (handed to outputGantt at line 274) holds one
    interval per process: the pids of the chart are the ids of the input,
    each as often as it occurs there. *)
Theorem SJFPrioritySchedule_serves_each_once `{SliceSorter} (ps : list Process) :
  exists run, SJFPrioritySchedule ps = Some run /\
    Permutation (serviceOrder (printed run)) (ProcessID <$> ps).
Proof.
  destruct (SJFPrioritySchedule_returns ps) as [run Hrun].
  exists run. split; [done|].
  unfold SJFPrioritySchedule in Hrun.
  destruct (prioLoop _ _) as [st|] eqn:Eloop; [|done].
  injection Hrun as <-. unfold serviceOrder. simpl.
  destruct (prioLoop_inv (servedOnce ps) _ _ _ (prioStep_servedOnce ps)
              (prioInit_servedOnce ps) Eloop) as [[_ Hperm] Hend].
  unfold pending in Hperm. rewrite drop_ge in Hperm by lia.
  simpl in Hperm. by rewrite app_nil_r in Hperm.
Qed.

(** ** SJFPrioritySchedule: rows that are never written *)

Lemma prioInit_tableTrack sorted : tableTrack sorted (prioInit sorted).
Proof.
  unfold tableTrack, prioInit. simpl. rewrite length_replicate.
  split; [lia|]. split; [done|]. split; [done|]. left.
  split; [done|]. split; [done|]. simpl.
  intros i Hi. rewrite length_replicate in Hi.
  destruct (decide (i < 0)%nat); [lia|]. by apply lookup_replicate.
Qed.

Lemma prioStep_tableTrack sorted st :
  NoDup (ProcessID <$> sorted) ->
  tableTrack sorted st -> (lastExecuted st < length (procs st))%nat ->
  tableTrack sorted (prioStep st).
Proof.
  intros Hnd (Hk & Hlen & Hrows & Hcase) Hlt.
  pose proof (nextProcessOf_spec st Hk) as Hs.
  unfold prioStep. destruct (nextProcessOf st) as [n|]; simpl.
  { destruct Hs as (e & [Hn _] & [He _]).
    destruct (lookup_lt_is_Some_2 (procs st) n ltac:(lia)) as [p Hp].
    destruct (lookup_lt_is_Some_2 (procs st) (lastExecuted st) Hlt) as [pk Hpk].
    rewrite (list_lookup_total_correct _ _ _ Hp).
    rewrite (list_lookup_total_correct _ _ _ Hpk).
    unfold tableTrack. simpl. rewrite !length_insert.
    split; [lia|]. split; [done|]. split; [done|].
    destruct Hcase as [(Hprocs & Hgantt & Htable)|
                       [(e' & He' & Hempty) [(j & pid & Hj & Hne) (lost & Hlost & Hgone)]]].
    - destruct (decide (n = lastExecuted st)) as [->|Hnk].
      + left. unfold servedInOrder. simpl.
        assert (p = pk) as <- by congruence.
        rewrite list_insert_id by done.
        split; [done|]. split.
        * rewrite fmap_app, Hgantt. simpl.
          rewrite <- Hprocs, (take_S_r _ _ p Hp), fmap_app. done.
        * intros i Hi. rewrite length_insert in Hi. specialize (Htable i Hi).
          destruct (decide (i = lastExecuted st)) as [->|Hik].
          -- destruct (decide (lastExecuted st < S (lastExecuted st))%nat); [|lia].
             eexists. by apply list_lookup_insert_eq.
          -- rewrite list_lookup_insert_ne by done.
             destruct (decide (i < lastExecuted st)%nat), (decide (i < S (lastExecuted st))%nat);
               (done || lia).
      + assert (forall m x, (ProcessID <$> sorted) !! m = Some x ->
                  x = ProcessID p -> m = n) as Honly.
        { intros m x Hm ->. apply (NoDup_lookup _ m n (ProcessID p) Hnd Hm).
          by rewrite <- Hprocs, list_lookup_fmap, Hp. }
        right. unfold rowSkipped. simpl. split; [|split].
        * exists (lastExecuted st). split; [lia|].
          rewrite list_lookup_insert_ne by done.
          specialize (Htable (lastExecuted st) ltac:(lia)).
          by destruct (decide (lastExecuted st < lastExecuted st)%nat); [lia|].
        * exists (lastExecuted st), (ProcessID p). split.
          -- rewrite fmap_app, Hgantt. simpl.
             rewrite lookup_app_r; rewrite length_fmap, length_take; [|lia].
             by replace (_ - _)%nat with 0%nat by lia.
          -- intros Hm. apply Hnk. symmetry. by apply (Honly _ _ Hm).
        * exists (ProcessID p). split.
          -- rewrite <- Hprocs. by apply list_elem_of_fmap_2, list_elem_of_lookup_2 with n.
          -- intros Hin. apply list_elem_of_lookup in Hin as [m Hm].
             rewrite list_lookup_fmap in Hm.
             destruct (decide (m = n)) as [->|Hmn].
             ++ rewrite list_lookup_insert_eq in Hm by lia. simpl in Hm.
                injection Hm as Hm. apply Hnk. symmetry.
                apply (Honly (lastExecuted st) (ProcessID pk)); [|done].
                by rewrite <- Hprocs, list_lookup_fmap, Hpk.
             ++ rewrite list_lookup_insert_ne in Hm by done.
                apply Hmn. apply (Honly m (ProcessID p)); [|done].
                by rewrite <- Hprocs, list_lookup_fmap.
    - right. unfold rowSkipped. simpl. split; [|split].
      + exists e'. split; [lia|]. by rewrite list_lookup_insert_ne by lia.
      + exists j, pid. split; [|done]. rewrite fmap_app. by apply lookup_app_l_Some.
      + exists lost. split; [done|]. intros Hin. apply Hgone.
        apply list_elem_of_fmap in Hin as (x & -> & Hx).
        apply list_elem_of_lookup in Hx as [m Hm].
        destruct (decide (m = n)) as [->|Hmn].
        * rewrite list_lookup_insert_eq in Hm by lia. injection Hm as <-.
          by apply list_elem_of_fmap_2, list_elem_of_lookup_2 with (lastExecuted st).
        * rewrite list_lookup_insert_ne in Hm by done.
          by apply list_elem_of_fmap_2, list_elem_of_lookup_2 with m. }
  unfold tableTrack. simpl. split; [done|]. split; [done|]. split; [done|].
  destruct Hcase as [?|?]; [by left|by right].
Qed.

(** The table of SJFPrioritySchedule has as many entries as there are
    processes.  When the ids are distinct, every entry holds a row exactly
    when the chart serves the processes in the order sort.Slice left them
    in, and that is also exactly when the slice the caller is left with
    still holds every process.  As soon as a turn selects a process that is
    not at the front of the pending part, the index of that front is never
    written and the selected process is overwritten in the slice. *)
Theorem SJFPrioritySchedule_table_complete_iff `{SliceSorter} (ps : list Process) :
  NoDup (ProcessID <$> ps) ->
  exists run, SJFPrioritySchedule ps = Some run /\
    length (table (printed run)) = length ps /\
    (Forall is_Some (table (printed run)) <->
     serviceOrder (printed run) = ProcessID <$> sortSlice byArrival ps) /\
    (Permutation (backing run) ps <->
     serviceOrder (printed run) = ProcessID <$> sortSlice byArrival ps).
Proof.
  intros Hnd.
  destruct (SJFPrioritySchedule_returns ps) as [run Hrun].
  exists run. split; [done|].
  unfold SJFPrioritySchedule in Hrun.
  destruct (prioLoop _ _) as [st|] eqn:Eloop; [|done].
  injection Hrun as <-. unfold serviceOrder. simpl.
  pose proof (sortSlice_perm byArrival ps) as Hperm.
  set (sorted := sortSlice byArrival ps) in *.
  assert (NoDup (ProcessID <$> sorted)) as Hnd' by (by rewrite Hperm).
  destruct (prioLoop_inv (tableTrack sorted) _ _ _
              (fun s => prioStep_tableTrack sorted s Hnd')
              (prioInit_tableTrack sorted) Eloop)
    as [(Hk & Hlen & Hrows & Hcase) Hend].
  split; [by rewrite Hrows; apply sortSlice_length|].
  destruct Hcase as [(Hprocs & Hgantt & Htable)|
                     [(e & He & Hempty) [(j & pid & Hj & Hne) (lost & Hlost & Hgone)]]].
  - assert (PID <$> gantt (tally st) = ProcessID <$> sorted) as Hserved.
    { rewrite Hgantt, take_ge by lia. done. }
    split; (split; intros _; [exact Hserved|]).
    + apply Forall_lookup. intros i o Hi.
      specialize (Htable i (lookup_lt_Some _ _ _ Hi)).
      destruct (decide (i < lastExecuted st)%nat) as [_|Hge];
        [|apply lookup_lt_Some in Hi; lia].
      destruct Htable as [r Hr]. rewrite Hi in Hr. injection Hr as ->. by eexists.
    + by rewrite Hprocs.
  - split; split.
    + intros Hall. rewrite Forall_lookup in Hall.
      destruct (Hall e None Hempty) as [? ?]. discriminate.
    + intros E. rewrite E in Hj. by destruct Hne.
    + intros Hback. destruct Hgone. by rewrite Hback, <- Hperm.
    + intros E. rewrite E in Hj. by destruct Hne.
Qed.

Lemma SJFPrioritySchedule_table_complete_iff_witness :
  exists run,
    @SJFPrioritySchedule stableSorter [csv 1 5 0 1; csv 2 3 2 2; csv 3 1 4 3] = Some run /\
    length (table (printed run)) = 3%nat /\
    (Forall is_Some (table (printed run)) <->
     serviceOrder (printed run) = [1; 2; 3]) /\
    (Permutation (backing run) [csv 1 5 0 1; csv 2 3 2 2; csv 3 1 4 3] <->
     serviceOrder (printed run) = [1; 2; 3]).
Proof.
  apply (@SJFPrioritySchedule_table_complete_iff stableSorter
           [csv 1 5 0 1; csv 2 3 2 2; csv 3 1 4 3]).
  apply (bool_decide_unpack _). vm_compute. exact I.
Defined.

(** ** RRSchedule: dispatch by dispatch *)

Lemma gantt_admitInto st : RR.gantt (admitInto st) = RR.gantt st.
Proof. unfold admitInto. by destruct (admit_arrivals _ _ _). Qed.

Lemma admitInto_head st p rest :
  waiting st = p :: rest -> ArrivalTime p <= RR.currentTime st ->
  exists queue', RR.queue (admitInto st) = p :: queue'.
Proof.
  intros Hw Ha. unfold waiting in Hw.
  destruct (RR.queue st) as [|q0 qs] eqn:Eq.
  - simpl in Hw. unfold admitInto. rewrite Hw, Eq. simpl.
    rewrite (proj2 (Z.leb_le _ _) Ha).
    destruct (admit_arrivals_spec (RR.currentTime st) rest [p]) as (moved & _ & Hq & _).
    destruct (admit_arrivals _ _ _) as [processes queue]. simpl in *.
    exists moved. by rewrite Hq.
  - simpl in Hw. injection Hw as -> _.
    destruct (admitInto_spec st) as (moved & _ & Hq & _).
    exists (qs ++ moved). by rewrite Hq, Eq.
Qed.

Lemma runSlices_returns fuel timeSlice q bound process start :
  0 < q -> quantumExact timeSlice q bound -> bound <= int64_max ->
  forall slot st,
    0 <= RR.burstLeft slot -> 0 <= RR.currentTime st ->
    RR.currentTime st + RR.burstLeft slot <= bound ->
    (Z.to_nat (RR.burstLeft slot) <= fuel)%nat ->
    exists slot' st' added,
      runSlices fuel timeSlice process start slot st = Some (slot', st') /\
      RR.gantt st' = RR.gantt st ++ added /\
      Forall (fun s => PID s = ProcessID process /\ Start s = start /\
                RR.currentTime st < Stop s <= RR.currentTime st + RR.burstLeft slot)
             added /\
      (0 < RR.burstLeft slot ->
       Stop <$> last added = Some (RR.currentTime st + RR.burstLeft slot)).
Proof.
  intros Hq Hexact Hbound. induction fuel as [|fuel IH];
    intros slot st Hb Hct Hmax Hfuel.
  - assert (RR.burstLeft slot = 0) as Hzero by lia.
    exists slot, st, []. rewrite runSlices_done by lia.
    rewrite app_nil_r. repeat split; [constructor|lia].
  - destruct (decide (0 < RR.burstLeft slot)) as [Hpos|Hzero].
    2:{ exists slot, st, []. rewrite runSlices_done by lia.
        rewrite app_nil_r. repeat split; [constructor|lia]. }
    cbn [runSlices]. rewrite (proj2 (Z.ltb_lt _ _) Hpos).
    destruct (Hexact (RR.burstLeft slot) (RR.currentTime st) Hpos Hct Hmax)
      as [Hspent Hstop].
    unfold sliceSpent in Hspent. unfold sliceStop in Hstop.
    rewrite Hspent, Hstop.
    set (timeSpent := Z.min (RR.burstLeft slot) q) in *.
    assert (0 < timeSpent <= RR.burstLeft slot) as Hts by (unfold timeSpent; lia).
    match goal with |- context [runSlices _ _ _ _ ?s1 (admitInto ?s)] =>
      set (slot1 := s1) in *; set (st0 := s) in * end.
    destruct (admitInto_spec st0) as (_ & _ & _ & _ & Hct1 & _).
    assert (RR.burstLeft slot1 = RR.burstLeft slot - timeSpent) as Hb1.
    { simpl. apply sub64_exact. unfold in_int64, int64_min, int64_max in *. lia. }
    destruct (IH slot1 (admitInto st0)) as (slot' & st' & added & Hrun & Hg & Hall & Hlast).
    { lia. }
    { rewrite Hct1. simpl. lia. }
    { rewrite Hct1, Hb1. simpl. lia. }
    { rewrite Hb1. lia. }
    exists slot', st',
      ({| PID := ProcessID process; Start := start;
          Stop := RR.currentTime st + timeSpent |} :: added).
    split; [exact Hrun|]. rewrite Hct1, Hb1 in Hall, Hlast. simpl in Hall, Hlast.
    split; [|split].
    + rewrite Hg, gantt_admitInto. simpl. by rewrite <- app_assoc.
    + constructor; [simpl; repeat split; lia|].
      eapply Forall_impl; [exact Hall|]. simpl. intros s (? & ? & ?).
      repeat split; [done|done|lia|lia].
    + intros _. destruct added as [|s added].
      * simpl. f_equal.
        destruct (decide (0 < RR.burstLeft slot - timeSpent)) as [Hmore|Hdone]; [|lia].
        specialize (Hlast Hmore). discriminate.
      * destruct (decide (0 < RR.burstLeft slot - timeSpent)) as [Hmore|Hdone].
        -- rewrite last_cons_cons. rewrite (Hlast Hmore). f_equal. lia.
        -- apply Forall_cons in Hall as [(_ & _ & Hs) _]. lia.
Qed.

(** A turn that finds its process arrived. *)
Lemma rrTurn_serves ps fuel timeSlice q st p rest :
  wellFormed ps -> 0 < q -> quantumExact timeSlice q (load ps) ->
  ClockInv ps st -> waiting st = p :: rest ->
  ArrivalTime p <= RR.currentTime st ->
  1 <= ProcessID p <= Z.of_nat (length (RR.schedule st)) ->
  Z.of_nat (length (RR.schedule st)) <= int64_max ->
  (Z.to_nat (BurstDuration p) <= fuel)%nat ->
  exists st' group,
    rrTurn fuel timeSlice st = Returned st' /\
    ClockInv ps st' /\
    waiting st' = rest /\
    RR.currentTime st' = RR.currentTime st + BurstDuration p /\
    RR.schedule st' =
      <[ rowIndex p := Some (dispatchedRow (RR.currentTime st) p) ]> (RR.schedule st) /\
    RR.gantt st' = RR.gantt st ++ group /\
    Forall (dispatchedSlice (RR.currentTime st) p) group /\
    Stop <$> last group = Some (RR.currentTime st + BurstDuration p).
Proof.
  intros Hwf Hq Hexact Hinv Hw Ha Hid Hn Hfuel.
  destruct Hinv as [Hct Hbud Hqueue Hmem Hrows].
  pose proof Hmem as Hmem'.
  rewrite Hw in Hmem'. apply Forall_cons in Hmem' as [Hp_in Hrest_in].
  destruct (wellFormed_elem ps p Hwf Hp_in) as [Hap Hbp].
  assert (0 <= load rest) as Hrest.
  { apply load_nonneg. eapply Forall_impl; [exact Hrest_in|].
    intros x Hx. by apply (wellFormed_elem ps x Hwf). }
  pose proof Hbud as Hbud'. rewrite Hw, load_cons in Hbud'.
  assert (load ps <= int64_max) as Hmax by (by apply wellFormed_load).
  destruct (admitInto_head st p rest Hw Ha) as [queue' Hq1].
  destruct (admitInto_spec st) as (moved & _ & Hqa & Hmoved & Hcta & Hscheda).
  set (slot := {| RR.completion := 0; RR.burstLeft := BurstDuration p;
                  RR.timeElapsed := 0 |}).
  destruct (runSlices_returns fuel timeSlice q (load ps) p (RR.currentTime st)
              Hq Hexact Hmax slot (setQueue queue' (admitInto st)))
    as (slot' & st2 & group & Hrun & Hg & Hall & Hlast);
    [simpl; lia|simpl; lia|simpl; rewrite Hcta; lia|simpl; lia|].
  simpl in Hall, Hlast. rewrite Hcta in Hall, Hlast.
  pose proof (runSlices_frame _ _ _ _ _ _ _ _ Hrun) as [Hs2 Hw2].
  pose proof (waiting_dequeue _ _ _ Hq1) as Hw1. rewrite waiting_admitInto in Hw1.
  assert (waiting st2 = rest) as Hwrest.
  { rewrite Hw2. rewrite Hw in Hw1. by injection Hw1. }
  assert (Forall (fun x => ArrivalTime x <= RR.currentTime st) queue') as Hqueue'.
  { assert (Forall (fun x => ArrivalTime x <= RR.currentTime st) (p :: queue')) as Hall'.
    { rewrite <- Hq1, Hqa. apply Forall_app. by split. }
    by apply Forall_cons in Hall' as [_ ?]. }
  pose proof (fun a b c d e f =>
                runSlices_timing fuel timeSlice q (load ps) p
                  (RR.currentTime st) Hq Hexact Hmax
                  _ _ _ _ a b c d e f Hrun) as Ht.
  simpl in Ht. rewrite Hcta in Ht.
  destruct Ht as (Hct2 & Hqueue2 & Hte2 & Hcomp2); [lia|lia|lia|lia|lia|done|].
  specialize (Hcomp2 Hbp).
  assert (RR.schedule st2 = RR.schedule st) as Hs by (by rewrite Hs2).
  destruct (recordRow_in_bounds p slot' st2) as (st' & Hrec & Hw' & Hct' & Hs');
    [by rewrite Hs|by rewrite Hs|].
  assert (rrTurn fuel timeSlice st = Returned st') as Hturn.
  { unfold rrTurn, skipIdle. rewrite Hq1. simpl. rewrite Hq1, Hcta.
    fold slot. by rewrite Hrun. }
  exists st', group. split; [exact Hturn|].
  split.
  { apply (rrTurn_clock ps fuel timeSlice q st st' Hwf Hq Hexact); [|exact Hturn].
    by constructor. }
  split; [by rewrite Hw'|]. split; [by rewrite Hct', Hct2|].
  split; [|split; [|split]].
  - rewrite Hs', Hs. unfold rowIndex. f_equal. f_equal.
    unfold recordedRow, dispatchedRow. rewrite Hct2, Hte2, Hcomp2, Hct2. simpl.
    rewrite (sub64_exact (RR.currentTime st + BurstDuration p))
      by (unfold in_int64, int64_min, int64_max in *; lia).
    rewrite sub64_exact by (unfold in_int64, int64_min, int64_max in *; lia).
    rewrite (add64_exact (_ - _ - _)) by (unfold in_int64, int64_min, int64_max in *; lia).
    f_equal; [lia|f_equal; lia].
  - unfold recordRow in Hrec. destruct (_ && _); [|done].
    injection Hrec as <-. simpl. rewrite Hg. simpl. by rewrite gantt_admitInto.
  - eapply Forall_impl; [exact Hall|]. intros s (? & ? & ?). by split.
  - by apply Hlast.
Qed.

(** A turn that finds the processor idle and nothing arrived. *)
Lemma rrTurn_idle ps fuel timeSlice st p rest :
  ClockInv ps st -> waiting st = p :: rest ->
  RR.currentTime st < ArrivalTime p ->
  rrTurn fuel timeSlice st = Panicked QueueIndexOutOfRange.
Proof.
  intros [_ _ Hqueue _ _] Hw Ha. unfold waiting in Hw.
  destruct (RR.queue st) as [|q0 qs] eqn:Eq.
  - simpl in Hw. unfold rrTurn, skipIdle, admitInto. rewrite Hw, Eq. simpl.
    by rewrite (proj2 (Z.leb_gt _ _) Ha).
  - simpl in Hw. injection Hw as -> _.
    apply Forall_cons in Hqueue as [Hp _]. lia.
Qed.

Lemma rowIndex_inj n p p' :
  1 <= ProcessID p <= Z.of_nat n -> 1 <= ProcessID p' <= Z.of_nat n ->
  rowIndex p = rowIndex p' -> ProcessID p = ProcessID p'.
Proof. unfold rowIndex. lia. Qed.

Lemma load_nil : load [] = 0.
Proof. reflexivity. Qed.

Lemma arrivedFrom_cons now p rest :
  arrivedFrom now (p :: rest) <->
  ArrivalTime p <= now /\ arrivedFrom (now + BurstDuration p) rest.
Proof.
  unfold arrivedFrom. split.
  - intros Harr. split.
    + specialize (Harr 0%nat p eq_refl). simpl in Harr. rewrite load_nil in Harr. lia.
    + intros i x Hi. specialize (Harr (S i) x Hi). simpl in Harr.
      rewrite load_cons in Harr. lia.
  - intros [Hp Hrest] [|i] x Hi; simpl in *.
    + injection Hi as <-. rewrite load_nil. lia.
    + specialize (Hrest i x Hi). rewrite load_cons. lia.
Qed.

Lemma rrLoop_done fuel timeSlice st :
  waiting st = [] -> rrLoop fuel timeSlice st = Returned st.
Proof.
  unfold waiting. intros Hw. apply app_eq_nil in Hw as [Hq Hp].
  destruct fuel; simpl; by rewrite Hq, Hp.
Qed.

Lemma rrLoop_turn fuel timeSlice st p rest :
  waiting st = p :: rest ->
  rrLoop (S fuel) timeSlice st = rrTurn fuel timeSlice st ≫= rrLoop fuel timeSlice.
Proof.
  unfold waiting. intros Hw. simpl.
  destruct (RR.queue st), (RR.processes st); try done.
Qed.

Section RoundRobin.
Context (ps : list Process) (timeSlice : float) (q : Z).
Hypothesis Hwf : wellFormed ps.
Hypothesis Hq : 0 < q.
Hypothesis Hexact : quantumExact timeSlice q (load ps).
Hypothesis Hn : Z.of_nat (length ps) <= int64_max.

(** The loop serves the waiting processes in order, each to completion, as
    long as each has arrived when its turn comes. *)
Lemma rrLoop_serves w :
  forall st fuel,
    waiting st = w -> ClockInv ps st ->
    length (RR.schedule st) = length ps ->
    idsFit (length ps) w -> NoDup (ProcessID <$> w) ->
    arrivedFrom (RR.currentTime st) w ->
    (length w + Z.to_nat (load w) < fuel)%nat ->
    exists st' g,
      rrLoop fuel timeSlice st = Returned st' /\
      RR.gantt st' = RR.gantt st ++ g /\
      servedInTurn (RR.currentTime st) w g /\
      length (RR.schedule st') = length ps /\
      (forall i p, w !! i = Some p ->
         RR.schedule st' !! rowIndex p =
           Some (Some (dispatchedRow (RR.currentTime st + load (take i w)) p))) /\
      (forall j, (forall p, p ∈ w -> rowIndex p <> j) ->
         RR.schedule st' !! j = RR.schedule st !! j).
Proof.
  induction w as [|p rest IH]; intros st fuel Hw Hinv Hlen Hfit Hnd Harr Hfuel.
  - exists st, []. rewrite rrLoop_done by done. rewrite app_nil_r.
    repeat split; [constructor|done|done].
  - destruct fuel as [|fuel]; [simpl in Hfuel; lia|].
    rewrite (rrLoop_turn fuel timeSlice st p rest Hw).
    apply arrivedFrom_cons in Harr as [Ha Harr].
    apply Forall_cons in Hfit as [Hid Hfit].
    simpl in Hnd. apply NoDup_cons in Hnd as [Hfresh Hnd].
    pose proof (clock_members _ _ Hinv) as Hmem. rewrite Hw in Hmem.
    apply Forall_cons in Hmem as [Hp_in Hrest_in].
    destruct (wellFormed_elem ps p Hwf Hp_in) as [_ Hbp].
    assert (0 <= load rest) as Hrest.
    { apply load_nonneg. eapply Forall_impl; [exact Hrest_in|].
      intros x Hx. by apply (wellFormed_elem ps x Hwf). }
    simpl in Hfuel. rewrite load_cons in Hfuel.
    destruct (rrTurn_serves ps fuel timeSlice q st p rest Hwf Hq Hexact Hinv Hw Ha)
      as (st1 & group & Hturn & Hinv1 & Hw1 & Hct1 & Hs1 & Hg1 & Hgroup & Hlast);
      [by rewrite Hlen|by rewrite Hlen|lia|].
    rewrite Hturn. simpl.
    assert (length (RR.schedule st1) = length ps) as Hlen1.
    { by rewrite Hs1, length_insert. }
    destruct (IH st1 fuel Hw1 Hinv1 Hlen1 Hfit Hnd) as
      (st' & g & Hloop & Hg & Hserved & Hlen' & Hrows & Hframe);
      [by rewrite Hct1|lia|].
    exists st', (group ++ g). split; [exact Hloop|].
    split; [by rewrite Hg, Hg1, <- app_assoc|].
    split; [constructor; [done|done|by rewrite <- Hct1]|].
    split; [done|]. split.
    + intros [|i] x Hi; simpl in Hi.
      * injection Hi as <-. simpl. rewrite load_nil, Z.add_0_r.
        rewrite Hframe.
        -- rewrite Hs1. apply list_lookup_insert_eq.
           rewrite Hlen. unfold rowIndex. lia.
        -- intros p' Hp' E. apply Hfresh.
           rewrite Forall_forall in Hfit.
           rewrite <- (rowIndex_inj (length ps) p' p (Hfit p' Hp') Hid E).
           by apply list_elem_of_fmap_2.
      * rewrite (Hrows i x Hi). simpl. rewrite load_cons, Hct1.
        do 3 f_equal. lia.
    + intros j Hj. rewrite Hframe, Hs1.
      * apply list_lookup_insert_ne. apply Hj. by left.
      * intros p' Hp'. apply Hj. by right.
Qed.

(** The loop panics at [queue[0]] when some process has not arrived when
    its turn comes. *)
Lemma rrLoop_idles w :
  forall st fuel,
    waiting st = w -> ClockInv ps st ->
    length (RR.schedule st) = length ps ->
    idsFit (length ps) w ->
    ~ arrivedFrom (RR.currentTime st) w ->
    (length w + Z.to_nat (load w) < fuel)%nat ->
    rrLoop fuel timeSlice st = Panicked QueueIndexOutOfRange.
Proof.
  induction w as [|p rest IH]; intros st fuel Hw Hinv Hlen Hfit Harr Hfuel.
  - destruct Harr. intros i p Hi. done.
  - destruct fuel as [|fuel]; [simpl in Hfuel; lia|].
    rewrite (rrLoop_turn fuel timeSlice st p rest Hw).
    destruct (decide (ArrivalTime p <= RR.currentTime st)) as [Ha|Ha].
    2:{ rewrite (rrTurn_idle ps fuel timeSlice st p rest Hinv Hw) by lia. done. }
    apply Forall_cons in Hfit as [Hid Hfit].
    pose proof (clock_members _ _ Hinv) as Hmem. rewrite Hw in Hmem.
    apply Forall_cons in Hmem as [Hp_in Hrest_in].
    destruct (wellFormed_elem ps p Hwf Hp_in) as [_ Hbp].
    assert (0 <= load rest) as Hrest.
    { apply load_nonneg. eapply Forall_impl; [exact Hrest_in|].
      intros x Hx. by apply (wellFormed_elem ps x Hwf). }
    simpl in Hfuel. rewrite load_cons in Hfuel.
    destruct (rrTurn_serves ps fuel timeSlice q st p rest Hwf Hq Hexact Hinv Hw Ha)
      as (st1 & group & Hturn & Hinv1 & Hw1 & Hct1 & Hs1 & _);
      [by rewrite Hlen|by rewrite Hlen|lia|].
    rewrite Hturn. simpl.
    apply (IH st1 fuel Hw1 Hinv1); [by rewrite Hs1, length_insert|done| |lia].
    intros Hrest_arr. apply Harr. apply arrivedFrom_cons. split; [done|].
    by rewrite <- Hct1.
Qed.

End RoundRobin.

Lemma length_le_load ps :
  Forall (fun p => 0 < BurstDuration p) ps -> Z.of_nat (length ps) <= load ps.
Proof.
  induction 1 as [|p l Hp _ IH]; [done|].
  rewrite load_cons. simpl length. lia.
Qed.

Lemma denseIds_NoDup ps : denseIds ps -> NoDup (ProcessID <$> ps).
Proof.
  unfold denseIds. intros ->. apply NoDup_fmap_2; [|apply NoDup_seq].
  intros x y. lia.
Qed.

Lemma rrInit_clock `{SliceSorter} ps :
  ClockInv ps (rrInit (length ps) (sortSlice byArrival ps)).
Proof.
  pose proof (sortSlice_perm byArrival ps) as Hp.
  split; simpl.
  - done.
  - unfold waiting. simpl. by rewrite (load_perm _ _ Hp).
  - constructor.
  - unfold waiting. simpl. rewrite Hp. apply Forall_forall. auto.
  - apply waitsNonNegative_replicate.
Qed.

Lemma arrivedFrom_dec now rest : Decision (arrivedFrom now rest).
Proof.
  revert now. induction rest as [|p rest IH]; intros now.
  - left. by intros i p Hi.
  - destruct (decide (ArrivalTime p <= now)) as [Hp|Hp].
    + destruct (IH (now + BurstDuration p)) as [Hrest|Hrest].
      * left. by apply arrivedFrom_cons.
      * right. intros Harr. by apply arrivedFrom_cons in Harr as [_ ?].
    + right. intros Harr. by apply arrivedFrom_cons in Harr as [? _].
Qed.

(** RRSchedule on a well-formed list with ids 1..N and an exact quantum of
    at least 1, given fuel for every slice: what the loop makes of the
    sorted slice. *)
Lemma RRSchedule_loop `{SliceSorter} ps fuel timeSlice q :
  wellFormed ps -> denseIds ps -> 0 < q -> quantumExact timeSlice q (load ps) ->
  (length ps + Z.to_nat (load ps) < fuel)%nat ->
  let order := sortSlice byArrival ps in
  (arrivedFrom 0 order ->
   exists st,
     rrLoop fuel timeSlice (rrInit (length ps) order) = Returned st /\
     servedInTurn 0 order (RR.gantt st) /\
     length (RR.schedule st) = length ps /\
     forall i p, order !! i = Some p ->
       RR.schedule st !! rowIndex p =
         Some (Some (dispatchedRow (load (take i order)) p))) /\
  (~ arrivedFrom 0 order ->
   rrLoop fuel timeSlice (rrInit (length ps) order) = Panicked QueueIndexOutOfRange).
Proof.
  intros Hwf Hd Hq Hexact Hfuel order.
  pose proof (sortSlice_perm byArrival ps) as Hp. fold order in Hp.
  assert (Z.of_nat (length ps) <= int64_max) as Hn.
  { pose proof (length_le_load ps) as Hl. pose proof (wellFormed_load ps Hwf).
    destruct Hwf as [Hall _]. lapply Hl; [lia|].
    eapply Forall_impl; [exact Hall|]. by intros x [_ ?]. }
  assert (idsFit (length ps) order) as Hfit.
  { unfold idsFit. rewrite Hp. by apply denseIds_fit. }
  assert (NoDup (ProcessID <$> order)) as Hnd.
  { rewrite Hp. by apply denseIds_NoDup. }
  assert (length order + Z.to_nat (load order) < fuel)%nat as Hfuel'.
  { by rewrite (Permutation_length Hp), (load_perm _ _ Hp). }
  pose proof (rrInit_clock ps) as Hinv. fold order in Hinv.
  assert (length (RR.schedule (rrInit (length ps) order)) = length ps) as Hlen.
  { simpl. by rewrite length_replicate. }
  split.
  - intros Harr.
    destruct (rrLoop_serves ps timeSlice q Hwf Hq Hexact Hn order
                (rrInit (length ps) order) fuel eq_refl Hinv Hlen Hfit Hnd Harr Hfuel')
      as (st & g & Hloop & Hg & Hserved & Hlen' & Hrows & _).
    exists st. split; [done|]. simpl in Hg. rewrite Hg.
    split; [done|]. split; [done|]. intros i p Hi.
    rewrite (Hrows i p Hi). simpl. done.
  - intros Harr.
    by apply (rrLoop_idles ps timeSlice q Hwf Hq Hexact Hn order
                (rrInit (length ps) order) fuel eq_refl Hinv Hlen Hfit).
Qed.

Lemma servedInTurn_last now order g :
  servedInTurn now order g -> order <> [] ->
  Forall (fun p => 0 < BurstDuration p) order ->
  Stop <$> last g = Some (now + load order).
Proof.
  induction 1 as [|now p rest group g Hgroup Hlast Hrest IH]; intros Hne Hpos; [done|].
  apply Forall_cons in Hpos as [Hp Hpos]. rewrite load_cons.
  destruct rest as [|p' rest].
  - inversion Hrest; subst. rewrite app_nil_r, Hlast, load_nil. f_equal. lia.
  - specialize (IH ltac:(done) Hpos).
    rewrite last_app. destruct (last g) as [x|]; [|discriminate].
    simpl in *. injection IH as ->. f_equal. lia.
Qed.





(** ** RRSchedule: a quantum below 1 *)

Lemma runSlices_stalls fuel timeSlice process start b :
  emptySlices timeSlice b -> 0 < b <= int64_max ->
  forall slot st,
    RR.burstLeft slot = b -> RR.currentTime st = 0 ->
    runSlices fuel timeSlice process start slot st = None.
Proof.
  intros [Hspent Hstop] Hb. induction fuel as [|fuel IH]; intros slot st Eb Ect;
    cbn [runSlices]; rewrite Eb, (proj2 (Z.ltb_lt 0 b)) by lia; [done|].
  unfold sliceSpent in Hspent. unfold sliceStop in Hstop.
  rewrite Ect, Hspent, Hstop.
  match goal with |- runSlices _ _ _ _ ?s1 (admitInto ?s) = _ =>
    destruct (admitInto_spec s) as (_ & _ & _ & _ & Hct1 & _) end.
  apply IH.
  - simpl. rewrite sub64_exact by (unfold in_int64, int64_min, int64_max in *; lia). lia.
  - by rewrite Hct1.
Qed.

(** When the quantum gives slices of no length to every process that
    arrives at time 0 (see [emptySlices]; 0.5 does for the bursts 1 and
    2), RRSchedule never returns on a list with arrival times >= 0,
    bursts > 0 and latest arrival + total burst <= 2^63 - 1 that has such
    a process: the first process dispatched is given slices of no duration
    for ever, whatever the number of turns it is allowed. *)
Theorem RRSchedule_never_returns_with_quantum_below_one `{SliceSorter}
    (ps : list Process) (timeSlice : float) :
  wellFormed ps -> (exists p, p ∈ ps /\ ArrivalTime p = 0) ->
  (forall p, p ∈ ps -> ArrivalTime p = 0 ->
     emptySlices timeSlice (BurstDuration p)) ->
  forall fuel, RRSchedule fuel ps timeSlice = OutOfFuel.
Proof.
  intros Hwf (p & Hp & Hp0) Hempty fuel.
  pose proof (sortSlice_perm byArrival ps) as Hperm.
  pose proof (sortSlice_sorted ArrivalTime ps) as Hsorted.
  change (fun a b : Process => ArrivalTime a <? ArrivalTime b) with byArrival in Hsorted.
  unfold RRSchedule.
  destruct (sortSlice byArrival ps) as [|p0 rest] eqn:Eorder.
  { rewrite <- Hperm in Hp. by apply elem_of_nil in Hp. }
  assert (p0 ∈ ps) as Hp0_in by (rewrite <- Hperm; left).
  destruct (wellFormed_elem ps p0 Hwf Hp0_in) as [[Ha0 _] Hb0].
  assert (ArrivalTime p0 <= 0) as Ha0'.
  { rewrite <- Hperm in Hp. apply elem_of_cons in Hp as [->|Hin]; [lia|].
    apply StronglySorted_inv in Hsorted as [_ Hall].
    rewrite Forall_forall in Hall. specialize (Hall p Hin). lia. }
  assert (BurstDuration p0 <= load ps) as Hload.
  { rewrite <- (load_perm _ _ Hperm), load_cons.
    assert (0 <= load rest); [|lia].
    apply load_nonneg. apply Forall_forall. intros x Hx.
    apply (wellFormed_elem ps x Hwf). rewrite <- Hperm. by right. }
  pose proof (wellFormed_load ps Hwf) as Hmax.
  set (st := rrInit (length ps) (p0 :: rest)).
  assert (rrLoop fuel timeSlice st = OutOfFuel) as ->; [|done].
  destruct fuel as [|fuel]; [done|].
  rewrite (rrLoop_turn fuel timeSlice st p0 rest eq_refl).
  assert (rrTurn fuel timeSlice st = OutOfFuel) as ->; [|done].
  destruct (admitInto_head st p0 rest eq_refl Ha0') as [queue' Hq1].
  destruct (admitInto_spec st) as (_ & _ & _ & _ & Hct & _).
  unfold rrTurn, skipIdle. rewrite Hq1. simpl. rewrite Hq1.
  rewrite (runSlices_stalls fuel timeSlice p0 (RR.currentTime (admitInto st))
             (BurstDuration p0)); [done| | | | ].
  - apply Hempty; [done|lia].
  - lia.
  - done.
  - simpl. by rewrite Hct.
Qed.

Lemma RRSchedule_never_returns_with_quantum_below_one_witness :
  @RRSchedule stableSorter 1000 [csv 1 2 0 1; csv 2 1 1 1] 0.5 = OutOfFuel.
Proof.
  assert (wellFormed [csv 1 2 0 1; csv 2 1 1 1]) as Hwf
    by (by apply (bool_decide_unpack _)).
  assert (exists p, p ∈ [csv 1 2 0 1; csv 2 1 1 1] /\ ArrivalTime p = 0) as Hzero
    by (exists (csv 1 2 0 1); split; [left|reflexivity]).
  assert (forall p, p ∈ [csv 1 2 0 1; csv 2 1 1 1] -> ArrivalTime p = 0 ->
            emptySlices 0.5 (BurstDuration p)) as Hempty.
  { intros p Hp Ha.
    apply elem_of_cons in Hp as [->|Hp]; [split; reflexivity|].
    apply elem_of_cons in Hp as [->|Hp]; [discriminate Ha|].
    by apply elem_of_nil in Hp. }
  exact (@RRSchedule_never_returns_with_quantum_below_one stableSorter
           [csv 1 2 0 1; csv 2 1 1 1] 0.5%float Hwf Hzero Hempty 1000%nat).
Defined.

(** ** What the policies print before the table *)

Lemma printChart_panicked w title r :
  panicked (printChart w title r) <-> Exists tenCharacters (PID <$> chart r).
Proof.
  unfold printChart, thenPrint.
  destruct (outputTitle_written w title) as [w' ->].
  unfold outputGantt, thenPrint.
  rewrite Exists_fmap.
  rewrite <- (ganttCells_panicked (chart r)
    (fmt_Fprint (fmt_Fprintln w' ["Gantt schedule"]) ["|"])).
  by destruct (ganttCells _ _).
Qed.

Lemma Exists_tenCharacters_perm (l1 l2 : list Z) :
  Permutation l1 l2 -> Exists tenCharacters l1 <-> Exists tenCharacters l2.
Proof.
  intros Hp. rewrite !Exists_exists. by setoid_rewrite Hp.
Qed.

(** FCFSSchedule, SJFSchedule and SJFPrioritySchedule panic while they
    print their chart, after the title and before the table, exactly when
    some process id takes ten characters or more (1000000000 and above,
    -100000000 and below). *)
Theorem policies_panic_printing_long_ids `{SliceSorter}
    (w title : string) (ps : list Process) :
  (panicked (printChart w title (printed (FCFSSchedule ps))) <-> hasLongId ps) /\
  (panicked (printChart w title (printed (SJFSchedule ps))) <-> hasLongId ps) /\
  (exists run, SJFPrioritySchedule ps = Some run /\
     (panicked (printChart w title (printed run)) <-> hasLongId ps)).
Proof.
  assert (hasLongId ps <-> Exists tenCharacters (ProcessID <$> ps)) as Hlong.
  { unfold hasLongId. by rewrite Exists_fmap. }
  split; [|split].
  - rewrite printChart_panicked, Hlong. simpl.
    by rewrite gantt_serveAll_PID.
  - rewrite printChart_panicked, Hlong. simpl.
    rewrite gantt_serveAll_PID. simpl.
    apply Exists_tenCharacters_perm, fmap_Permutation, sortSlice_perm.
  - destruct (SJFPrioritySchedule_returns ps) as [run Hrun].
    exists run. split; [done|].
    rewrite printChart_panicked, Hlong.
    apply Exists_tenCharacters_perm.
    unfold SJFPrioritySchedule in Hrun.
    destruct (prioLoop _ _) as [st|] eqn:Eloop; [|done].
    injection Hrun as <-. simpl.
    destruct (prioLoop_inv (servedOnce ps) _ _ _ (prioStep_servedOnce ps)
                (prioInit_servedOnce ps) Eloop) as [[_ Hperm] Hend].
    unfold pending in Hperm. rewrite drop_ge in Hperm by lia.
    simpl in Hperm. by rewrite app_nil_r in Hperm.
Qed.

(** ** FCFSSchedule and SJFSchedule never leave the processor idle *)

Lemma gantt_serveAll_lookup l i t k p :
  l !! k = Some p ->
  gantt (serveAll i l t) !! (length (gantt t) + k)%nat =
    Some (servedSlice p (serveAll i (take k l) t)).
Proof.
  revert i t k. induction l as [|p0 l IH]; intros i t k Hk; [done|].
  destruct k as [|k]; simpl in Hk.
  - injection Hk as ->. simpl take. cbn [serveAll].
    rewrite Nat.add_0_r.
    assert (forall l' j t' n x, gantt t' !! n = Some x ->
              gantt (serveAll j l' t') !! n = Some x) as Hkeep.
    { induction l' as [|x' l' IH']; intros j t' n x Hn; [done|].
      simpl. apply IH'. rewrite gantt_serve. by apply lookup_app_l_Some. }
    apply Hkeep. rewrite gantt_serve.
    rewrite lookup_app_r by lia. by rewrite Nat.sub_diag.
  - cbn [serveAll]. simpl take. cbn [serveAll].
    specialize (IH (S i) (serve i p0 t) k Hk).
    rewrite gantt_serve, length_app in IH. simpl in IH.
    by replace (length (gantt t) + S k)%nat with (length (gantt t) + 1 + k)%nat by lia.
Qed.

(** In the charts of FCFSSchedule and SJFSchedule the interval at index
    [i] belongs to the process served at position [i] and stops at the sum
    of the bursts of the processes served up to and including it, whatever
    their arrival times: the processor is never left waiting for an
    arrival. *)
Theorem accounting_never_idles `{SliceSorter} (ps : list Process) :
  (forall i p, ps !! i = Some p ->
     exists s, chart (printed (FCFSSchedule ps)) !! i = Some s /\
       PID s = ProcessID p /\ Stop s = serviceBefore ps (S i)) /\
  (forall i p, backing (SJFSchedule ps) !! i = Some p ->
     exists s, chart (printed (SJFSchedule ps)) !! i = Some s /\
       PID s = ProcessID p /\
       Stop s = serviceBefore (backing (SJFSchedule ps)) (S i)).
Proof.
  assert (forall l n i p, l !! i = Some p ->
            exists s, gantt (serveAll 0 l (newTally n)) !! i = Some s /\
              PID s = ProcessID p /\ Stop s = serviceBefore l (S i)) as Hgen.
  { intros l n i p Hi.
    pose proof (gantt_serveAll_lookup l 0%nat (newTally n) i p Hi) as Hs.
    simpl in Hs. eexists. split; [exact Hs|]. split; [done|].
    unfold servedSlice. cbn [Stop]. rewrite serviceTime_serveAll. simpl.
    unfold serviceBefore. rewrite (take_S_r l i p Hi), fmap_app, foldl_app. done. }
  split; intros i p Hi; simpl; by apply Hgen.
Qed.

(** ** The order of the input slice *)

Lemma keyDecides_elem key l x y :
  keyDecides key l -> x ∈ l -> y ∈ l -> key x = key y -> x = y.
Proof.
  unfold keyDecides. rewrite Forall_forall. intros Hk Hx Hy.
  specialize (Hk x Hx). rewrite Forall_forall in Hk. by apply Hk.
Qed.

Lemma sortSlice_order_free `{SliceSorter} (key : Process -> Z) l l' :
  keyDecides key l -> Permutation l l' ->
  sortSlice (fun a b => key a <? key b) l = sortSlice (fun a b => key a <? key b) l'.
Proof.
  intros Hk Hp.
  pose proof (sortSlice_perm (fun a b => key a <? key b) l) as H1.
  pose proof (sortSlice_perm (fun a b => key a <? key b) l') as H2.
  apply (sorted_perm_unique key).
  - intros x y Hx Hy. rewrite H1 in Hx, Hy. by apply (keyDecides_elem key l).
  - by rewrite H1, H2.
  - apply sortSlice_sorted.
  - apply sortSlice_sorted.
Qed.

(** The policies that sort their slice give the same result on every
    arrangement of the same processes, as long as the sort key tells the
    processes apart (pairwise distinct bursts for SJFSchedule, pairwise
    distinct arrival times for SJFPrioritySchedule and RRSchedule).  In
    particular SJFPrioritySchedule, which [main] calls on the slice
    SJFSchedule has sorted by burst, then prints what it prints for the
    loaded list. *)
Theorem sorting_policies_ignore_input_order `{SliceSorter} (ps ps' : list Process) :
  Permutation ps ps' ->
  (keyDecides BurstDuration ps -> SJFSchedule ps = SJFSchedule ps') /\
  (keyDecides ArrivalTime ps ->
     SJFPrioritySchedule ps = SJFPrioritySchedule ps' /\
     (forall fuel timeSlice, RRSchedule fuel ps timeSlice = RRSchedule fuel ps' timeSlice) /\
     SJFPrioritySchedule (backing (SJFSchedule (backing (FCFSSchedule ps)))) =
       SJFPrioritySchedule ps).
Proof.
  intros Hp. pose proof (Permutation_length Hp) as Hlen. split.
  - intros Hk. unfold SJFSchedule. rewrite <- Hlen.
    by rewrite (sortSlice_order_free BurstDuration ps ps' Hk Hp).
  - intros Hk.
    assert (forall l, Permutation ps l ->
              SJFPrioritySchedule ps = SJFPrioritySchedule l) as Hprio.
    { intros l Hl. unfold SJFPrioritySchedule.
      rewrite <- (Permutation_length Hl).
      by rewrite (sortSlice_order_free ArrivalTime ps l Hk Hl). }
    split; [by apply Hprio|]. split.
    + intros fuel timeSlice. unfold RRSchedule. rewrite <- Hlen.
      by rewrite (sortSlice_order_free ArrivalTime ps ps' Hk Hp).
    + symmetry. apply Hprio. simpl. symmetry. apply sortSlice_perm.
Qed.

Lemma sorting_policies_ignore_input_order_witness :
  @SJFSchedule stableSorter [csv 1 5 0 1; csv 2 3 2 2; csv 3 1 4 3] =
    @SJFSchedule stableSorter [csv 3 1 4 3; csv 1 5 0 1; csv 2 3 2 2] /\
  @SJFPrioritySchedule stableSorter [csv 1 5 0 1; csv 2 3 2 2; csv 3 1 4 3] =
    @SJFPrioritySchedule stableSorter [csv 3 1 4 3; csv 1 5 0 1; csv 2 3 2 2].
Proof.
  destruct (@sorting_policies_ignore_input_order stableSorter
              [csv 1 5 0 1; csv 2 3 2 2; csv 3 1 4 3]
              [csv 3 1 4 3; csv 1 5 0 1; csv 2 3 2 2]) as [Hsjf Hprio].
  - symmetry. apply (Permutation_cons_append [csv 1 5 0 1; csv 2 3 2 2] (csv 3 1 4 3)).
  - split.
    + apply Hsjf. apply (bool_decide_unpack _). vm_compute. exact I.
    + apply Hprio. apply (bool_decide_unpack _). vm_compute. exact I.
Defined.

(** ** SJFPrioritySchedule when every process is there from the start *)

Lemma StronglySorted_snoc {A} (R : A -> A -> Prop) (l : list A) (x : A) :
  StronglySorted R l -> Forall (fun a => R a x) l -> StronglySorted R (l ++ [x]).
Proof.
  induction 1 as [|a l Hl IH Ha]; intros Hx; simpl.
  - repeat constructor.
  - apply Forall_cons in Hx as [Hax Hx]. constructor; [by apply IH|].
    apply Forall_app. split; [done|]. by constructor.
Qed.

Lemma prioStep_shortestFirst ps st :
  wellFormed ps -> Forall (fun p => ArrivalTime p = 0) ps ->
  shortestFirst ps st -> (lastExecuted st < length (procs st))%nat ->
  shortestFirst ps (prioStep st).
Proof.
  intros Hwf Hzero [Hinv (served & Hgantt & Hperm & Hsorted & Hle)] Hk.
  split; [by apply prioStep_inv|].
  pose proof (nextProcessOf_spec st (inv_boundary _ _ Hinv)) as Hs.
  pose proof (inv_members _ _ Hinv) as Hmem.
  pose proof (inv_clock _ _ Hinv) as Hclock.
  unfold prioStep, pending in *. destruct (nextProcessOf st) as [n|]; simpl.
  2:{ exists served. by repeat split. }
  destruct Hs as (e & [Hn Hbest] & He & Harr & Hstop).
  assert (e = length (procs st)) as ->.
  { destruct (decide (e < length (procs st))%nat) as [Hlt|]; [|lia].
    destruct (lookup_lt_is_Some_2 _ _ Hlt) as [pe Hpe].
    specialize (Hstop pe Hpe).
    assert (pe ∈ ps) as Hin.
    { rewrite Forall_forall in Hmem. apply Hmem.
      apply list_elem_of_lookup. exists (e - lastExecuted st)%nat.
      rewrite lookup_drop. rewrite <- Hpe. f_equal. lia. }
    rewrite Forall_forall in Hzero. rewrite (Hzero pe Hin) in Hstop. lia. }
  destruct (lookup_lt_is_Some_2 (procs st) n ltac:(lia)) as [p Hp].
  destruct (lookup_lt_is_Some_2 (procs st) (lastExecuted st) Hk) as [pk Hpk].
  rewrite (list_lookup_total_correct _ _ _ Hp) in *.
  rewrite (list_lookup_total_correct _ _ _ Hpk).
  pose proof (swap_remove_perm (procs st) (lastExecuted st) n pk p Hpk Hp ltac:(lia))
    as Hswap.
  assert (Forall (fun b => BurstDuration p <= BurstDuration b)
                 (drop (lastExecuted st) (procs st))) as Hmin.
  { apply Forall_forall. intros b Hb.
    apply list_elem_of_lookup in Hb as [m Hm]. rewrite lookup_drop in Hm.
    destruct (Hbest (lastExecuted st + m)%nat) as [Hmb _].
    { apply lookup_lt_Some in Hm. lia. }
    by rewrite (list_lookup_total_correct _ _ _ Hm) in Hmb. }
  exists (served ++ [p]). split; [|split; [|split]].
  - rewrite !fmap_app, Hgantt. done.
  - rewrite <- Hperm, <- app_assoc. apply Permutation_app_head. simpl.
    by rewrite Hswap.
  - apply StronglySorted_snoc; [done|].
    eapply Forall_impl; [exact Hle|]. intros a Ha. simpl.
    rewrite Forall_forall in Ha. apply Ha.
    apply list_elem_of_lookup. exists (n - lastExecuted st)%nat.
    rewrite lookup_drop. rewrite <- Hp. f_equal. lia.
  - assert (forall b, b ∈ drop (S (lastExecuted st)) (<[n:=pk]> (procs st)) ->
              b ∈ drop (lastExecuted st) (procs st)) as Hsub.
    { intros b Hb. rewrite <- Hswap. by right. }
    apply Forall_app. split.
    + eapply Forall_impl; [exact Hle|]. intros a Ha. simpl.
      rewrite Forall_forall in Ha. apply Forall_forall. intros b Hb. by apply Ha, Hsub.
    + constructor; [|constructor]. rewrite Forall_forall in Hmin.
      apply Forall_forall. intros b Hb. by apply Hmin, Hsub.
Qed.

(** When every process arrives at time 0, SJFPrioritySchedule serves the
    processes in non-decreasing burst order; when moreover the bursts are
    pairwise distinct, that is the order in which SJFSchedule serves
    them. *)
Theorem SJFPrioritySchedule_shortest_first_from_time_zero `{SliceSorter}
    (ps : list Process) :
  wellFormed ps -> Forall (fun p => ArrivalTime p = 0) ps ->
  exists run order,
    SJFPrioritySchedule ps = Some run /\
    Permutation order ps /\
    StronglySorted (fun a b => BurstDuration a <= BurstDuration b) order /\
    serviceOrder (printed run) = ProcessID <$> order /\
    (keyDecides BurstDuration ps ->
     serviceOrder (printed run) = serviceOrder (printed (SJFSchedule ps))).
Proof.
  intros Hwf Hzero.
  destruct (SJFPrioritySchedule_returns ps) as [run Hrun].
  exists run. pose proof Hrun as Hret. unfold SJFPrioritySchedule in Hrun.
  destruct (prioLoop _ _) as [st|] eqn:Eloop; [|done].
  pose proof (sortSlice_perm byArrival ps) as Hp.
  assert (shortestFirst ps (prioInit (sortSlice byArrival ps))) as Hinit.
  { split; [by apply prioInit_inv|]. exists []. unfold pending. simpl.
    rewrite drop_0. repeat split; [done|constructor|constructor]. }
  destruct (prioLoop_inv (shortestFirst ps) _ _ _
              (fun s => prioStep_shortestFirst ps s Hwf Hzero) Hinit Eloop)
    as [[Hinv (served & Hgantt & Hperm & Hsorted & _)] Hend].
  unfold pending in Hperm. rewrite drop_ge, app_nil_r in Hperm by lia.
  exists served. split; [exact Hret|]. injection Hrun as <-.
  unfold serviceOrder. simpl.
  split; [done|]. split; [done|]. split; [done|].
  intros Hk. rewrite gantt_serveAll_PID, Hgantt. simpl. f_equal.
  apply (sorted_perm_unique BurstDuration).
  - intros x y Hx Hy. rewrite Hperm in Hx, Hy. by apply (keyDecides_elem BurstDuration ps).
  - rewrite Hperm. symmetry. apply sortSlice_perm.
  - done.
  - apply (sortSlice_sorted BurstDuration).
Qed.

Lemma SJFPrioritySchedule_shortest_first_from_time_zero_witness :
  exists run order,
    @SJFPrioritySchedule stableSorter [csv 1 5 0 1; csv 2 3 0 2; csv 3 1 0 3] = Some run /\
    Permutation order [csv 1 5 0 1; csv 2 3 0 2; csv 3 1 0 3] /\
    StronglySorted (fun a b => BurstDuration a <= BurstDuration b) order /\
    serviceOrder (printed run) = ProcessID <$> order /\
    (keyDecides BurstDuration [csv 1 5 0 1; csv 2 3 0 2; csv 3 1 0 3] ->
     serviceOrder (printed run) =
       serviceOrder (printed (@SJFSchedule stableSorter
                                [csv 1 5 0 1; csv 2 3 0 2; csv 3 1 0 3]))).
Proof.
  apply (@SJFPrioritySchedule_shortest_first_from_time_zero stableSorter
           [csv 1 5 0 1; csv 2 3 0 2; csv 3 1 0 3]).
  - by apply (bool_decide_unpack _).
  - repeat constructor.
Defined.
